(** * Telemetry: a metrics reporter sharing one outbound channel

    Shallow embedding of [src/stats/Telemetry.ts].  A [Telemetry] object
    owns either a [WebSocketReliable] or an [AbortController] handle for the
    pending HTTP request, and a counter [_reporting] of the reports started
    by [report] that were not released yet.  The JavaScript event loop is a
    labelled transition system over a [world]: a label is one callback
    that runs to completion (a call of [report], the source invoking
    [stats.onRelease], a timer firing, the promise of [stats.serialize]
    settling) or an event of the network (the socket going up or down, a
    posted body reaching the server, a response, a failure).  Everything
    the code does to the outside (timers, log sinks, socket and fetch
    calls) is appended to the [trace] in the order in which the statements
    run.

    Numbers are integers: the counter of reports and the frequency in
    seconds are in [Z], with exact arithmetic, which is what JavaScript
    computes on integral numbers below [2^53] in absolute value; fractional
    frequencies and [NaN] are left out (for this code [NaN] behaves like
    [0], any other number like a period).
    Timers are identified with the session that armed them; as in the
    browser and in Node.js, [clearInterval] also cancels a pending
    timeout. *)

From Stdlib Require Import ZArith String Ascii List Bool Lia DecimalString.
From stdpp Require Import base gmap list strings.

Open Scope string_scope.
Open Scope list_scope.
Open Scope Z_scope.

(** ** JavaScript values *)

(** The values a source can resolve or reject its [serialize()] promise
    with.  An object is a reference, its content is only looked at by
    [JSON.stringify]; thrown [Error] objects are kept apart, with their
    message. *)
Inductive value : Type :=
| undefined
| null
| boolean (b : bool)
| number (z : Z)
| text (s : string)
| array_buffer (bytes : list Byte.byte)
| object (ref : nat)
| error (message : string).

(** [!e] is [negb (truthy e)]. *)
Definition truthy (v : value) : bool :=
  match v with
  | undefined | null => false
  | boolean b => b
  | number z => negb (z =? 0)
  | text s => negb (String.eqb s "")
  | array_buffer _ | object _ | error _ => true
  end.

(** [body: string | ArrayBuffer], and at run time also [undefined]: that is
    what [JSON.stringify] returns for a value that has no JSON form, although
    it is typed as returning a string. *)
Inductive body : Type :=
| body_buffer (bytes : list Byte.byte)
| body_string (s : string)
| body_undefined.

(** A call either returns or throws. *)
Inductive completion (A : Type) : Type :=
| Normal (a : A)
| Throw (e : value).
Arguments Normal {A} a.
Arguments Throw {A} e.

(** How the promise returned by [stats.serialize()] settles. *)
Inductive settled : Type :=
| Resolved (data : value)
| Rejected (e : value).

(** ** The reliable socket *)

(** Modelled from the spec: the class [WebSocketReliable] of
    [utils/WebSocketReliable], which is not part of the sources at hand.
    The spec treats it as a black box with open, send and close, a [closed]
    flag and a queue of payloads that were handed to [send] before the
    connection was established.  [wire] lists the frames that were really
    written to the connection. *)
Record WebSocketReliable : Type := {
  closed : bool;
  opened : bool;
  queueing : list body;
  wire : list body
}.

(** Modelled from the spec: [new WebSocketReliable()] without URL, nothing
    is opened. *)
Definition WebSocketReliable_new : WebSocketReliable :=
  {| closed := true; opened := false; queueing := []; wire := [] |}.

(** Modelled from the spec: [ws.open(url)] starts a connection attempt. *)
Definition ws_open (ws : WebSocketReliable) : WebSocketReliable :=
  {| closed := false; opened := false; queueing := queueing ws; wire := wire ws |}.

(** Modelled from the spec: [ws.close()] tears the connection down;
    closing twice is harmless. *)
Definition ws_close (ws : WebSocketReliable) : WebSocketReliable :=
  {| closed := true; opened := false; queueing := queueing ws; wire := wire ws |}.

(** [ws.queueing.length = 0], line 147. *)
Definition ws_erase (ws : WebSocketReliable) : WebSocketReliable :=
  {| closed := closed ws; opened := opened ws; queueing := []; wire := wire ws |}.

(** Modelled from the spec: [ws.send(body)], written to the connection
    when it is established, queued otherwise.  The primitive is a black box
    that may throw; whether it does is decided by the environment
    ([fault]). *)
Definition ws_send (fault : option value) (b : body) (ws : WebSocketReliable)
  : completion WebSocketReliable :=
  match fault with
  | Some e => Throw e
  | None =>
      if opened ws
      then Normal {| closed := closed ws; opened := true;
                     queueing := queueing ws; wire := wire ws ++ [b] |}
      else Normal {| closed := closed ws; opened := false;
                     queueing := queueing ws ++ [b]; wire := wire ws |}
  end.

(** Modelled from the spec: the connection attempt succeeds, the queue is
    flushed. *)
Definition ws_established (ws : WebSocketReliable) : WebSocketReliable :=
  if closed ws || opened ws then ws
  else {| closed := false; opened := true;
          queueing := []; wire := wire ws ++ queueing ws |}.

(** Modelled from the spec: the connection fails or is lost. *)
Definition ws_lost (ws : WebSocketReliable) : WebSocketReliable :=
  if closed ws then ws else ws_close ws.

(** ** HTTP requests *)

Inductive request_status : Type := InFlight | Aborted | Delivered | Failed.

(** One call of [fetch]: [signal] is the identity of the [AbortController]
    whose signal was passed. *)
Record request : Type := {
  signal : nat;
  payload : body;
  content_type : string;
  status : request_status
}.

Definition abort_request (c : nat) (r : request) : request :=
  match status r with
  | InFlight =>
      if Nat.eqb (signal r) c
      then {| signal := signal r; payload := payload r;
              content_type := content_type r; status := Aborted |}
      else r
  | _ => r
  end.

Definition settle_request (st : request_status) (r : request) : request :=
  match status r with
  | InFlight => {| signal := signal r; payload := payload r;
                   content_type := content_type r; status := st |}
  | _ => r
  end.

(** ** Sources, sessions and the world *)

(** A statistics source: the identity of the object and
    [stats.constructor.name]. *)
Record IStats : Type := { obj : nat; constructor_name : string }.

(** The local variables of one call of [report]: [release] tells whether
    the variable [release] still holds the closure, [interval] whether the
    timer is still armed. *)
Record session : Type := {
  stats : IStats;
  frequency : Z;
  release : bool;
  interval : bool
}.

(** The private fields of the class, lines 50-53; [_fetch] holds the
    identity of the [AbortController] of the last request. *)
Record Telemetry : Type := {
  _ws : option WebSocketReliable;
  _fetch : option nat;
  _url : string;
  _reporting : Z
}.

(** What the program does to the outside: the timer calls, [this.onLog]
    and [this.onError], the call of [stats.serialize()] for a session, and
    the calls on the socket, on a controller and of [fetch]. *)
Inductive event : Type :=
| SetInterval (sid : nat) (ms : Z)
| SetTimeout (sid : nat) (ms : Z)
| ClearInterval (sid : nat)
| Log (line : string)
| Error (line : string)
| Serialize (sid : nat)
| WsOpen (url : string)
| WsSend (b : body)
| WsClose
| Abort (c : nat)
| Fetch (c : nat) (url : string) (mimeType : string) (b : body).

(** [callbacks] maps a source object to the session whose closures are
    installed in its [onError], [onLog] and [onRelease] fields; [pending]
    lists the sessions with a tick suspended at [await stats.serialize()];
    [controllers] counts the [AbortController]s allocated so far.  The
    status of a request is what the program's side of the connection knows
    of it; [arrived] is the other side: the requests whose body has reached
    the server, in the order of arrival. *)
Record world : Type := {
  this : Telemetry;
  sessions : list session;
  callbacks : gmap nat nat;
  pending : list nat;
  requests : list request;
  controllers : nat;
  arrived : list nat;
  trace : list event
}.

(** ** Updating the world *)

Definition emit (e : event) (w : world) : world :=
  {| this := this w; sessions := sessions w; callbacks := callbacks w;
     pending := pending w; requests := requests w;
     controllers := controllers w; arrived := arrived w;
     trace := trace w ++ [e] |}.

Definition set_this (t : Telemetry) (w : world) : world :=
  {| this := t; sessions := sessions w; callbacks := callbacks w;
     pending := pending w; requests := requests w;
     controllers := controllers w; arrived := arrived w; trace := trace w |}.

Definition set_sessions (l : list session) (w : world) : world :=
  {| this := this w; sessions := l; callbacks := callbacks w;
     pending := pending w; requests := requests w;
     controllers := controllers w; arrived := arrived w; trace := trace w |}.

Definition set_callbacks (m : gmap nat nat) (w : world) : world :=
  {| this := this w; sessions := sessions w; callbacks := m;
     pending := pending w; requests := requests w;
     controllers := controllers w; arrived := arrived w; trace := trace w |}.

Definition set_pending (l : list nat) (w : world) : world :=
  {| this := this w; sessions := sessions w; callbacks := callbacks w;
     pending := l; requests := requests w;
     controllers := controllers w; arrived := arrived w; trace := trace w |}.

Definition set_requests (l : list request) (w : world) : world :=
  {| this := this w; sessions := sessions w; callbacks := callbacks w;
     pending := pending w; requests := l;
     controllers := controllers w; arrived := arrived w; trace := trace w |}.

Definition set_controllers (n : nat) (w : world) : world :=
  {| this := this w; sessions := sessions w; callbacks := callbacks w;
     pending := pending w; requests := requests w;
     controllers := n; arrived := arrived w; trace := trace w |}.

Definition set_arrived (l : list nat) (w : world) : world :=
  {| this := this w; sessions := sessions w; callbacks := callbacks w;
     pending := pending w; requests := requests w;
     controllers := controllers w; arrived := l; trace := trace w |}.

Definition set_ws (ws : WebSocketReliable) (w : world) : world :=
  set_this {| _ws := Some ws; _fetch := _fetch (this w);
              _url := _url (this w); _reporting := _reporting (this w) |} w.

Definition set_fetch (c : nat) (w : world) : world :=
  set_this {| _ws := _ws (this w); _fetch := Some c;
              _url := _url (this w); _reporting := _reporting (this w) |} w.

Definition set_reporting (n : Z) (w : world) : world :=
  set_this {| _ws := _ws (this w); _fetch := _fetch (this w);
              _url := _url (this w); _reporting := n |} w.

(** [get reporting()] *)
Definition reporting (w : world) : Z := _reporting (this w).

(** [controller.abort()]: the request that was given this controller's
    signal is cancelled if it has not completed. *)
Definition abort (c : nat) (w : world) : world :=
  emit (Abort c) (set_requests (map (abort_request c) (requests w)) w).

(** Removes the first occurrence of [sid], if there is one. *)
Fixpoint take (sid : nat) (l : list nat) : option (list nat) :=
  match l with
  | [] => None
  | x :: l' =>
      if Nat.eqb x sid then Some l'
      else match take sid l' with
           | Some r => Some (x :: r)
           | None => None
           end
  end.

(** ** The constructor *)

(** The result of [new URL(url)]: [protocol] is the scheme with its colon,
    [href] is what [url.toString()] gives. *)
Record URL : Type := { protocol : string; href : string }.

(** [constructor(url)], lines 61-71; the argument is the parsed URL. *)
Definition constructor (url : URL) : completion Telemetry :=
  if String.prefix "ws" (protocol url) then
    Normal {| _ws := Some WebSocketReliable_new; _fetch := None;
              _url := href url; _reporting := 0 |}
  else if negb (String.prefix "http" (protocol url)) then
    Throw (error ("Protocol " ++ protocol url ++ " not supported"))
  else
    Normal {| _ws := None; _fetch := None;
              _url := href url; _reporting := 0 |}.

(** The two kinds of channel: [_send] takes the socket branch exactly when
    [this._ws] is set. *)
Inductive channel_kind : Type := socket | http.

Definition kind (t : Telemetry) : channel_kind :=
  match _ws t with Some _ => socket | None => http end.

(** The world right after construction. *)
Definition boot (t : Telemetry) : world :=
  {| this := t; sessions := []; callbacks := ∅; pending := [];
     requests := []; controllers := 0; arrived := []; trace := [] |}.

(** ** The methods *)

(** [Util.stringify] of [utils/Util] and the builtins are not part of the
    sources at hand; the development holds for whatever they compute.
    [JSON.stringify] returns a string, returns [undefined] (for [undefined],
    a function, a symbol, an object whose [toJSON] gives one of these), or
    throws (a circular object, a [BigInt], a throwing [toJSON]).
    [Number_exponential] is the exponent form in which a number of
    magnitude [1e21] or more is printed. *)
Class Platform : Type := {
  Util_stringify : value -> string;
  JSON_stringify : value -> completion (option string);
  Number_exponential : Z -> string
}.

Section Telemetry.

Context {P : Platform}.

(** ['' + frequency] for an integral number: its decimal digits, up to
    [1e21]. *)
Definition string_of_number (z : Z) : string :=
  if Z.abs z <? 10 ^ 21 then NilZero.string_of_int (Z.to_int z)
  else Number_exponential z.

(** The closure assigned to [release] and to [stats.onRelease], lines
    82-99, as created by the call of [report] that made session [sid]. *)
Definition release_closure (sid : nat) (w : world) : world :=
  match sessions w !! sid with
  | None => w
  | Some s =>
      if negb (release s) then w
      else
        (* release = undefined; clearInterval(interval) *)
        let w := set_sessions
                   (<[sid := {| stats := stats s; frequency := frequency s;
                                release := false; interval := false |}]>
                      (sessions w)) w in
        let w := emit (ClearInterval sid) w in
        let w := emit (Log ("Stop " ++ constructor_name (stats s)
                              ++ " reporting")) w in
        (* if (--this._reporting > 0) return *)
        let w := set_reporting (reporting w - 1) w in
        if 0 <? reporting w then w
        else
          (* close useless connection *)
          let w := match _ws (this w) with
                   | Some ws => emit WsClose (set_ws (ws_close ws) w)
                   | None => w
                   end in
          match _fetch (this w) with
          | Some c => abort c w
          | None => w
          end
  end.

(** [report(stats, frequency)], lines 78-116.  The new session gets the
    next index of [sessions]. *)
Definition report (st : IStats) (freq : Z) (w : world) : world :=
  let sid := length (sessions w) in
  (* stats.onError, stats.onLog and stats.onRelease are overwritten *)
  let w := set_callbacks (<[obj st := sid]> (callbacks w)) w in
  let w := set_sessions
             (sessions w ++ [{| stats := st; frequency := freq;
                                release := true; interval := true |}]) w in
  (* (frequency ? setInterval : setTimeout)(..., frequency * 1000) *)
  let w := emit (if freq =? 0 then SetTimeout sid (freq * 1000)
                 else SetInterval sid (freq * 1000)) w in
  let w := set_reporting (reporting w + 1) w in
  emit (Log ("Start " ++ constructor_name st ++ " reporting every "
               ++ string_of_number freq ++ " seconds")) w.

(** The timer callback of session [sid] up to the point where [_send]
    suspends at [await stats.serialize()], lines 102-107 and 118-121.  A
    timer that is not armed does not fire, and a timeout fires once. *)
Definition tick (sid : nat) (w : world) : option world :=
  match sessions w !! sid with
  | None => None
  | Some s =>
      if negb (interval s) then None
      else
        let w := if frequency s =? 0
                 then set_sessions
                        (<[sid := {| stats := stats s; frequency := frequency s;
                                     release := release s; interval := false |}]>
                           (sessions w)) w
                 else w in
        (* if (!frequency && release) release() *)
        let w := if (frequency s =? 0) && release s
                 then release_closure sid w else w in
        (* try { await this._send(stats) }: stats.serialize() is called *)
        Some (set_pending (pending w ++ [sid]) (emit (Serialize sid) w))
  end.

(** The choice of the wire encoding, lines 128-139: [JSON.stringify] is
    called for what is neither an [ArrayBuffer] nor a string, and what it
    throws leaves [_send]. *)
Definition encode (data : value) : completion (string * body) :=
  match data with
  | array_buffer bytes => Normal ("application/octet-stream", body_buffer bytes)
  | text s => Normal ("text/plain", body_string s)
  | _ =>
      match JSON_stringify data with
      | Normal (Some s) => Normal ("application/json", body_string s)
      | Normal None => Normal ("application/json", body_undefined)
      | Throw e => Throw e
      end
  end.

(** [_send] from the point where [await stats.serialize()] resumes, lines
    121-164.  [r] is how the promise settled, [fault] what the socket
    primitive throws, if it does. *)
Definition _send (r : settled) (fault : option value) (w : world)
  : completion unit * world :=
  match r with
  | Rejected e =>
      (* if (!e) return; throw e *)
      if negb (truthy e) then (Normal tt, w) else (Throw e, w)
  | Resolved data =>
      match encode data with
      | Throw e => (Throw e, w)
      | Normal (mimeType, b) =>
          match _ws (this w) with
          | Some ws =>
              (* if (this._ws.closed) this._ws.open(this._url) *)
              let '(ws, w) := if closed ws
                              then (ws_open ws, emit (WsOpen (_url (this w))) w)
                              else (ws, w) in
              (* this._ws.queueing.length = 0; this._ws.send(body) *)
              let ws := ws_erase ws in
              let w := emit (WsSend b) w in
              match ws_send fault b ws with
              | Normal ws' => (Normal tt, set_ws ws' w)
              | Throw e => (Throw e, set_ws ws w)
              end
          | None =>
              (* if (this._fetch) this._fetch.abort() *)
              let w := match _fetch (this w) with
                       | Some c => abort c w
                       | None => w
                       end in
              (* this._fetch = new AbortController() *)
              let c := controllers w in
              let w := set_fetch c (set_controllers (S c) w) in
              (* fetch(...): the promise it returns is dropped *)
              let w := set_requests
                         (requests w ++ [{| signal := c; payload := b;
                                            content_type := mimeType;
                                            status := InFlight |}]) w in
              (Normal tt, emit (Fetch c (_url (this w)) mimeType b) w)
          end
      end
  end.

(** The rest of the timer callback once the promise of [stats.serialize()]
    has settled, lines 106-110: [_send] resumes inside the [try], whatever
    it throws is handed to [this.onError]. *)
Definition resume (sid : nat) (r : settled) (fault : option value) (w : world)
  : option world :=
  match sessions w !! sid, take sid (pending w) with
  | Some s, Some rest =>
      match _send r fault (set_pending rest w) with
      | (Normal _, w) => Some w
      | (Throw e, w) =>
          Some (emit (Error (constructor_name (stats s) ++ " error, "
                               ++ Util_stringify e)) w)
      end
  | _, _ => None
  end.

(** The closures installed in [stats.onError] and [stats.onLog], lines
    79-80: both forward to [this.onError]. *)
Definition stats_onError (o : nat) (msg : string) (w : world) : world :=
  match callbacks w !! o with
  | Some sid =>
      match sessions w !! sid with
      | Some s => emit (Error (constructor_name (stats s) ++ " error, " ++ msg)) w
      | None => w
      end
  | None => w
  end.

Definition stats_onLog (o : nat) (msg : string) (w : world) : world :=
  match callbacks w !! o with
  | Some sid =>
      match sessions w !! sid with
      | Some s => emit (Error (constructor_name (stats s) ++ ", " ++ msg)) w
      | None => w
      end
  | None => w
  end.

(** The source calls [stats.onRelease()]: the closure of the latest
    [report] of that object runs. *)
Definition stats_onRelease (o : nat) (w : world) : world :=
  match callbacks w !! o with
  | Some sid => release_closure sid w
  | None => w
  end.

(** ** The event loop *)

Inductive label : Type :=
| Report (st : IStats) (freq : Z)
| OnRelease (o : nat)
| OnError (o : nat) (msg : string)
| OnLog (o : nat) (msg : string)
| Tick (sid : nat)
| Settle (sid : nat) (r : settled) (fault : option value)
| SocketUp
| SocketDown
| Arrive (i : nat)
| Respond (i : nat)
| NetworkError (i : nat).

(** The body of the [i]-th request reaches the server.  When that happens
    is up to the network: the program only learns of it by a response, and
    [abort] stops the program's side of the request, it does not recall
    what has left. *)
Definition arrive (i : nat) (w : world) : option world :=
  match requests w !! i with
  | Some _ =>
      if bool_decide (i ∈ arrived w) then None
      else Some (set_arrived (arrived w ++ [i]) w)
  | None => None
  end.

(** The network answers the [i]-th request; nothing of the program runs,
    since nobody waits for the promise of [fetch]. *)
Definition answer (i : nat) (st : request_status) (w : world) : option world :=
  match requests w !! i with
  | Some r =>
      match status r with
      | InFlight => Some (set_requests (<[i := settle_request st r]> (requests w)) w)
      | _ => None
      end
  | None => None
  end.

Definition step (w : world) (l : label) : option world :=
  match l with
  | Report st freq => Some (report st freq w)
  | OnRelease o => Some (stats_onRelease o w)
  | OnError o msg => Some (stats_onError o msg w)
  | OnLog o msg => Some (stats_onLog o msg w)
  | Tick sid => tick sid w
  | Settle sid r fault => resume sid r fault w
  | SocketUp =>
      match _ws (this w) with
      | Some ws => Some (set_ws (ws_established ws) w)
      | None => None
      end
  | SocketDown =>
      match _ws (this w) with
      | Some ws => Some (set_ws (ws_lost ws) w)
      | None => None
      end
  | Arrive i => arrive i w
  | Respond i =>
      (* the server answers what it has received *)
      if bool_decide (i ∈ arrived w) then answer i Delivered w else None
  | NetworkError i => answer i Failed w
  end.

Fixpoint run (w : world) (ls : list label) : option world :=
  match ls with
  | [] => Some w
  | l :: ls' =>
      match step w l with
      | Some w' => run w' ls'
      | None => None
      end
  end.

(** The worlds the program can be in: some run from a freshly constructed
    [Telemetry]. *)
Inductive reachable : world -> Prop :=
| reachable_boot url t :
    constructor url = Normal t -> reachable (boot t)
| reachable_step w l w' :
    reachable w -> step w l = Some w' -> reachable w'.

End Telemetry.

(** ** What is observed of a run *)

(** The sessions that still hold their release closure. *)
Definition active (l : list session) : nat := length (List.filter release l).

(** The events appended to the trace between two worlds. *)
Definition emitted (w w' : world) : list event :=
  drop (length (trace w)) (trace w').

Definition is_close (e : event) : bool :=
  match e with WsClose | Abort _ => true | _ => false end.

Definition is_clear (sid : nat) (e : event) : bool :=
  match e with ClearInterval i => Nat.eqb i sid | _ => false end.

Definition is_serialize (sid : nat) (e : event) : bool :=
  match e with Serialize i => Nat.eqb i sid | _ => false end.

Definition is_transmission (e : event) : bool :=
  match e with WsSend _ | Fetch _ _ _ _ => true | _ => false end.

Definition is_error (e : event) : bool :=
  match e with Error _ => true | _ => false end.

Definition count (p : event -> bool) (t : list event) : nat :=
  length (List.filter p t).

(** The position of the first event that satisfies [p]. *)
Fixpoint first (p : event -> bool) (t : list event) : option nat :=
  match t with
  | [] => None
  | e :: t' => if p e then Some 0%nat else S <$> first p t'
  end.

(** Every event of kind [p] comes before every event of kind [q]. *)
Fixpoint all_before (p q : event -> bool) (t : list event) : bool :=
  match t with
  | [] => true
  | e :: t' => (negb (q e) || negb (existsb p t')) && all_before p q t'
  end.

Definition in_flight (r : request) : bool :=
  match status r with InFlight => true | _ => false end.

(** The channel holds no connection: the socket, if there is one, is
    closed and no request is under way. *)
Definition channel_closed (w : world) : bool :=
  match _ws (this w) with Some ws => closed ws | None => true end
  && forallb (fun r => negb (in_flight r)) (requests w).

(** There is something to close: a socket or a controller. *)
Definition has_handle (t : Telemetry) : bool :=
  match _ws t, _fetch t with None, None => false | _, _ => true end.

(** ** Notions used in the statements *)

(** A session after its release closure ran, and after its timeout
    fired. *)
Definition stopped (s : session) : session :=
  {| stats := stats s; frequency := frequency s;
     release := false; interval := false |}.

Definition disarmed (s : session) : session :=
  {| stats := stats s; frequency := frequency s;
     release := release s; interval := false |}.

(** The tick is suspended at [await stats.serialize()]. *)
Definition suspend (sid : nat) (w : world) : world :=
  set_pending (pending w ++ [sid]) (emit (Serialize sid) w).

(** What the release closure calls when the counter has reached zero. *)
Definition closing (t : Telemetry) : list event :=
  match _ws t with Some _ => [WsClose] | None => [] end
  ++ match _fetch t with Some c => [Abort c] | None => [] end.

(** The socket as [_send] prepares it: opened if it was closed, with an
    empty queue. *)
Definition ready (ws : WebSocketReliable) : WebSocketReliable :=
  ws_erase (if closed ws then ws_open ws else ws).

(** The request made by [fetch] with a fresh controller. *)
Definition post (c : nat) (mimeType : string) (b : body) : request :=
  {| signal := c; payload := b; content_type := mimeType; status := InFlight |}.

Definition weight (s : session) : nat := if release s then 1 else 0.

Definition armed (s : session) : nat := if interval s then 1 else 0.

(** The session still holds its release closure. *)
Definition live (w : world) (sid : nat) : Prop :=
  exists s, sessions w !! sid = Some s /\ release s = true.

(** Several release closures are called one after the other. *)
Definition releases (sids : list nat) (w : world) : world :=
  fold_left (fun w sid => release_closure sid w) sids w.

(** [w'] comes after [w]: its trace continues the trace of [w]. *)
Definition extends (w w' : world) : Prop :=
  trace w' = trace w ++ emitted w w'.

(** What holds of every world the program can be in: the counter counts
    the sessions that hold their closure, a socket excludes a controller,
    and a request under way was made with the controller held in
    [_fetch]. *)
Record consistent (w : world) : Prop := {
  counter_counts : reporting w = Z.of_nat (active (sessions w));
  one_channel : is_Some (_ws (this w)) -> _fetch (this w) = None;
  in_flight_current :
    forall r, r ∈ requests w -> status r = InFlight ->
              _fetch (this w) = Some (signal r)
}.

(** [s'] is a later state of the session [s]: the closure and the timer
    never come back. *)
Definition fades (s s' : session) : Prop :=
  stats s' = stats s /\ frequency s' = frequency s
  /\ (release s' = true -> release s = true)
  /\ (interval s' = true -> interval s = true).

(** The events the release closure can emit, and those of [_send] and of
    the [catch] around it. *)
Definition of_release (e : event) : bool :=
  match e with
  | ClearInterval _ | Log _ | WsClose | Abort _ => true
  | _ => false
  end.

Definition of_send (e : event) : bool :=
  match e with
  | WsOpen _ | WsSend _ | Abort _ | Fetch _ _ _ _ | Error _ => true
  | _ => false
  end.

(** A call of [serialize] by the session, or a transmission. *)
Definition is_attempt (sid : nat) (e : event) : bool :=
  is_serialize sid e || is_transmission e.

(** The [i]-th request was made with controller [c] and body [b], and as
    long as it is under way [c] is the controller held in [_fetch]. *)
Definition tracked (i c : nat) (b : body) (w : world) : Prop :=
  exists r, requests w !! i = Some r /\ signal r = c /\ payload r = b
            /\ (status r = InFlight -> _fetch (this w) = Some c).

(** The number of transmissions the continuation of a tick makes: one
    when the promise resolved with a payload that can be encoded, none
    when it was rejected or [JSON.stringify] threw. *)
Definition transmits {P : Platform} (r : settled) : nat :=
  match r with
  | Resolved data =>
      match encode data with Normal _ => 1%nat | Throw _ => 0%nat end
  | Rejected _ => 0%nat
  end.

(** The promise of [serialize] settles for a tick of session [sid]. *)
Definition settles (sid : nat) (l : label) : bool :=
  match l with Settle i _ _ => Nat.eqb i sid | _ => false end.

(** The number of ticks of session [sid] that are suspended at
    [await stats.serialize()]. *)
Definition suspended (sid : nat) (w : world) : nat :=
  length (List.filter (Nat.eqb sid) (pending w)).

(** What the continuations of the ticks of session [sid] transmit in the
    course of a run. *)
Fixpoint sent_by {P : Platform} (sid : nat) (w : world) (ls : list label)
  : nat :=
  match ls with
  | [] => 0%nat
  | l :: ls' =>
      match step w l with
      | Some w' =>
          ((if settles sid l then count is_transmission (emitted w w')
            else 0) + sent_by sid w' ls')%nat
      | None => 0%nat
      end
  end.

(** Every suspended tick belongs to a session. *)
Definition known (w : world) : Prop :=
  forall i, i ∈ pending w -> is_Some (sessions w !! i).

(** The timer of a session is armed only while the session holds its
    closure, and a session that reports once gives up both together. *)
Definition paired (s : session) : Prop :=
  (interval s = true -> release s = true)
  /\ (frequency s = 0 -> release s = interval s).

(** The bodies the server has, in the order in which they arrived. *)
Definition received (w : world) : list body :=
  omap (fun i => payload <$> requests w !! i) (arrived w).

(** The [i]-th request carried [b] and was aborted. *)
Definition aborted (i : nat) (b : body) (w : world) : Prop :=
  exists r, requests w !! i = Some r /\ payload r = b /\ status r = Aborted.

(** ** Notions used in the further properties *)

(** The body is an [ArrayBuffer]. *)
Definition is_buffer (b : body) : bool :=
  match b with body_buffer _ => true | _ => false end.

(** The [AbortController] [c] is the one held in [_fetch]. *)
Definition holds (t : Telemetry) (c : nat) : bool :=
  match _fetch t with Some c' => Nat.eqb c c' | None => false end.

(** The object was constructed with a socket. *)
Definition has_socket (t : Telemetry) : bool :=
  match _ws t with Some _ => true | None => false end.

(** The events a callback can emit, given the object as the callback finds
    it: timers are set by [report] and cleared by the release closure, which
    runs for the release signal or inside a tick; [serialize] is called by
    the tick of its session; the socket and [fetch] are used by [_send]
    alone, with the URL of the object; a controller is aborted only while
    it is held. *)
Definition may_emit (t : Telemetry) (l : label) (e : event) : bool :=
  match e, l with
  | (SetInterval _ _ | SetTimeout _ _), Report _ _ => true
  | Log _, (Report _ _ | OnRelease _ | Tick _) => true
  | ClearInterval _, (OnRelease _ | Tick _) => true
  | Error _, (OnError _ _ | OnLog _ _ | Settle _ _ _) => true
  | Serialize i, Tick j => Nat.eqb i j
  | WsClose, (OnRelease _ | Tick _) => has_socket t
  | Abort c, (OnRelease _ | Tick _) => holds t c
  | Abort c, Settle _ _ _ => holds t c && negb (has_socket t)
  | WsOpen u, Settle _ _ _ => has_socket t && String.eqb u (_url t)
  | WsSend _, Settle _ _ _ => has_socket t
  | Fetch _ u _ _, Settle _ _ _ => negb (has_socket t) && String.eqb u (_url t)
  | _, _ => false
  end.

(** The promise of [serialize] settles. *)
Definition is_settle (l : label) : bool :=
  match l with Settle _ _ _ => true | _ => false end.

(** An event that reaches the network. *)
Definition is_outbound (e : event) : bool :=
  match e with WsOpen _ | WsSend _ | Fetch _ _ _ _ => true | _ => false end.

(** The event goes to the URL [u], if it names one. *)
Definition to_url (u : string) (e : event) : bool :=
  match e with
  | WsOpen x | Fetch _ x _ _ => String.eqb x u
  | _ => true
  end.

(** The event belongs to the channel of kind [k]. *)
Definition of_kind (k : channel_kind) (e : event) : bool :=
  match k, e with
  | socket, (Abort _ | Fetch _ _ _ _) => false
  | http, (WsOpen _ | WsSend _ | WsClose) => false
  | _, _ => true
  end.

(** Controllers are numbered in the order of their allocation: the [i]-th
    request carries controller [i], and the controller held in [_fetch] is
    the last one allocated. *)
Record numbered (w : world) : Prop := {
  controllers_count : controllers w = length (requests w);
  signal_is_index : forall i r, requests w !! i = Some r -> signal r = i;
  held_is_last : forall c, _fetch (this w) = Some c -> S c = controllers w
}.

(** ** Sample data *)

Module Sample.

Definition stringify (v : value) : string :=
  match v with
  | error m => m
  | text s => s
  | _ => "{}"
  end.

Definition wss : URL := {| protocol := "wss:"; href := "wss://host/metrics" |}.
Definition https : URL := {| protocol := "https:"; href := "https://host/metrics" |}.
Definition ftp : URL := {| protocol := "ftp:"; href := "ftp://host/metrics" |}.

Definition over_socket : Telemetry :=
  {| _ws := Some WebSocketReliable_new; _fetch := None;
     _url := "wss://host/metrics"; _reporting := 0 |}.

Definition over_http : Telemetry :=
  {| _ws := None; _fetch := None;
     _url := "https://host/metrics"; _reporting := 0 |}.

Definition streamer : IStats := {| obj := 1; constructor_name := "StreamerStats" |}.
Definition player : IStats := {| obj := 2; constructor_name := "PlayerStats" |}.

(** [JSON.stringify] on the sample values: the object with reference [0]
    is circular, the other objects are empty; strings and buffers are
    never handed to it. *)
Definition json (v : value) : completion (option string) :=
  match v with
  | undefined => Normal None
  | null => Normal (Some "null")
  | boolean true => Normal (Some "true")
  | boolean false => Normal (Some "false")
  | number z => Normal (Some (NilZero.string_of_int (Z.to_int z)))
  | object 0 => Throw (error "Converting circular structure to JSON")
  | _ => Normal (Some "{}")
  end.

Definition platform : Platform :=
  {| Util_stringify := stringify; JSON_stringify := json;
     Number_exponential := fun _ => "1e+21" |}.

Definition go (t : Telemetry) (ls : list label) : option world :=
  run (P := platform) (boot t) ls.

(** The world after a run, when the run is possible. *)
Definition after (t : Telemetry) (ls : list label) : world :=
  match go t ls with Some w => w | None => boot t end.

End Sample.

(** * Properties *)

#[local] Arguments active : simpl never.
#[local] Arguments emitted : simpl never.

(** Splits a world into its fields, so that the methods compute. *)
Ltac compute_world :=
  cbv beta iota zeta delta
    [abort set_ws set_fetch set_reporting set_controllers set_requests
     set_pending set_callbacks set_sessions set_this set_arrived emit
     reporting this sessions callbacks pending requests controllers arrived
     trace _ws _fetch _url _reporting] in *.

Ltac open_world w :=
  destruct w as [[ws cur url n] ss cb pd rq ct ar tr]; compute_world.

(** For goals where the world is already explicit. *)
Ltac unfold_world :=
  unfold abort, set_ws, set_fetch, set_reporting, set_controllers,
    set_requests, set_pending, set_callbacks, set_sessions, set_this,
    set_arrived, emit, reporting in *;
  cbn [this sessions callbacks pending requests controllers arrived trace
       _ws _fetch _url _reporting] in *.

Section Properties.

Context {P : Platform}.

(** ** The constructor *)

Lemma prefix_http_not_ws (p : string) :
  String.prefix "http" p = true -> String.prefix "ws" p = false.
Proof.
  destruct p as [|a p]; cbn [String.prefix]; [discriminate|].
  destruct (Ascii.ascii_dec "h" a) as [<-|]; [|discriminate].
  intros _. destruct (Ascii.ascii_dec "w" "h"); [discriminate|reflexivity].
Qed.

(** C5.  The constructor chooses the channel by the prefix of the scheme:
    a protocol that starts with [ws] gives a [Telemetry] with a fresh
    socket, a protocol that starts with [http] gives one without socket,
    which sends by HTTP, and for any other protocol the constructor throws
    and no object is made. *)
Theorem constructor_by_scheme (url : URL) :
  (String.prefix "ws" (protocol url) = true ->
   exists t, constructor url = Normal t /\ kind t = socket
             /\ _ws t = Some WebSocketReliable_new) /\
  (String.prefix "http" (protocol url) = true ->
   exists t, constructor url = Normal t /\ kind t = http /\ _ws t = None) /\
  (String.prefix "ws" (protocol url) = false ->
   String.prefix "http" (protocol url) = false ->
   constructor url
   = Throw (error ("Protocol " ++ protocol url ++ " not supported"))).
Proof.
  unfold constructor. repeat split.
  - intros ->. eexists. repeat split.
  - intros H. rewrite (prefix_http_not_ws _ H), H. eexists. repeat split.
  - intros -> ->. reflexivity.
Qed.

(** ** Traces only grow *)

Lemma emitted_app (w w' : world) (t : list event) :
  trace w' = trace w ++ t -> emitted w w' = t.
Proof. intros H. unfold emitted. rewrite H. apply drop_app_length. Qed.

Lemma emitted_refl (w : world) : emitted w w = [].
Proof. apply emitted_app. symmetry. apply app_nil_r. Qed.

Lemma emitted_trans (w1 w2 w3 : world) :
  trace w2 = trace w1 ++ emitted w1 w2 ->
  trace w3 = trace w2 ++ emitted w2 w3 ->
  trace w3 = trace w1 ++ emitted w1 w3
  /\ emitted w1 w3 = emitted w1 w2 ++ emitted w2 w3.
Proof.
  intros H12 H23.
  assert (H : trace w3 = trace w1 ++ (emitted w1 w2 ++ emitted w2 w3)).
  { rewrite H23 at 1. rewrite H12 at 1. symmetry. apply app_assoc. }
  rewrite (emitted_app _ _ _ H). auto.
Qed.

Lemma count_app (p : event -> bool) (t1 t2 : list event) :
  count p (t1 ++ t2) = (count p t1 + count p t2)%nat.
Proof. unfold count. rewrite List.filter_app. apply length_app. Qed.

(** ** The release closure *)

Lemma release_closure_consumed (sid : nat) (w : world) :
  (forall s, sessions w !! sid = Some s -> release s = false) ->
  release_closure sid w = w.
Proof.
  intros H. unfold release_closure.
  destruct (sessions w !! sid) as [s|]; [|reflexivity].
  rewrite (H s eq_refl). reflexivity.
Qed.

Lemma release_closure_live (sid : nat) (w : world) (s : session) :
  sessions w !! sid = Some s -> release s = true ->
  release_closure sid w =
  {| this :=
       {| _ws := if 1 <? reporting w then _ws (this w)
                 else ws_close <$> _ws (this w);
          _fetch := _fetch (this w);
          _url := _url (this w);
          _reporting := reporting w - 1 |};
     sessions := <[sid := stopped s]> (sessions w);
     callbacks := callbacks w;
     pending := pending w;
     requests :=
       if 1 <? reporting w then requests w
       else match _fetch (this w) with
            | Some c => map (abort_request c) (requests w)
            | None => requests w
            end;
     controllers := controllers w;
     arrived := arrived w;
     trace :=
       trace w ++ ClearInterval sid
         :: Log ("Stop " ++ constructor_name (stats s) ++ " reporting")
         :: (if 1 <? reporting w then [] else closing (this w)) |}.
Proof.
  intros Hs Hr. unfold release_closure, closing, stopped. rewrite Hs, Hr.
  cbn [negb]. open_world w.
  replace (0 <? n - 1) with (1 <? n)
    by (destruct (Z.ltb_spec 1 n), (Z.ltb_spec 0 (n - 1));
        auto; lia).
  destruct (1 <? n), ws, cur; cbn; rewrite <- ?app_assoc; reflexivity.
Qed.

(** ** Counting the active sessions *)

Lemma active_cons (s : session) (l : list session) :
  active (s :: l) = (weight s + active l)%nat.
Proof. unfold active, weight. cbn. destruct (release s); reflexivity. Qed.

Lemma active_app (l : list session) (s : session) :
  active (l ++ [s]) = (active l + weight s)%nat.
Proof.
  induction l as [|x l IH].
  - rewrite app_nil_l, active_cons. unfold active. cbn. lia.
  - rewrite <- app_comm_cons, !active_cons, IH. lia.
Qed.

Lemma active_insert (l : list session) (i : nat) (s s' : session) :
  l !! i = Some s ->
  (active (<[i := s']> l) + weight s = active l + weight s')%nat.
Proof.
  revert i. induction l as [|x l IH]; intros i H; [discriminate|].
  destruct i as [|i].
  - cbn in H |- *. injection H as ->. rewrite !active_cons. lia.
  - change (<[S i := s']> (x :: l)) with (x :: <[i := s']> l).
    change (l !! i = Some s) in H.
    rewrite !active_cons. specialize (IH i H). lia.
Qed.

Lemma active_none (l : list session) (i : nat) (s : session) :
  active l = 0%nat -> l !! i = Some s -> release s = false.
Proof.
  intros H0 H. pose proof (active_insert l i s s H) as E.
  rewrite list_insert_id in E by exact H.
  destruct (release s) eqn:R; [|reflexivity].
  apply (active_insert l i s (stopped s)) in H.
  unfold weight in H. rewrite R in H. cbn in H. lia.
Qed.

(** ** Consistent worlds *)

Lemma consistent_boot (url : URL) (t : Telemetry) :
  constructor url = Normal t -> consistent (boot t).
Proof.
  unfold constructor. intros H.
  assert (_fetch t = None /\ _reporting t = 0) as [Hf Hr].
  { destruct (String.prefix "ws" (protocol url));
      [|destruct (String.prefix "http" (protocol url))];
      inversion H; subst; auto. }
  split; cbn; auto.
  intros r Hr'. inversion Hr'.
Qed.

Lemma abort_request_status (c : nat) (r : request) :
  status (abort_request c r) = InFlight ->
  status r = InFlight /\ signal r <> c /\ abort_request c r = r.
Proof.
  unfold abort_request. destruct (status r) eqn:E; try discriminate.
  - destruct (Nat.eqb_spec (signal r) c); cbn; [discriminate|auto].
  - rewrite E. discriminate.
  - rewrite E. discriminate.
  - rewrite E. discriminate.
Qed.

Lemma abort_request_signal (c : nat) (r : request) :
  signal (abort_request c r) = signal r.
Proof.
  unfold abort_request. destruct (status r); try reflexivity.
  destruct (Nat.eqb (signal r) c); reflexivity.
Qed.

Lemma consistent_release (sid : nat) (w : world) :
  consistent w -> consistent (release_closure sid w).
Proof.
  intros [Hc Ho Hi].
  destruct (sessions w !! sid) as [s|] eqn:Hs.
  2: { rewrite release_closure_consumed; [split; auto|]. intros s. congruence. }
  destruct (release s) eqn:Hr.
  2: { rewrite release_closure_consumed; [split; auto|]. intros s'. congruence. }
  rewrite (release_closure_live _ _ _ Hs Hr). split; unfold_world.
  - pose proof (active_insert _ _ _ (stopped s) Hs) as E.
    unfold weight in E. rewrite Hr in E. cbn in E. lia.
  - intros Hsome. apply Ho.
    destruct (1 <? _reporting (this w)); [exact Hsome|].
    destruct (_ws (this w)); [eauto|]. destruct Hsome as [? Hx]. discriminate.
  - intros r Hin Hst.
    destruct (1 <? _reporting (this w)); [auto|].
    destruct (_fetch (this w)) as [c|]; [|auto].
    apply list_elem_of_fmap in Hin as (r0 & -> & Hin).
    apply abort_request_status in Hst as (Hst & Hne & ->).
    specialize (Hi r0 Hin Hst). congruence.
Qed.

(** ** The timer callback *)

Lemma tick_unarmed (sid : nat) (w : world) :
  (forall s, sessions w !! sid = Some s -> interval s = false) ->
  tick sid w = None.
Proof.
  intros H. unfold tick. destruct (sessions w !! sid) as [s|]; [|reflexivity].
  rewrite (H s eq_refl). reflexivity.
Qed.

Lemma tick_periodic (sid : nat) (w : world) (s : session) :
  sessions w !! sid = Some s -> interval s = true -> frequency s <> 0 ->
  tick sid w = Some (suspend sid w).
Proof.
  intros Hs Hi Hf. unfold tick. rewrite Hs, Hi.
  destruct (Z.eqb_spec (frequency s) 0); [contradiction|]. reflexivity.
Qed.

Lemma tick_once (sid : nat) (w : world) (s : session) :
  sessions w !! sid = Some s -> interval s = true -> frequency s = 0 ->
  tick sid w
  = Some (suspend sid
            (let w := set_sessions (<[sid := disarmed s]> (sessions w)) w in
             if release s then release_closure sid w else w)).
Proof.
  intros Hs Hi Hf. unfold tick. rewrite Hs, Hi.
  destruct (Z.eqb_spec (frequency s) 0); [|contradiction].
  unfold disarmed. destruct (release s); reflexivity.
Qed.

Lemma tick_inv (sid : nat) (w w' : world) :
  tick sid w = Some w' ->
  exists s, sessions w !! sid = Some s /\ interval s = true.
Proof.
  unfold tick. destruct (sessions w !! sid) as [s|]; [|discriminate].
  destruct (interval s) eqn:Hi; [|discriminate].
  intros _. exists s. split; [reflexivity|exact Hi].
Qed.

(** ** Sending *)

Lemma _send_rejected (e : value)
    (fault : option value) (w : world) :
  _send (Rejected e) fault w
  = (if truthy e then Throw e else Normal tt, w).
Proof. unfold _send. destruct (truthy e); reflexivity. Qed.

Lemma _send_unencodable (data e : value) (fault : option value) (w : world) :
  encode data = Throw e ->
  _send (Resolved data) fault w = (Throw e, w).
Proof. intros E. unfold _send. rewrite E. reflexivity. Qed.

Lemma _send_socket (data : value) (fault : option value) (w : world)
    (ws : WebSocketReliable) (m : string) (b : body) :
  _ws (this w) = Some ws -> encode data = Normal (m, b) ->
  _send (Resolved data) fault w
  = let w1 := emit (WsSend b)
                (if closed ws then emit (WsOpen (_url (this w))) w else w) in
    match ws_send fault b (ready ws) with
    | Normal ws' => (Normal tt, set_ws ws' w1)
    | Throw e => (Throw e, set_ws (ready ws) w1)
    end.
Proof.
  intros H E. unfold _send, ready. rewrite E, H.
  destruct (closed ws); reflexivity.
Qed.

Lemma _send_http (data : value) (fault : option value) (w : world)
    (m : string) (b : body) :
  _ws (this w) = None -> encode data = Normal (m, b) ->
  _send (Resolved data) fault w
  = (Normal tt,
     {| this := {| _ws := None; _fetch := Some (controllers w);
                   _url := _url (this w); _reporting := reporting w |};
        sessions := sessions w;
        callbacks := callbacks w;
        pending := pending w;
        requests :=
          match _fetch (this w) with
          | Some c => map (abort_request c) (requests w)
          | None => requests w
          end ++ [post (controllers w) m b];
        controllers := S (controllers w);
        arrived := arrived w;
        trace :=
          trace w ++ match _fetch (this w) with
                     | Some c => [Abort c]
                     | None => []
                     end ++ [Fetch (controllers w) (_url (this w)) m b] |}).
Proof.
  intros H E. unfold _send. rewrite E, H.
  open_world w. cbn in H. subst ws.
  destruct cur; cbn; rewrite <- ?app_assoc; reflexivity.
Qed.

(** ** Every callback continues the trace *)

Lemma extends_intro (w w' : world) (t : list event) :
  trace w' = trace w ++ t -> extends w w'.
Proof. intros H. unfold extends. rewrite (emitted_app _ _ _ H). exact H. Qed.

Lemma extends_same (w w' : world) : trace w' = trace w -> extends w w'.
Proof. intros H. apply (extends_intro _ _ []). rewrite H. symmetry. apply app_nil_r. Qed.

Lemma extends_refl (w : world) : extends w w.
Proof. apply extends_same. reflexivity. Qed.

Lemma extends_trans (w1 w2 w3 : world) :
  extends w1 w2 -> extends w2 w3 -> extends w1 w3.
Proof. intros H12 H23. apply (emitted_trans _ _ _ H12 H23). Qed.

Lemma emitted_split (w1 w2 w3 : world) :
  extends w1 w2 -> extends w2 w3 ->
  emitted w1 w3 = emitted w1 w2 ++ emitted w2 w3.
Proof. intros H12 H23. apply (emitted_trans _ _ _ H12 H23). Qed.

Lemma extends_emit (e : event) (w : world) : extends w (emit e w).
Proof. apply (extends_intro _ _ [e]). reflexivity. Qed.

Lemma extends_release (sid : nat) (w : world) :
  extends w (release_closure sid w).
Proof.
  destruct (sessions w !! sid) as [s|] eqn:Hs.
  2: { rewrite release_closure_consumed; [apply extends_refl|]. congruence. }
  destruct (release s) eqn:Hr.
  2: { rewrite release_closure_consumed; [apply extends_refl|]. congruence. }
  rewrite (release_closure_live _ _ _ Hs Hr). eapply extends_intro. reflexivity.
Qed.

Lemma extends_tick (sid : nat) (w w' : world) :
  tick sid w = Some w' -> extends w w'.
Proof.
  intros H. destruct (tick_inv _ _ _ H) as (s & Hs & Hi).
  destruct (Z.eq_dec (frequency s) 0) as [Hf|Hf].
  - rewrite (tick_once _ _ _ Hs Hi Hf) in H. injection H as <-.
    eapply extends_trans; [|apply (extends_emit (Serialize sid))].
    destruct (release s); [|apply extends_same; reflexivity].
    apply (extends_trans _ (set_sessions (<[sid := disarmed s]> (sessions w)) w));
      [apply extends_same; reflexivity|apply extends_release].
  - rewrite (tick_periodic _ _ _ Hs Hi Hf) in H. injection H as <-.
    apply (extends_emit (Serialize sid)).
Qed.

(** What [_send] leaves alone. *)
Lemma _send_frame (r : settled) (fault : option value) (w : world) :
  let w' := (_send r fault w).2 in
  sessions w' = sessions w /\ callbacks w' = callbacks w
  /\ pending w' = pending w /\ reporting w' = reporting w
  /\ _url (this w') = _url (this w)
  /\ extends w w'.
Proof.
  destruct r as [data|e].
  2: { rewrite _send_rejected. cbn. repeat split. apply extends_refl. }
  destruct (encode data) as [[m b]|e] eqn:En.
  2: { rewrite (_send_unencodable _ _ _ _ En). cbn. repeat split.
       apply extends_refl. }
  destruct (_ws (this w)) as [ws|] eqn:Hws.
  - rewrite (_send_socket _ _ _ _ _ _ Hws En). cbn zeta.
    assert (E : extends w (emit (WsSend b)
                            (if closed ws then emit (WsOpen (_url (this w))) w else w))).
    { eapply extends_trans; [|apply extends_emit].
      destruct (closed ws); [apply extends_emit|apply extends_refl]. }
    destruct (ws_send fault _ (ready ws)); cbn;
      destruct (closed ws); repeat split; exact E.
  - rewrite (_send_http _ _ _ _ _ Hws En). cbn. repeat split.
    eapply extends_intro. reflexivity.
Qed.

Lemma resume_inv (sid : nat) (r : settled) (fault : option value)
    (w w' : world) :
  resume sid r fault w = Some w' ->
  exists s rest,
    sessions w !! sid = Some s /\ take sid (pending w) = Some rest
    /\ w' = match _send r fault (set_pending rest w) with
            | (Normal _, w1) => w1
            | (Throw e, w1) =>
                emit (Error (constructor_name (stats s) ++ " error, "
                               ++ Util_stringify e)) w1
            end.
Proof.
  unfold resume.
  destruct (sessions w !! sid) as [s|]; [|discriminate].
  destruct (take sid (pending w)) as [rest|]; [|discriminate].
  intros H. exists s, rest. repeat split.
  destruct (_send r fault (set_pending rest w)) as [[[]|e] w1];
    injection H as <-; reflexivity.
Qed.

Lemma extends_resume (sid : nat) (r : settled) (fault : option value)
    (w w' : world) :
  resume sid r fault w = Some w' -> extends w w'.
Proof.
  intros H. apply resume_inv in H as (s & rest & _ & _ & ->).
  pose proof (_send_frame r fault (set_pending rest w)) as F. cbn zeta in F.
  destruct F as (_ & _ & _ & _ & _ & F).
  destruct (_send r fault (set_pending rest w)) as [[[]|e] w1]; cbn in F.
  - exact F.
  - eapply extends_trans; [exact F|apply extends_emit].
Qed.

Lemma answer_inv (i : nat) (st : request_status) (w w' : world) :
  answer i st w = Some w' ->
  exists r, requests w !! i = Some r /\ status r = InFlight
            /\ w' = set_requests (<[i := settle_request st r]> (requests w)) w.
Proof.
  unfold answer. destruct (requests w !! i) as [r|]; [|discriminate].
  destruct (status r) eqn:E; try discriminate.
  intros H. injection H as <-. eauto.
Qed.

Lemma arrive_inv (i : nat) (w w' : world) :
  arrive i w = Some w' ->
  is_Some (requests w !! i) /\ (i ∉ arrived w)
  /\ w' = set_arrived (arrived w ++ [i]) w.
Proof.
  unfold arrive. destruct (requests w !! i) as [r|]; [|discriminate].
  destruct (bool_decide_reflect (i ∈ arrived w)); [discriminate|].
  intros H. injection H as <-. eauto.
Qed.

Lemma respond_inv (i : nat) (w w' : world) :
  step w (Respond i) = Some w' ->
  i ∈ arrived w /\ answer i Delivered w = Some w'.
Proof.
  cbn. destruct (bool_decide_reflect (i ∈ arrived w)); [auto|discriminate].
Qed.

Lemma extends_step (w w' : world) (l : label) :
  step w l = Some w' -> extends w w'.
Proof.
  destruct l; cbn.
  - intros H. injection H as <-. unfold report.
    eapply extends_intro. cbn. rewrite <- app_assoc. reflexivity.
  - intros H. injection H as <-. unfold stats_onRelease.
    destruct (callbacks w !! o); [apply extends_release|apply extends_refl].
  - intros H. injection H as <-. unfold stats_onError.
    destruct (callbacks w !! o) as [sid|]; [|apply extends_refl].
    destruct (sessions w !! sid); [apply extends_emit|apply extends_refl].
  - intros H. injection H as <-. unfold stats_onLog.
    destruct (callbacks w !! o) as [sid|]; [|apply extends_refl].
    destruct (sessions w !! sid); [apply extends_emit|apply extends_refl].
  - apply extends_tick.
  - apply extends_resume.
  - destruct (_ws (this w)); [|discriminate].
    intros H. injection H as <-. apply extends_same. reflexivity.
  - destruct (_ws (this w)); [|discriminate].
    intros H. injection H as <-. apply extends_same. reflexivity.
  - intros H. apply arrive_inv in H as (_ & _ & ->).
    apply extends_same. reflexivity.
  - intros H. apply respond_inv in H as [_ H].
    apply answer_inv in H as (r & _ & _ & ->).
    apply extends_same. reflexivity.
  - intros H. apply answer_inv in H as (r & _ & _ & ->).
    apply extends_same. reflexivity.
Qed.

Lemma extends_run (ls : list label) (w w' : world) :
  run w ls = Some w' -> extends w w'.
Proof.
  revert w. induction ls as [|l ls IH]; intros w; cbn.
  - intros H. injection H as <-. apply extends_refl.
  - destruct (step w l) as [w1|] eqn:E; [|discriminate].
    intros H. eapply extends_trans; [apply (extends_step _ _ _ E)|apply IH, H].
Qed.

(** ** The invariant is kept by every callback *)

Lemma consistent_frame (w w' : world) :
  this w' = this w -> active (sessions w') = active (sessions w) ->
  requests w' = requests w -> consistent w -> consistent w'.
Proof.
  intros Ht Ha Hq [Hc Ho Hi]. split; unfold reporting in *.
  - rewrite Ht, Ha. exact Hc.
  - rewrite Ht. exact Ho.
  - rewrite Ht, Hq. exact Hi.
Qed.

Lemma consistent_report (st : IStats) (freq : Z) (w : world) :
  consistent w -> consistent (report st freq w).
Proof.
  intros [Hc Ho Hi]. unfold report. split; unfold_world.
  - rewrite active_app. unfold weight. cbn. lia.
  - exact Ho.
  - exact Hi.
Qed.

Lemma consistent_suspend (sid : nat) (w : world) :
  consistent w -> consistent (suspend sid w).
Proof. apply consistent_frame; reflexivity. Qed.

Lemma consistent_tick (sid : nat) (w w' : world) :
  tick sid w = Some w' -> consistent w -> consistent w'.
Proof.
  intros H Hw. destruct (tick_inv _ _ _ H) as (s & Hs & Hi).
  destruct (Z.eq_dec (frequency s) 0) as [Hf|Hf].
  - rewrite (tick_once _ _ _ Hs Hi Hf) in H. injection H as <-.
    assert (Hd : consistent (set_sessions (<[sid := disarmed s]> (sessions w)) w)).
    { apply (consistent_frame w); try reflexivity; [|exact Hw]. cbn.
      pose proof (active_insert _ _ _ (disarmed s) Hs) as E.
      unfold weight in E. cbn in E. lia. }
    cbn zeta. apply consistent_suspend.
    destruct (release s); [apply consistent_release|]; exact Hd.
  - rewrite (tick_periodic _ _ _ Hs Hi Hf) in H. injection H as <-.
    apply consistent_suspend, Hw.
Qed.

Lemma consistent_send (r : settled) (fault : option value) (w : world) :
  consistent w -> consistent (_send r fault w).2.
Proof.
  intros Hw. destruct r as [data|e].
  2: { rewrite _send_rejected. exact Hw. }
  destruct (encode data) as [[m b]|e] eqn:En.
  2: { rewrite (_send_unencodable _ _ _ _ En). exact Hw. }
  destruct (_ws (this w)) as [ws|] eqn:Hws.
  - rewrite (_send_socket _ _ _ _ _ _ Hws En). cbn zeta.
    destruct Hw as [Hc Ho Hi].
    assert (Hf : _fetch (this w) = None) by (apply Ho; rewrite Hws; eauto).
    unfold ready.
    destruct (closed ws); destruct (ws_send fault _ _); cbn;
      (split; unfold_world; [exact Hc|intros _; exact Hf|exact Hi]).
  - rewrite (_send_http _ _ _ _ _ Hws En). cbn.
    destruct Hw as [Hc Ho Hi]. split; unfold_world.
    + exact Hc.
    + intros [? Hx]. discriminate.
    + intros r Hr Hst. apply elem_of_app in Hr as [Hr|Hr].
      * exfalso. destruct (_fetch (this w)) as [c|].
        -- apply list_elem_of_fmap in Hr as (r0 & -> & Hr).
           apply abort_request_status in Hst as (Hst & Hne & _).
           specialize (Hi r0 Hr Hst). congruence.
        -- specialize (Hi r Hr Hst). discriminate.
      * apply list_elem_of_singleton in Hr as ->. reflexivity.
Qed.

Lemma consistent_resume (sid : nat) (r : settled) (fault : option value)
    (w w' : world) :
  resume sid r fault w = Some w' -> consistent w -> consistent w'.
Proof.
  intros H Hw. apply resume_inv in H as (s & rest & _ & _ & ->).
  assert (Hp : consistent (set_pending rest w))
    by (apply (consistent_frame w); auto).
  apply (consistent_send r fault) in Hp.
  destruct (_send r fault (set_pending rest w)) as [[[]|e] w1]; cbn in Hp.
  - exact Hp.
  - apply (consistent_frame w1); auto.
Qed.

Lemma settle_request_status (st : request_status) (r : request) :
  st <> InFlight -> status r = InFlight ->
  status (settle_request st r) = st.
Proof. intros _ H. unfold settle_request. rewrite H. reflexivity. Qed.

Lemma consistent_answer (i : nat) (st : request_status) (w w' : world) :
  st <> InFlight -> answer i st w = Some w' -> consistent w -> consistent w'.
Proof.
  intros Hne H [Hc Ho Hi]. apply answer_inv in H as (r & Hr & Hst & ->).
  split; unfold_world; auto.
  intros r' Hin Hst'.
  apply list_elem_of_lookup in Hin as [j Hj].
  apply list_lookup_insert_Some in Hj as [(-> & <- & _)|(_ & Hj)].
  - rewrite settle_request_status in Hst' by assumption. congruence.
  - apply Hi; [|assumption]. apply list_elem_of_lookup. eauto.
Qed.

Lemma consistent_socket (ws' : WebSocketReliable) (w : world) :
  is_Some (_ws (this w)) -> consistent w -> consistent (set_ws ws' w).
Proof.
  intros Hs [Hc Ho Hi]. split; unfold_world; auto.
Qed.

Lemma consistent_step (w w' : world) (l : label) :
  step w l = Some w' -> consistent w -> consistent w'.
Proof.
  destruct l; cbn.
  - intros H. injection H as <-. apply consistent_report.
  - intros H. injection H as <-. unfold stats_onRelease.
    destruct (callbacks w !! o); [apply consistent_release|auto].
  - intros H. injection H as <-. unfold stats_onError.
    destruct (callbacks w !! o) as [sid|]; [|auto].
    destruct (sessions w !! sid); [|auto].
    apply consistent_frame; reflexivity.
  - intros H. injection H as <-. unfold stats_onLog.
    destruct (callbacks w !! o) as [sid|]; [|auto].
    destruct (sessions w !! sid); [|auto].
    apply consistent_frame; reflexivity.
  - apply consistent_tick.
  - apply consistent_resume.
  - destruct (_ws (this w)) eqn:E; [|discriminate].
    intros H. injection H as <-. apply consistent_socket. rewrite E. eauto.
  - destruct (_ws (this w)) eqn:E; [|discriminate].
    intros H. injection H as <-. apply consistent_socket. rewrite E. eauto.
  - intros H. apply arrive_inv in H as (_ & _ & ->).
    apply consistent_frame; reflexivity.
  - intros H. apply respond_inv in H as [_ H]. revert H.
    apply consistent_answer. discriminate.
  - apply consistent_answer. discriminate.
Qed.

Lemma reachable_consistent (w : world) : reachable w -> consistent w.
Proof.
  induction 1 as [url t H|w l w' _ IH H].
  - apply (consistent_boot url), H.
  - apply (consistent_step _ _ _ H IH).
Qed.

Lemma consistent_run (ls : list label) (w w' : world) :
  run w ls = Some w' -> consistent w -> consistent w'.
Proof.
  revert w. induction ls as [|l ls IH]; intros w; cbn.
  - intros H. injection H as <-. auto.
  - destruct (step w l) as [w1|] eqn:E; [|discriminate].
    intros H Hw. apply (IH _ H). apply (consistent_step _ _ _ E Hw).
Qed.

Lemma reachable_run (ls : list label) (w w' : world) :
  run w ls = Some w' -> reachable w -> reachable w'.
Proof.
  revert w. induction ls as [|l ls IH]; intros w; cbn.
  - intros H. injection H as <-. auto.
  - destruct (step w l) as [w1|] eqn:E; [|discriminate].
    intros H Hw. apply (IH _ H). apply (reachable_step _ _ _ Hw E).
Qed.

(** ** The counter and the lifetime of the channel *)

Lemma count_closing (t : Telemetry) :
  (is_Some (_ws t) -> _fetch t = None) ->
  count is_close (closing t) = if has_handle t then 1%nat else 0%nat.
Proof.
  unfold closing, has_handle. intros H.
  destruct (_ws t) as [ws|].
  - rewrite H by eauto. reflexivity.
  - destruct (_fetch t); reflexivity.
Qed.

Lemma aborted_all (c : nat) (l : list request) :
  (forall r, r ∈ l -> status r = InFlight -> signal r = c) ->
  forallb (fun r => negb (in_flight r)) (map (abort_request c) l) = true.
Proof.
  intros H. apply forallb_forall. intros r' Hin.
  apply in_map_iff in Hin as (r & <- & Hin).
  apply list_elem_of_In in Hin.
  unfold in_flight.
  destruct (status (abort_request c r)) eqn:E; try reflexivity.
  apply abort_request_status in E as (E & Hne & _).
  elim Hne. apply H; assumption.
Qed.

Lemma none_in_flight (l : list request) :
  (forall r, r ∈ l -> status r <> InFlight) ->
  forallb (fun r => negb (in_flight r)) l = true.
Proof.
  intros H. apply forallb_forall. intros r Hin.
  apply list_elem_of_In in Hin. specialize (H r Hin).
  unfold in_flight. destruct (status r); [elim H|..]; reflexivity.
Qed.

(** One call of a closure that is still held. *)
Lemma release_once (sid : nat) (w : world) (s : session) :
  consistent w -> sessions w !! sid = Some s -> release s = true ->
  let w' := release_closure sid w in
  reporting w' = reporting w - 1 /\ 0 <= reporting w'
  /\ has_handle (this w') = has_handle (this w)
  /\ count (is_clear sid) (emitted w w') = 1%nat
  /\ (0 < reporting w' ->
      count is_close (emitted w w') = 0%nat
      /\ _ws (this w') = _ws (this w) /\ _fetch (this w') = _fetch (this w)
      /\ requests w' = requests w)
  /\ (reporting w' = 0 ->
      count is_close (emitted w w')
      = (if has_handle (this w) then 1%nat else 0%nat)
      /\ channel_closed w' = true).
Proof.
  intros Hw Hs Hr. pose proof (consistent_release sid w Hw) as Hw'.
  destruct Hw as [Hc Ho Hi]. destruct Hw' as [Hc' _ _].
  cbn zeta. revert Hc'. rewrite (release_closure_live _ _ _ Hs Hr).
  match goal with |- context [emitted w ?x] =>
    assert (E : emitted w x
                = ClearInterval sid
                    :: Log ("Stop " ++ constructor_name (stats s) ++ " reporting")
                    :: (if 1 <? reporting w then [] else closing (this w)))
      by (apply emitted_app; reflexivity);
    rewrite E; clear E end.
  unfold reporting, channel_closed.
  cbn [this _reporting _ws _fetch requests]. intros Hc'.
  assert (Hk : forall t, count (is_clear sid)
                 (ClearInterval sid :: Log ("Stop " ++ constructor_name (stats s) ++ " reporting") :: t)
               = S (count (is_clear sid) t)).
  { intros t. unfold count. cbn. rewrite Nat.eqb_refl. reflexivity. }
  destruct (Z.ltb_spec 1 (_reporting (this w))) as [Hlt|Hge].
  - split; [reflexivity|]. split; [lia|]. split; [reflexivity|].
    split; [apply Hk|]. split; [intros _; repeat split|intros; lia].
  - split; [reflexivity|]. split; [lia|].
    split; [unfold has_handle; cbn; destruct (_ws (this w)); reflexivity|].
    split.
    { rewrite Hk. unfold closing.
      destruct (_ws (this w)), (_fetch (this w)); reflexivity. }
    split; [intros; lia|]. intros _. split.
    + change (count is_close (closing (this w))
              = if has_handle (this w) then 1%nat else 0%nat).
      apply count_closing, Ho.
    + apply andb_true_intro. split.
      * destruct (_ws (this w)); reflexivity.
      * destruct (_fetch (this w)) as [c|] eqn:Hf.
        -- apply aborted_all. intros r Hin Hst.
           specialize (Hi r Hin Hst). congruence.
        -- apply none_in_flight. intros r Hin Hst.
           specialize (Hi r Hin Hst). congruence.
Qed.

Lemma release_closure_dead (sid : nat) (w : world) :
  ~ live w sid -> release_closure sid w = w.
Proof.
  intros H. apply release_closure_consumed. intros s Hs.
  destruct (release s) eqn:Hr; [|reflexivity]. elim H. exists s. auto.
Qed.

Lemma live_dec (w : world) (sid : nat) : live w sid \/ ~ live w sid.
Proof.
  unfold live. destruct (sessions w !! sid) as [s|] eqn:Hs.
  - destruct (release s) eqn:Hr; [left; eauto|].
    right. intros (s' & Hs' & Hr'). congruence.
  - right. intros (s' & Hs' & _). congruence.
Qed.

Lemma live_positive (w : world) (sid : nat) :
  consistent w -> live w sid -> 0 < reporting w.
Proof.
  intros [Hc _ _] (s & Hs & Hr). rewrite Hc.
  destruct (active (sessions w)) eqn:E; [|lia].
  rewrite (active_none _ _ _ E Hs) in Hr. discriminate.
Qed.

Lemma live_after_release (sid sid' : nat) (w : world) :
  sid' <> sid -> live w sid' -> live (release_closure sid w) sid'.
Proof.
  intros Hne Hl. destruct (live_dec w sid) as [(s & Hs & Hr)|Hd].
  - rewrite (release_closure_live _ _ _ Hs Hr). destruct Hl as (s' & Hs' & Hr').
    exists s'. cbn. rewrite list_lookup_insert_ne by auto. auto.
  - rewrite release_closure_dead by assumption. exact Hl.
Qed.

Lemma releases_idle (sids : list nat) (w : world) :
  consistent w -> reporting w = 0 -> releases sids w = w.
Proof.
  intros Hw H0. induction sids as [|sid sids IH]; [reflexivity|].
  unfold releases. cbn. rewrite release_closure_dead; [exact IH|].
  intros Hl. pose proof (live_positive _ _ Hw Hl). lia.
Qed.

Lemma extends_releases (sids : list nat) (w : world) :
  extends w (releases sids w).
Proof.
  revert w. induction sids as [|sid sids IH]; intros w.
  - apply extends_refl.
  - eapply extends_trans; [apply (extends_release sid)|apply IH].
Qed.

Lemma consistent_releases (sids : list nat) (w : world) :
  consistent w -> consistent (releases sids w).
Proof.
  revert w. induction sids as [|sid sids IH]; intros w Hw; [exact Hw|].
  apply IH, consistent_release, Hw.
Qed.

Lemma releases_gate (sids : list nat) (w : world) :
  consistent w ->
  let w' := releases sids w in
  reporting w' <= reporting w
  /\ (NoDup sids -> Forall (live w) sids ->
      reporting w' = reporting w - Z.of_nat (length sids))
  /\ has_handle (this w') = has_handle (this w)
  /\ (0 < reporting w' ->
      count is_close (emitted w w') = 0%nat
      /\ _ws (this w') = _ws (this w) /\ _fetch (this w') = _fetch (this w)
      /\ requests w' = requests w)
  /\ (0 < reporting w -> reporting w' = 0 ->
      count is_close (emitted w w')
      = (if has_handle (this w) then 1%nat else 0%nat)
      /\ channel_closed w' = true).
Proof.
  revert w. induction sids as [|sid sids IH]; intros w Hw; cbn zeta.
  - change (releases [] w) with w. rewrite emitted_refl.
    split; [lia|]. split; [intros; cbn; lia|]. split; [reflexivity|].
    split; [auto|]. intros; lia.
  - change (releases (sid :: sids) w) with (releases sids (release_closure sid w)).
    destruct (live_dec w sid) as [(s & Hs & Hr)|Hd].
    2: { rewrite (release_closure_dead _ _ Hd).
         destruct (IH w Hw) as (I1 & _ & I3 & I4 & I5).
         split; [exact I1|]. split; [|auto].
         intros _ HF. apply Forall_cons in HF as [HF _]. contradiction. }
    pose proof (release_once sid w s Hw Hs Hr) as R. cbn zeta in R.
    destruct R as (R1 & R2 & R3 & _ & R4 & R5).
    set (w1 := release_closure sid w) in *.
    assert (Hw1 : consistent w1) by apply (consistent_release _ _ Hw).
    destruct (IH w1 Hw1) as (I1 & I2 & I3 & I4 & I5).
    pose proof (emitted_split w w1 (releases sids w1)
                  (extends_release sid w) (extends_releases sids w1)) as E.
    split; [lia|]. split.
    { intros Hnd HF. apply NoDup_cons in Hnd as [Hni Hnd].
      apply Forall_cons in HF as [_ HF].
      rewrite I2; [cbn [length]; lia|exact Hnd|].
      apply Forall_forall. intros x Hx. apply live_after_release.
      - intros ->. contradiction.
      - eapply Forall_forall in HF; eauto. }
    split; [congruence|]. split.
    + intros Hpos. assert (Hpos1 : 0 < reporting w1) by lia.
      destruct (R4 Hpos1) as (C1 & C2 & C3 & C4).
      destruct (I4 Hpos) as (D1 & D2 & D3 & D4).
      rewrite E, count_app, C1, D1. repeat split; congruence.
    + intros _ Hz. destruct (Z.eq_dec (reporting w1) 0) as [H0|H0].
      * rewrite (releases_idle sids w1 Hw1 H0) in *.
        apply (R5 H0).
      * assert (Hpos1 : 0 < reporting w1) by lia.
        destruct (R4 Hpos1) as (C1 & _).
        destruct (I5 Hpos1 Hz) as (D1 & D2).
        rewrite E, count_app, C1, D1, R3. auto.
Qed.

Lemma emitted_release_live (sid : nat) (w : world) (s : session) :
  sessions w !! sid = Some s -> release s = true ->
  emitted w (release_closure sid w)
  = ClearInterval sid
      :: Log ("Stop " ++ constructor_name (stats s) ++ " reporting")
      :: (if 1 <? reporting w then [] else closing (this w)).
Proof.
  intros Hs Hr. apply emitted_app.
  rewrite (release_closure_live _ _ _ Hs Hr). reflexivity.
Qed.

(** C1. The counter of a reachable world is never negative: it is the
    number of sessions that still hold their release closure.  Whatever
    release closures are called, in whatever order and however often: as
    long as the counter stays above zero no socket is closed and no request
    is aborted, and when the counter reaches zero the channel is closed
    once (the socket when there is one, the controller of the last request
    when there is one) and is down afterwards.  When the closures of [k]
    different active sessions are called the counter drops by [k]. *)
Theorem reporting_gates_channel (w : world) :
  reachable w ->
  0 <= reporting w /\
  reporting w = Z.of_nat (active (sessions w)) /\
  forall sids : list nat,
    let w' := releases sids w in
    0 <= reporting w'
    /\ (NoDup sids -> Forall (live w) sids ->
        reporting w' = reporting w - Z.of_nat (length sids))
    /\ (0 < reporting w' ->
        count is_close (emitted w w') = 0%nat
        /\ _ws (this w') = _ws (this w) /\ requests w' = requests w)
    /\ (0 < reporting w -> reporting w' = 0 ->
        count is_close (emitted w w')
        = (if has_handle (this w) then 1%nat else 0%nat)
        /\ channel_closed w' = true).
Proof.
  intros Hr. pose proof (reachable_consistent _ Hr) as Hw.
  split; [rewrite (counter_counts _ Hw); lia|].
  split; [apply (counter_counts _ Hw)|].
  intros sids w'.
  pose proof (consistent_releases sids w Hw) as Hw'.
  destruct (releases_gate sids w Hw) as (_ & G2 & _ & G4 & G5).
  split; [unfold w'; rewrite (counter_counts _ Hw'); lia|].
  split; [exact G2|]. split; [|exact G5].
  intros Hpos. destruct (G4 Hpos) as (? & ? & ? & ?). auto.
Qed.

Lemma run_repeat_fixed (w : world) (l : label) (n : nat) :
  step w l = Some w -> run w (repeat l n) = Some w.
Proof.
  intros H. induction n as [|n IH]; [reflexivity|].
  cbn. rewrite H. exact IH.
Qed.

(** C2. When the closure installed in [stats.onRelease] is still held by
    its session, calling it once or more often has the effect of one call:
    the counter drops by one, the timer is cleared once, the channel is
    closed only if that one decrement reached zero, and every further call
    changes nothing. *)
Theorem release_signal_once (w : world) (o sid : nat) (s : session) (n : nat) :
  callbacks w !! o = Some sid ->
  sessions w !! sid = Some s -> release s = true ->
  let w1 := stats_onRelease o w in
  run w (repeat (OnRelease o) (S n)) = Some w1
  /\ stats_onRelease o w1 = w1
  /\ reporting w1 = reporting w - 1
  /\ emitted w w1
     = ClearInterval sid
         :: Log ("Stop " ++ constructor_name (stats s) ++ " reporting")
         :: (if 1 <? reporting w then [] else closing (this w))
  /\ count (is_clear sid) (emitted w w1) = 1%nat
  /\ sessions w1 !! sid = Some (stopped s).
Proof.
  intros Hcb Hs Hr w1.
  assert (E1 : w1 = release_closure sid w)
    by (unfold w1, stats_onRelease; rewrite Hcb; reflexivity).
  assert (Hs1 : sessions w1 !! sid = Some (stopped s)).
  { rewrite E1, (release_closure_live _ _ _ Hs Hr). cbn.
    apply list_lookup_insert_eq. eapply lookup_lt_Some, Hs. }
  assert (Hcb1 : callbacks w1 !! o = Some sid).
  { rewrite E1, (release_closure_live _ _ _ Hs Hr). exact Hcb. }
  assert (Hfix : stats_onRelease o w1 = w1).
  { unfold stats_onRelease at 1. rewrite Hcb1.
    apply release_closure_consumed. intros s'. rewrite Hs1.
    intros H. injection H as <-. reflexivity. }
  split.
  { change (repeat (OnRelease o) (S n)) with (OnRelease o :: repeat (OnRelease o) n).
    cbn [run step]. fold w1.
    apply run_repeat_fixed. cbn. rewrite Hfix. reflexivity. }
  split; [exact Hfix|]. split.
  { rewrite E1, (release_closure_live _ _ _ Hs Hr). reflexivity. }
  assert (Hem := emitted_release_live _ _ _ Hs Hr). rewrite <- E1 in Hem.
  split; [exact Hem|]. split; [|exact Hs1].
  rewrite Hem. unfold count. cbn. rewrite Nat.eqb_refl. cbn.
  destruct (1 <? reporting w); [reflexivity|].
  unfold closing. destruct (_ws (this w)), (_fetch (this w)); reflexivity.
Qed.

(** ** Which events a callback can emit *)

Lemma count_none (p q : event -> bool) (t : list event) :
  (forall e, q e = true -> p e = false) ->
  forallb q t = true -> count p t = 0%nat.
Proof.
  intros H. induction t as [|e t IH]; [reflexivity|].
  cbn. intros Hq. apply andb_prop in Hq as [He Ht].
  unfold count in *. cbn. rewrite (H e He). apply IH, Ht.
Qed.

Lemma release_emits (sid : nat) (w : world) :
  forallb of_release (emitted w (release_closure sid w)) = true.
Proof.
  destruct (live_dec w sid) as [(s & Hs & Hr)|Hd].
  - rewrite (emitted_release_live _ _ _ Hs Hr). cbn.
    destruct (1 <? reporting w); [reflexivity|].
    unfold closing. destruct (_ws (this w)), (_fetch (this w)); reflexivity.
  - rewrite (release_closure_dead _ _ Hd), emitted_refl. reflexivity.
Qed.

(** The events of [_send], by channel. *)
Lemma emitted_send_rejected (e : value) (fault : option value) (w : world) :
  emitted w (_send (Rejected e) fault w).2 = [].
Proof. rewrite _send_rejected. apply emitted_refl. Qed.

Lemma emitted_send_unencodable (data e : value) (fault : option value)
    (w : world) :
  encode data = Throw e ->
  emitted w (_send (Resolved data) fault w).2 = [].
Proof. intros E. rewrite (_send_unencodable _ _ _ _ E). apply emitted_refl. Qed.

Lemma emitted_send_socket (data : value) (fault : option value) (w : world)
    (ws : WebSocketReliable) (m : string) (b : body) :
  _ws (this w) = Some ws -> encode data = Normal (m, b) ->
  emitted w (_send (Resolved data) fault w).2
  = (if closed ws then [WsOpen (_url (this w))] else []) ++ [WsSend b].
Proof.
  intros H E. apply emitted_app. rewrite (_send_socket _ _ _ _ _ _ H E).
  cbn zeta.
  destruct (ws_send fault _ (ready ws)); cbn; destruct (closed ws); cbn;
    rewrite <- ?app_assoc; reflexivity.
Qed.

Lemma emitted_send_http (data : value) (fault : option value) (w : world)
    (m : string) (b : body) :
  _ws (this w) = None -> encode data = Normal (m, b) ->
  emitted w (_send (Resolved data) fault w).2
  = match _fetch (this w) with Some c => [Abort c] | None => [] end
      ++ [Fetch (controllers w) (_url (this w)) m b].
Proof.
  intros H E. apply emitted_app. rewrite (_send_http _ _ _ _ _ H E).
  reflexivity.
Qed.

Lemma send_emits (r : settled) (fault : option value) (w : world) :
  forallb of_send (emitted w (_send r fault w).2) = true.
Proof.
  destruct r as [data|e]; [|rewrite emitted_send_rejected; reflexivity].
  destruct (encode data) as [[m b]|e] eqn:En;
    [|rewrite (emitted_send_unencodable _ _ _ _ En); reflexivity].
  destruct (_ws (this w)) as [ws|] eqn:Hws.
  - rewrite (emitted_send_socket _ _ _ _ _ _ Hws En).
    destruct (closed ws); reflexivity.
  - rewrite (emitted_send_http _ _ _ _ _ Hws En).
    destruct (_fetch (this w)); reflexivity.
Qed.

(** The events of the second half of a tick: those of [_send], then the
    error line if [_send] threw. *)
Lemma emitted_resume (sid : nat) (r : settled) (fault : option value)
    (w w' : world) :
  resume sid r fault w = Some w' ->
  exists s rest,
    sessions w !! sid = Some s /\ take sid (pending w) = Some rest
    /\ emitted w w'
       = emitted (set_pending rest w) (_send r fault (set_pending rest w)).2
           ++ match (_send r fault (set_pending rest w)).1 with
              | Normal _ => []
              | Throw e => [Error (constructor_name (stats s) ++ " error, "
                                     ++ Util_stringify e)]
              end.
Proof.
  intros H. apply resume_inv in H as (s & rest & Hs & Hp & ->).
  exists s, rest. repeat split; try assumption.
  pose proof (_send_frame r fault (set_pending rest w)) as F.
  cbn zeta in F. destruct F as (_ & _ & _ & _ & _ & F).
  unfold extends in F. change (trace (set_pending rest w)) with (trace w) in F.
  destruct (_send r fault (set_pending rest w)) as [[[]|e] w1];
    cbn [fst snd] in F |- *.
  - rewrite app_nil_r. reflexivity.
  - apply emitted_app. unfold emit. cbn [trace]. rewrite F at 1.
    rewrite <- app_assoc. reflexivity.
Qed.

Lemma resume_emits (sid : nat) (r : settled) (fault : option value)
    (w w' : world) :
  resume sid r fault w = Some w' -> forallb of_send (emitted w w') = true.
Proof.
  intros H. apply emitted_resume in H as (s & rest & _ & _ & ->).
  rewrite forallb_app, send_emits.
  destruct (_send r fault (set_pending rest w)).1; reflexivity.
Qed.

(** The events of the first half of a tick: those of the release closure
    when the session reports once, then the call of [serialize]. *)
Lemma emitted_tick (sid : nat) (w w' : world) :
  tick sid w = Some w' ->
  exists s,
    sessions w !! sid = Some s /\ interval s = true
    /\ emitted w w'
       = (if (frequency s =? 0) && release s
          then ClearInterval sid
                 :: Log ("Stop " ++ constructor_name (stats s) ++ " reporting")
                 :: (if 1 <? reporting w then [] else closing (this w))
          else [])
           ++ [Serialize sid].
Proof.
  intros H. destruct (tick_inv _ _ _ H) as (s & Hs & Hi).
  exists s. split; [exact Hs|]. split; [exact Hi|].
  destruct (Z.eqb_spec (frequency s) 0) as [Hf|Hf].
  - rewrite (tick_once _ _ _ Hs Hi Hf) in H. injection H as <-. cbn zeta.
    set (wd := set_sessions (<[sid := disarmed s]> (sessions w)) w).
    assert (Hd : sessions wd !! sid = Some (disarmed s)).
    { cbn. apply list_lookup_insert_eq. eapply lookup_lt_Some, Hs. }
    destruct (release s) eqn:Hr; cbn [andb].
    + assert (L : emitted wd (release_closure sid wd)
                  = ClearInterval sid
                      :: Log ("Stop " ++ constructor_name (stats s) ++ " reporting")
                      :: (if 1 <? reporting w then [] else closing (this w)))
        by exact (emitted_release_live sid wd (disarmed s) Hd Hr).
      rewrite <- L. apply emitted_app.
      pose proof (extends_release sid wd) as E. unfold extends in E.
      change (trace wd) with (trace w) in E.
      unfold suspend, set_pending, emit. cbn [trace]. rewrite E at 1.
      rewrite <- app_assoc. reflexivity.
    + apply emitted_app. reflexivity.
  - rewrite (tick_periodic _ _ _ Hs Hi Hf) in H. injection H as <-.
    apply emitted_app. reflexivity.
Qed.

(** ** A session only winds down *)

Lemma fades_refl (s : session) : fades s s.
Proof. repeat split; auto. Qed.

Lemma fades_trans (s1 s2 s3 : session) :
  fades s1 s2 -> fades s2 s3 -> fades s1 s3.
Proof.
  intros (A1 & A2 & A3 & A4) (B1 & B2 & B3 & B4).
  repeat split; [congruence|congruence|auto|auto].
Qed.

Lemma fades_stopped (s : session) : fades s (stopped s).
Proof. repeat split; cbn; discriminate. Qed.

Lemma fades_disarmed (s : session) : fades s (disarmed s).
Proof. repeat split; cbn; [auto|discriminate]. Qed.

Lemma fades_insert (l : list session) (i j : nat) (s si si' : session) :
  l !! i = Some si -> fades si si' -> l !! j = Some s ->
  exists s', <[i := si']> l !! j = Some s' /\ fades s s'.
Proof.
  intros Hi Hf Hj. destruct (Nat.eq_dec i j) as [->|Hne].
  - exists si'. rewrite list_lookup_insert_eq by (eapply lookup_lt_Some, Hj).
    split; [reflexivity|congruence].
  - exists s. rewrite list_lookup_insert_ne by assumption.
    split; [assumption|apply fades_refl].
Qed.

Lemma release_fades (sid sid' : nat) (w : world) (s : session) :
  sessions w !! sid = Some s ->
  exists s', sessions (release_closure sid' w) !! sid = Some s' /\ fades s s'.
Proof.
  intros Hs. destruct (live_dec w sid') as [(s0 & Hs0 & Hr0)|Hd].
  - rewrite (release_closure_live _ _ _ Hs0 Hr0). cbn.
    apply (fades_insert _ _ _ _ s0); [assumption|apply fades_stopped|assumption].
  - rewrite (release_closure_dead _ _ Hd). exists s. split; [assumption|apply fades_refl].
Qed.

Lemma tick_fades (sid sid' : nat) (w w' : world) (s : session) :
  tick sid' w = Some w' -> sessions w !! sid = Some s ->
  exists s', sessions w' !! sid = Some s' /\ fades s s'.
Proof.
  intros H Hs. destruct (tick_inv _ _ _ H) as (s0 & Hs0 & Hi0).
  destruct (Z.eq_dec (frequency s0) 0) as [Hf|Hf].
  - rewrite (tick_once _ _ _ Hs0 Hi0 Hf) in H. injection H as <-. cbn zeta.
    destruct (fades_insert _ _ _ _ s0 (disarmed s0) Hs0 (fades_disarmed s0) Hs)
      as (s1 & Hs1 & F1).
    change (sessions (suspend sid ?x)) with (sessions x).
    destruct (release s0).
    + destruct (release_fades sid sid'
                  (set_sessions (<[sid' := disarmed s0]> (sessions w)) w) s1 Hs1)
        as (s2 & Hs2 & F2).
      exists s2. split; [exact Hs2|]. eapply fades_trans; eassumption.
    + exists s1. auto.
  - rewrite (tick_periodic _ _ _ Hs0 Hi0 Hf) in H. injection H as <-.
    exists s. split; [exact Hs|apply fades_refl].
Qed.

Lemma emitted_same (w w' : world) : trace w' = trace w -> emitted w w' = [].
Proof. intros H. apply emitted_app. rewrite H. symmetry. apply app_nil_r. Qed.

Lemma emitted_emit (e : event) (w : world) : emitted w (emit e w) = [e].
Proof. apply emitted_app. reflexivity. Qed.

Lemma emitted_report (st : IStats) (freq : Z) (w : world) :
  emitted w (report st freq w)
  = [if freq =? 0 then SetTimeout (length (sessions w)) (freq * 1000)
     else SetInterval (length (sessions w)) (freq * 1000);
     Log ("Start " ++ constructor_name st ++ " reporting every "
            ++ string_of_number freq ++ " seconds")].
Proof.
  apply emitted_app. unfold report. cbn. rewrite <- app_assoc. reflexivity.
Qed.

Lemma resume_sessions (sid : nat) (r : settled) (fault : option value)
    (w w' : world) :
  resume sid r fault w = Some w' ->
  sessions w' = sessions w /\ reporting w' = reporting w
  /\ callbacks w' = callbacks w.
Proof.
  intros H. apply resume_inv in H as (s & rest & _ & _ & ->).
  pose proof (_send_frame r fault (set_pending rest w)) as F.
  cbn zeta in F. destruct F as (F1 & F2 & _ & F4 & _).
  destruct (_send r fault (set_pending rest w)) as [[[]|e] w1];
    cbn [fst snd] in *; auto.
Qed.

Lemma step_fades (sid : nat) (w w' : world) (l : label) (s : session) :
  step w l = Some w' -> sessions w !! sid = Some s ->
  exists s', sessions w' !! sid = Some s' /\ fades s s'.
Proof.
  intros H Hs. destruct l; cbn in H.
  - injection H as <-. exists s. split; [|apply fades_refl].
    unfold report. cbn. apply lookup_app_l_Some, Hs.
  - injection H as <-. unfold stats_onRelease.
    destruct (callbacks w !! o); [apply release_fades, Hs|].
    exists s. split; [exact Hs|apply fades_refl].
  - injection H as <-. exists s. split; [|apply fades_refl].
    unfold stats_onError. destruct (callbacks w !! o) as [i|]; [|exact Hs].
    destruct (sessions w !! i); exact Hs.
  - injection H as <-. exists s. split; [|apply fades_refl].
    unfold stats_onLog. destruct (callbacks w !! o) as [i|]; [|exact Hs].
    destruct (sessions w !! i); exact Hs.
  - eapply tick_fades; eassumption.
  - apply resume_sessions in H as (-> & _). exists s. split; [exact Hs|apply fades_refl].
  - destruct (_ws (this w)); [|discriminate]. injection H as <-.
    exists s. split; [exact Hs|apply fades_refl].
  - destruct (_ws (this w)); [|discriminate]. injection H as <-.
    exists s. split; [exact Hs|apply fades_refl].
  - apply arrive_inv in H as (_ & _ & ->).
    exists s. split; [exact Hs|apply fades_refl].
  - apply respond_inv in H as [_ H]. apply answer_inv in H as (r & _ & _ & ->).
    exists s. split; [exact Hs|apply fades_refl].
  - apply answer_inv in H as (r & _ & _ & ->).
    exists s. split; [exact Hs|apply fades_refl].
Qed.

(** Each firing of a timer calls [serialize] once, and nothing else
    does. *)
Lemma step_serializes (sid : nat) (w w' : world) (l : label) :
  step w l = Some w' ->
  count (is_serialize sid) (emitted w w')
  = match l with
    | Tick i => if Nat.eqb i sid then 1%nat else 0%nat
    | _ => 0%nat
    end.
Proof.
  intros H. destruct l; cbn in H.
  - injection H as <-. rewrite emitted_report. destruct (freq =? 0); reflexivity.
  - injection H as <-. unfold stats_onRelease.
    destruct (callbacks w !! o); [|rewrite emitted_refl; reflexivity].
    apply (count_none _ of_release); [|apply release_emits].
    intros []; cbn; congruence.
  - injection H as <-. unfold stats_onError.
    destruct (callbacks w !! o) as [i|]; [|rewrite emitted_refl; reflexivity].
    destruct (sessions w !! i); [|rewrite emitted_refl; reflexivity].
    rewrite emitted_emit. reflexivity.
  - injection H as <-. unfold stats_onLog.
    destruct (callbacks w !! o) as [i|]; [|rewrite emitted_refl; reflexivity].
    destruct (sessions w !! i); [|rewrite emitted_refl; reflexivity].
    rewrite emitted_emit. reflexivity.
  - apply emitted_tick in H as (s & _ & _ & ->).
    rewrite count_app.
    replace (count (is_serialize sid) [Serialize sid0])
      with (if Nat.eqb sid0 sid then 1%nat else 0%nat)
      by (unfold count; cbn; destruct (Nat.eqb sid0 sid); reflexivity).
    replace (count (is_serialize sid) _) with 0%nat; [reflexivity|].
    destruct ((frequency s =? 0) && release s); [|reflexivity].
    unfold count. cbn. destruct (1 <? reporting w); [reflexivity|].
    unfold closing. destruct (_ws (this w)), (_fetch (this w)); reflexivity.
  - apply (count_none _ of_send); [|eapply resume_emits, H].
    intros []; cbn; congruence.
  - destruct (_ws (this w)); [|discriminate]. injection H as <-.
    rewrite emitted_same; reflexivity.
  - destruct (_ws (this w)); [|discriminate]. injection H as <-.
    rewrite emitted_same; reflexivity.
  - apply arrive_inv in H as (_ & _ & ->). rewrite emitted_same; reflexivity.
  - apply respond_inv in H as [_ H].
    apply answer_inv in H as (r & _ & _ & ->). rewrite emitted_same; reflexivity.
  - apply answer_inv in H as (r & _ & _ & ->). rewrite emitted_same; reflexivity.
Qed.

(** A session that reports once has one firing to spend. *)
Lemma step_budget (sid : nat) (w w' : world) (l : label) (s : session) :
  step w l = Some w' -> sessions w !! sid = Some s -> frequency s = 0 ->
  exists s', sessions w' !! sid = Some s' /\ fades s s'
             /\ (count (is_serialize sid) (emitted w w') + armed s' <= armed s)%nat.
Proof.
  intros H Hs Hf. destruct (step_fades sid _ _ _ _ H Hs) as (s' & Hs' & F).
  exists s'. split; [exact Hs'|]. split; [exact F|].
  rewrite (step_serializes sid _ _ _ H).
  assert (Hle : (armed s' <= armed s)%nat).
  { destruct F as (_ & _ & _ & F). unfold armed.
    destruct (interval s'); [rewrite F by reflexivity|]; destruct (interval s); lia. }
  destruct l; try exact Hle.
  destruct (Nat.eqb_spec sid0 sid) as [->|]; [|exact Hle].
  cbn in H. destruct (tick_inv _ _ _ H) as (s0 & Hs0 & Hi0).
  assert (s0 = s) by congruence. subst s0.
  rewrite (tick_once _ _ _ Hs Hi0 Hf) in H. injection H as <-. cbn zeta in Hs'.
  change (sessions (suspend sid ?x)) with (sessions x) in Hs'.
  set (wd := set_sessions (<[sid := disarmed s]> (sessions w)) w) in *.
  assert (Hd : sessions wd !! sid = Some (disarmed s)).
  { cbn. apply list_lookup_insert_eq. eapply lookup_lt_Some, Hs. }
  assert (Hoff : interval s' = false).
  { destruct (release s).
    - destruct (release_fades sid sid wd _ Hd) as (s2 & Hs2 & (_ & _ & _ & F2)).
      assert (s2 = s') by congruence. subst s2.
      destruct (interval s'); [discriminate (F2 eq_refl)|reflexivity].
    - rewrite Hd in Hs'. injection Hs' as <-. reflexivity. }
  unfold armed. rewrite Hoff, Hi0. lia.
Qed.

Lemma run_budget (sid : nat) (ls : list label) (w w' : world) (s : session) :
  run w ls = Some w' -> sessions w !! sid = Some s -> frequency s = 0 ->
  exists s', sessions w' !! sid = Some s' /\ fades s s'
             /\ (count (is_serialize sid) (emitted w w') + armed s' <= armed s)%nat.
Proof.
  revert w s. induction ls as [|l ls IH]; intros w s; cbn.
  - intros H Hs _. injection H as <-. exists s.
    rewrite emitted_refl. split; [exact Hs|]. split; [apply fades_refl|]. cbn. lia.
  - destruct (step w l) as [w1|] eqn:E; [|discriminate].
    intros H Hs Hf.
    destruct (step_budget sid _ _ _ _ E Hs Hf) as (s1 & Hs1 & F1 & B1).
    assert (Hf1 : frequency s1 = 0) by (destruct F1 as (_ & -> & _); exact Hf).
    destruct (IH w1 s1 H Hs1 Hf1) as (s2 & Hs2 & F2 & B2).
    exists s2. split; [exact Hs2|]. split; [eapply fades_trans; eassumption|].
    rewrite (emitted_split w w1 w'
               (extends_step _ _ _ E) (extends_run _ _ _ H)).
    rewrite count_app. lia.
Qed.

(** ** The ticks that are suspended *)

Lemma release_pending (sid : nat) (w : world) :
  pending (release_closure sid w) = pending w.
Proof.
  destruct (live_dec w sid) as [(s & Hs & Hr)|Hd].
  - rewrite (release_closure_live _ _ _ Hs Hr). reflexivity.
  - rewrite (release_closure_dead _ _ Hd). reflexivity.
Qed.

(** A timer that fires stops a session that reports once, and suspends
    one more tick. *)
Lemma tick_sessions (sid : nat) (w w' : world) :
  tick sid w = Some w' ->
  exists s,
    sessions w !! sid = Some s /\ interval s = true
    /\ sessions w'
       = (if frequency s =? 0 then <[sid := stopped s]> (sessions w)
          else sessions w)
    /\ pending w' = pending w ++ [sid].
Proof.
  intros H. destruct (tick_inv _ _ _ H) as (s & Hs & Hi).
  exists s. split; [exact Hs|]. split; [exact Hi|].
  destruct (Z.eqb_spec (frequency s) 0) as [Hf|Hf].
  - rewrite (tick_once _ _ _ Hs Hi Hf) in H. injection H as <-. cbn zeta.
    change (sessions (suspend sid ?x)) with (sessions x).
    change (pending (suspend sid ?x)) with (pending x ++ [sid]).
    set (wd := set_sessions (<[sid := disarmed s]> (sessions w)) w).
    assert (Hd : sessions wd !! sid = Some (disarmed s)).
    { cbn. apply list_lookup_insert_eq. eapply lookup_lt_Some, Hs. }
    destruct (release s) eqn:Hr.
    + rewrite release_pending.
      rewrite (release_closure_live sid wd (disarmed s) Hd Hr). cbn.
      rewrite list_insert_insert_eq. split; reflexivity.
    + split; [|reflexivity]. cbn. unfold disarmed, stopped. rewrite Hr.
      reflexivity.
  - rewrite (tick_periodic _ _ _ Hs Hi Hf) in H. injection H as <-.
    split; reflexivity.
Qed.

Lemma resume_pending (sid : nat) (r : settled) (fault : option value)
    (w w' : world) :
  resume sid r fault w = Some w' -> take sid (pending w) = Some (pending w').
Proof.
  intros H. apply resume_inv in H as (s & rest & _ & Hp & ->).
  pose proof (_send_frame r fault (set_pending rest w)) as F.
  cbn zeta in F. destruct F as (_ & _ & F & _).
  destruct (_send r fault (set_pending rest w)) as [[[]|e] w1];
    cbn [fst snd] in F; cbn [emit pending]; rewrite ?F; exact Hp.
Qed.

(** How a callback changes the sessions and the suspended ticks: [report]
    adds a session, the release closure and the timeout stop one, a timer
    suspends a tick and a settled promise takes one up. *)
Lemma step_sessions (w w' : world) (l : label) :
  step w l = Some w' ->
  match l with
  | Report st freq =>
      sessions w'
      = sessions w ++ [{| stats := st; frequency := freq;
                          release := true; interval := true |}]
  | OnRelease _ | Tick _ =>
      sessions w' = sessions w
      \/ exists sid s, sessions w !! sid = Some s
                       /\ sessions w' = <[sid := stopped s]> (sessions w)
  | _ => sessions w' = sessions w
  end
  /\ match l with
     | Tick sid => pending w' = pending w ++ [sid]
     | Settle sid _ _ => take sid (pending w) = Some (pending w')
     | _ => pending w' = pending w
     end.
Proof.
  intros H. destruct l; cbn in H.
  - injection H as <-. split; reflexivity.
  - injection H as <-. unfold stats_onRelease.
    destruct (callbacks w !! o) as [sid|]; [|split; [left|]; reflexivity].
    split; [|apply release_pending].
    destruct (live_dec w sid) as [(s & Hs & Hr)|Hd].
    + right. exists sid, s. rewrite (release_closure_live _ _ _ Hs Hr). auto.
    + left. rewrite (release_closure_dead _ _ Hd). reflexivity.
  - injection H as <-. unfold stats_onError.
    destruct (callbacks w !! o) as [j|]; [|split; reflexivity].
    destruct (sessions w !! j); split; reflexivity.
  - injection H as <-. unfold stats_onLog.
    destruct (callbacks w !! o) as [j|]; [|split; reflexivity].
    destruct (sessions w !! j); split; reflexivity.
  - apply tick_sessions in H as (s & Hs & _ & -> & ->). split; [|reflexivity].
    destruct (frequency s =? 0); [right; eauto|left; reflexivity].
  - split; [apply (resume_sessions _ _ _ _ _ H)|apply (resume_pending _ _ _ _ _ H)].
  - destruct (_ws (this w)); [|discriminate]. injection H as <-.
    split; reflexivity.
  - destruct (_ws (this w)); [|discriminate]. injection H as <-.
    split; reflexivity.
  - apply arrive_inv in H as (_ & _ & ->). split; reflexivity.
  - apply respond_inv in H as [_ H].
    apply answer_inv in H as (r & _ & _ & ->). split; reflexivity.
  - apply answer_inv in H as (r & _ & _ & ->). split; reflexivity.
Qed.

Lemma take_elem (sid : nat) (l rest : list nat) :
  take sid l = Some rest -> sid ∈ l /\ forall x, x ∈ rest -> x ∈ l.
Proof.
  revert rest. induction l as [|x l IH]; intros rest; cbn; [discriminate|].
  destruct (Nat.eqb_spec x sid) as [->|Hne].
  - intros H. injection H as <-. split; [apply list_elem_of_here|].
    intros y Hy. apply list_elem_of_further, Hy.
  - destruct (take sid l) as [r|]; [|discriminate].
    intros H. injection H as <-. destruct (IH r eq_refl) as [I1 I2].
    split; [apply list_elem_of_further, I1|].
    intros y Hy. apply elem_of_cons in Hy as [->|Hy];
      [apply list_elem_of_here|apply list_elem_of_further, I2, Hy].
Qed.

Lemma take_occurrences (sid i : nat) (l rest : list nat) :
  take i l = Some rest ->
  (length (List.filter (Nat.eqb sid) rest) + (if Nat.eqb i sid then 1 else 0)
   = length (List.filter (Nat.eqb sid) l))%nat.
Proof.
  revert rest. induction l as [|x l IH]; intros rest; cbn [take]; [discriminate|].
  destruct (Nat.eqb_spec x i) as [->|Hne].
  - intros H. injection H as <-. cbn [List.filter].
    rewrite (Nat.eqb_sym sid i). destruct (Nat.eqb i sid); cbn; lia.
  - destruct (take i l) as [r|]; [|discriminate].
    intros H. injection H as <-. specialize (IH r eq_refl).
    cbn [List.filter]. destruct (Nat.eqb sid x); cbn [length]; lia.
Qed.

Lemma suspended_none (sid : nat) (w : world) :
  suspended sid w = 0%nat -> take sid (pending w) = None.
Proof.
  unfold suspended. intros H.
  destruct (take sid (pending w)) as [rest|] eqn:E; [|reflexivity].
  pose proof (take_occurrences sid sid _ _ E) as T.
  rewrite Nat.eqb_refl in T. lia.
Qed.

Lemma suspended_unknown (sid : nat) (w : world) :
  known w -> sessions w !! sid = None -> suspended sid w = 0%nat.
Proof.
  intros K Hn. unfold suspended.
  destruct (List.filter (Nat.eqb sid) (pending w)) as [|x t] eqn:E;
    [reflexivity|].
  assert (Hin : In x (List.filter (Nat.eqb sid) (pending w)))
    by (rewrite E; left; reflexivity).
  apply filter_In in Hin as [Hin Hx]. apply Nat.eqb_eq in Hx. subst x.
  apply list_elem_of_In in Hin. destruct (K sid Hin) as [s Hs]. congruence.
Qed.

(** Each call of [serialize] suspends one tick, each settled promise takes
    one up. *)
Lemma step_suspended (sid : nat) (w w' : world) (l : label) :
  step w l = Some w' ->
  (suspended sid w' + (if settles sid l then 1 else 0)
   = suspended sid w + count (is_serialize sid) (emitted w w'))%nat.
Proof.
  intros H. rewrite (step_serializes sid _ _ _ H).
  destruct (step_sessions _ _ _ H) as [_ Hp]. unfold suspended.
  destruct l; cbn [settles]; rewrite ?Hp; try lia.
  - rewrite List.filter_app, length_app. cbn [List.filter].
    rewrite (Nat.eqb_sym sid sid0). destruct (Nat.eqb sid0 sid); cbn; lia.
  - pose proof (take_occurrences sid _ _ _ Hp). lia.
Qed.

Lemma run_suspended (sid : nat) (ls : list label) (w w' : world) :
  run w ls = Some w' ->
  (suspended sid w' + length (List.filter (settles sid) ls)
   = suspended sid w + count (is_serialize sid) (emitted w w'))%nat.
Proof.
  revert w. induction ls as [|l ls IH]; intros w; cbn [run].
  - intros H. injection H as <-. rewrite emitted_refl. cbn. lia.
  - destruct (step w l) as [w1|] eqn:E; [|discriminate]. intros H.
    rewrite (emitted_split w w1 w' (extends_step _ _ _ E) (extends_run _ _ _ H)).
    rewrite count_app. specialize (IH w1 H).
    pose proof (step_suspended sid _ _ _ E). cbn [List.filter].
    destruct (settles sid l); cbn [length]; lia.
Qed.

Lemma known_step (w w' : world) (l : label) :
  step w l = Some w' -> known w -> known w'.
Proof.
  intros H K i Hi.
  assert (Hold : forall j, is_Some (sessions w !! j) -> is_Some (sessions w' !! j)).
  { intros j [s Hs]. destruct (step_fades j _ _ _ _ H Hs) as (s' & Hs' & _).
    eauto. }
  destruct (step_sessions _ _ _ H) as [_ Hp].
  destruct l; try (rewrite Hp in Hi; apply Hold, K, Hi).
  - rewrite Hp in Hi. apply elem_of_app in Hi as [Hi|Hi]; [apply Hold, K, Hi|].
    apply list_elem_of_singleton in Hi as ->.
    cbn in H. destruct (tick_inv _ _ _ H) as (s & Hs & _). apply Hold. eauto.
  - apply Hold, K. apply (take_elem _ _ _ Hp), Hi.
Qed.

Lemma reachable_known (w : world) : reachable w -> known w.
Proof.
  induction 1 as [url t H|w l w' _ IH H].
  - intros i Hi. inversion Hi.
  - apply (known_step _ _ _ H IH).
Qed.

(** ** Timer and closure go together *)

Lemma paired_stopped (s : session) : paired (stopped s).
Proof. split; [discriminate|reflexivity]. Qed.

Lemma step_paired (sid : nat) (w w' : world) (l : label) (s' : session) :
  step w l = Some w' ->
  (forall s, sessions w !! sid = Some s -> paired s) ->
  sessions w' !! sid = Some s' -> paired s'.
Proof.
  intros H Hw Hs'. destruct (step_sessions _ _ _ H) as [Hss _].
  assert (Hins : forall i s0, sessions w' = <[i := stopped s0]> (sessions w) ->
                              paired s').
  { intros i s0 E. rewrite E in Hs'.
    apply list_lookup_insert_Some in Hs' as [(_ & <- & _)|(_ & Hs')];
      [apply paired_stopped|apply Hw, Hs']. }
  destruct l; try (rewrite Hss in Hs'; apply Hw, Hs').
  - rewrite Hss in Hs'. apply lookup_app_Some in Hs' as [Hs'|[_ Hs']];
      [apply Hw, Hs'|].
    destruct (sid - length (sessions w))%nat; [|discriminate].
    injection Hs' as <-. split; reflexivity.
  - destruct Hss as [Hss|(i & s0 & _ & Hss)];
      [rewrite Hss in Hs'; apply Hw, Hs'|apply (Hins _ _ Hss)].
  - destruct Hss as [Hss|(i & s0 & _ & Hss)];
      [rewrite Hss in Hs'; apply Hw, Hs'|apply (Hins _ _ Hss)].
Qed.

Lemma run_paired (sid : nat) (ls : list label) (w w' : world) (s' : session) :
  run w ls = Some w' ->
  (forall s, sessions w !! sid = Some s -> paired s) ->
  sessions w' !! sid = Some s' -> paired s'.
Proof.
  revert w. induction ls as [|l ls IH]; intros w; cbn [run].
  - intros H. injection H as <-. auto.
  - destruct (step w l) as [w1|] eqn:E; [|discriminate].
    intros H Hw. apply (IH w1 H). intros s. apply (step_paired _ _ _ _ _ E Hw).
Qed.

Lemma reachable_paired (w : world) (sid : nat) (s : session) :
  reachable w -> sessions w !! sid = Some s -> paired s.
Proof.
  intros Hr. revert sid s. induction Hr as [url t H|w l w' _ IH H].
  - intros sid s Hs. inversion Hs.
  - intros sid s. apply (step_paired _ _ _ _ _ H). apply IH.
Qed.

(** ** Sessions that report once *)

Lemma take_snoc (sid : nat) (l : list nat) :
  exists rest, take sid (l ++ [sid]) = Some rest.
Proof.
  induction l as [|x l [rest IH]]; cbn.
  - rewrite Nat.eqb_refl. eauto.
  - destruct (Nat.eqb x sid); [eauto|]. rewrite IH. eauto.
Qed.

Lemma resume_enabled (sid : nat) (r : settled) (fault : option value)
    (w : world) (s : session) (rest : list nat) :
  sessions w !! sid = Some s -> take sid (pending w) = Some rest ->
  exists w', resume sid r fault w = Some w'.
Proof.
  intros Hs Hp. unfold resume. rewrite Hs, Hp.
  destruct (_send r fault (set_pending rest w)) as [[[]|e] w1]; eauto.
Qed.

Lemma resume_disabled (sid : nat) (r : settled) (fault : option value)
    (w : world) :
  suspended sid w = 0%nat -> resume sid r fault w = None.
Proof.
  intros H. unfold resume. rewrite (suspended_none _ _ H).
  destruct (sessions w !! sid); reflexivity.
Qed.

Lemma tick_quiet (sid : nat) (w w' : world) :
  tick sid w = Some w' ->
  count is_transmission (emitted w w') = 0%nat
  /\ count is_error (emitted w w') = 0%nat.
Proof.
  intros H. apply emitted_tick in H as (s & _ & _ & ->).
  rewrite !count_app.
  destruct ((frequency s =? 0) && release s); [|split; reflexivity].
  unfold count. cbn. destruct (1 <? reporting w); [split; reflexivity|].
  unfold closing. destruct (_ws (this w)), (_fetch (this w)); split; reflexivity.
Qed.

Lemma transmits_le (r : settled) : (transmits r <= 1)%nat.
Proof.
  unfold transmits. destruct r as [data|e]; [|lia].
  destruct (encode data); lia.
Qed.

Lemma resume_transmits (sid : nat) (r : settled) (fault : option value)
    (w w' : world) :
  resume sid r fault w = Some w' ->
  count is_transmission (emitted w w') = transmits r.
Proof.
  intros H. apply emitted_resume in H as (s & rest & _ & _ & ->).
  rewrite count_app.
  replace (count is_transmission
             match (_send r fault (set_pending rest w)).1 with
             | Normal _ => []
             | Throw e => [Error (constructor_name (stats s) ++ " error, "
                                    ++ Util_stringify e)]
             end) with 0%nat
    by (destruct (_send r fault (set_pending rest w)).1; reflexivity).
  rewrite Nat.add_0_r.
  destruct r as [data|e]; [|rewrite emitted_send_rejected; reflexivity].
  unfold transmits.
  destruct (encode data) as [[m b]|e] eqn:En;
    [|rewrite (emitted_send_unencodable _ _ _ _ En); reflexivity].
  destruct (_ws (this (set_pending rest w))) as [ws|] eqn:Hws.
  - rewrite (emitted_send_socket _ _ _ _ _ _ Hws En).
    destruct (closed ws); reflexivity.
  - rewrite (emitted_send_http _ _ _ _ _ Hws En).
    destruct (_fetch (this (set_pending rest w))); reflexivity.
Qed.

(** What the continuations of a session transmit in a run: each of them
    what its promise gives. *)
Lemma sent_by_settles (sid : nat) (ls : list label) (w w' : world) :
  run w ls = Some w' ->
  (sent_by sid w ls <= length (List.filter (settles sid) ls))%nat
  /\ forall r fault,
       In (Settle sid r fault) ls ->
       (length (List.filter (settles sid) ls) <= 1)%nat ->
       sent_by sid w ls = transmits r.
Proof.
  revert w. induction ls as [|l ls IH]; intros w; cbn [run sent_by].
  - intros _. split; [cbn; lia|]. intros r fault [].
  - destruct (step w l) as [w1|] eqn:E; [|discriminate]. intros H.
    destruct (IH w1 H) as [I1 I2]. cbn [List.filter].
    assert (Hl : settles sid l = true ->
                 exists r fault, l = Settle sid r fault
                                 /\ count is_transmission (emitted w w1)
                                    = transmits r).
    { destruct l; cbn [settles]; try discriminate.
      intros Hs. apply Nat.eqb_eq in Hs. subst sid0.
      exists r, fault. split; [reflexivity|].
      apply (resume_transmits _ _ _ _ _ E). }
    destruct (settles sid l) eqn:Hs.
    + destruct (Hl eq_refl) as (r0 & f0 & -> & Ht). rewrite Ht. split.
      * pose proof (transmits_le r0). cbn [length]. lia.
      * intros r fault Hin Hle. cbn [length] in Hle.
        assert (H0 : sent_by sid w1 ls = 0%nat) by lia.
        destruct Hin as [Hin|Hin].
        -- injection Hin as <- <-. lia.
        -- exfalso.
           assert (Hf : In (Settle sid r fault) (List.filter (settles sid) ls)).
           { apply filter_In. split; [exact Hin|]. cbn. apply Nat.eqb_refl. }
           destruct (List.filter (settles sid) ls); [destruct Hf|cbn in Hle; lia].
    + split; [lia|]. intros r fault Hin Hle.
      destruct Hin as [Hin|Hin]; [|apply (I2 r fault Hin Hle)].
      subst l. cbn in Hs. rewrite Nat.eqb_refl in Hs. discriminate.
Qed.

(** Only a settled promise makes a tick transmit. *)
Lemma step_transmits (w w' : world) (l : label) :
  step w l = Some w' -> is_settle l = false ->
  count is_transmission (emitted w w') = 0%nat.
Proof.
  intros H Hl. destruct l; try discriminate; cbn in H.
  - injection H as <-. rewrite emitted_report. destruct (freq =? 0); reflexivity.
  - injection H as <-. unfold stats_onRelease.
    destruct (callbacks w !! o); [|rewrite emitted_refl; reflexivity].
    apply (count_none _ of_release); [|apply release_emits].
    intros []; cbn; congruence.
  - injection H as <-. unfold stats_onError.
    destruct (callbacks w !! o) as [i|]; [|rewrite emitted_refl; reflexivity].
    destruct (sessions w !! i); [|rewrite emitted_refl; reflexivity].
    rewrite emitted_emit. reflexivity.
  - injection H as <-. unfold stats_onLog.
    destruct (callbacks w !! o) as [i|]; [|rewrite emitted_refl; reflexivity].
    destruct (sessions w !! i); [|rewrite emitted_refl; reflexivity].
    rewrite emitted_emit. reflexivity.
  - apply (tick_quiet _ _ _ H).
  - destruct (_ws (this w)); [|discriminate]. injection H as <-.
    rewrite emitted_same; reflexivity.
  - destruct (_ws (this w)); [|discriminate]. injection H as <-.
    rewrite emitted_same; reflexivity.
  - apply arrive_inv in H as (_ & _ & ->). rewrite emitted_same; reflexivity.
  - apply respond_inv in H as [_ H].
    apply answer_inv in H as (r & _ & _ & ->). rewrite emitted_same; reflexivity.
  - apply answer_inv in H as (r & _ & _ & ->). rewrite emitted_same; reflexivity.
Qed.

(** When no promise of another session settles, what the session sent is
    all that was transmitted. *)
Lemma sent_by_total (sid : nat) (ls : list label) (w w' : world) :
  run w ls = Some w' ->
  forallb (fun l => negb (is_settle l) || settles sid l) ls = true ->
  count is_transmission (emitted w w') = sent_by sid w ls.
Proof.
  revert w. induction ls as [|l ls IH]; intros w; cbn [run sent_by forallb].
  - intros H _. injection H as <-. rewrite emitted_refl. reflexivity.
  - destruct (step w l) as [w1|] eqn:E; [|discriminate]. intros H Hall.
    apply andb_prop in Hall as [Hl Hall].
    rewrite (emitted_split w w1 w' (extends_step _ _ _ E) (extends_run _ _ _ H)).
    rewrite count_app, (IH w1 H Hall). f_equal.
    destruct (settles sid l) eqn:Hs; [reflexivity|].
    rewrite orb_false_r in Hl. apply negb_true_iff in Hl.
    apply (step_transmits _ _ _ E Hl).
Qed.

(** C3. After [report(stats, 0)] the session calls [serialize] at most
    once, whatever else happens, each call is taken up by at most one
    continuation, and all the continuations of the session together
    transmit at most once, which is all that is transmitted when no other
    session sends; in a run in which its promise settles there was
    exactly one call, what was transmitted is what that promise gave (one
    payload if it resolved with something that can be encoded), and the
    session is stopped.  When the timer fires and the promise settles right
    away the counter is back at its value from before the call, and from
    then on the timer cannot fire, no continuation of the session is left to
    run, and no later run makes the session serialize or transmit again. *)
Theorem report_once (w : world) (st : IStats) :
  reachable w ->
  let sid := length (sessions w) in
  let w1 := report st 0 w in
  (forall ls w',
      run w1 ls = Some w' ->
      (count (is_serialize sid) (emitted w1 w') <= 1)%nat
      /\ (length (List.filter (settles sid) ls)
          <= count (is_serialize sid) (emitted w1 w'))%nat
      /\ (sent_by sid w1 ls <= 1)%nat
      /\ (forallb (fun l => negb (is_settle l) || settles sid l) ls = true ->
          count is_transmission (emitted w1 w') = sent_by sid w1 ls)
      /\ forall r fault,
           In (Settle sid r fault) ls ->
           count (is_serialize sid) (emitted w1 w') = 1%nat
           /\ sent_by sid w1 ls = transmits r
           /\ sessions w' !! sid
              = Some {| stats := st; frequency := 0;
                        release := false; interval := false |})
  /\ forall (r : settled) (fault : option value),
      exists w2 w3,
        tick sid w1 = Some w2 /\ resume sid r fault w2 = Some w3
        /\ count (is_serialize sid) (emitted w w3) = 1%nat
        /\ count is_transmission (emitted w w3) = transmits r
        /\ sessions w3 !! sid
           = Some {| stats := st; frequency := 0;
                     release := false; interval := false |}
        /\ reporting w3 = reporting w
        /\ tick sid w3 = None
        /\ forall ls w',
             run w3 ls = Some w' ->
             count (is_serialize sid) (emitted w3 w') = 0%nat
             /\ sent_by sid w3 ls = 0%nat
             /\ tick sid w' = None
             /\ (forall r' fault', resume sid r' fault' w' = None)
             /\ sessions w' !! sid
                = Some {| stats := st; frequency := 0;
                          release := false; interval := false |}.
Proof.
  intros Hreach sid w1.
  set (s := {| stats := st; frequency := 0; release := true; interval := true |}).
  assert (Hs1 : sessions w1 !! sid = Some s).
  { unfold w1, report. cbn. apply list_lookup_middle. reflexivity. }
  assert (Hp1 : suspended sid w1 = 0%nat).
  { apply (suspended_unknown sid w (reachable_known _ Hreach)).
    apply lookup_ge_None. unfold sid. lia. }
  assert (Hpair : forall s0, sessions w1 !! sid = Some s0 -> paired s0).
  { intros s0 H0. rewrite Hs1 in H0. injection H0 as <-. split; reflexivity. }
  (* the state of the session once it has serialized *)
  assert (Hdone : forall ls w' s',
             run w1 ls = Some w' -> sessions w' !! sid = Some s' ->
             fades s s' -> armed s' = 0%nat ->
             s' = {| stats := st; frequency := 0;
                     release := false; interval := false |}).
  { intros ls w' s' Hrun Hs' (F1 & F2 & _ & _) Ha.
    destruct (run_paired sid ls w1 w' s' Hrun Hpair Hs') as [_ Hp].
    destruct s' as [st' f' r' i']. cbn in *. subst st' f'.
    unfold armed in Ha. cbn in Ha. destruct i'; [discriminate|].
    rewrite (Hp eq_refl). reflexivity. }
  split.
  { intros ls w' Hrun.
    destruct (run_budget sid ls w1 w' s Hrun Hs1 eq_refl) as (s' & Hs' & F & B).
    pose proof (run_suspended sid ls w1 w' Hrun) as Q. rewrite Hp1 in Q.
    destruct (sent_by_settles sid ls w1 w' Hrun) as [T1 T2].
    cbn [armed s interval] in B.
    split; [lia|]. split; [lia|]. split; [lia|].
    split; [apply (sent_by_total sid ls w1 w' Hrun)|].
    intros r fault Hin.
    assert (Hpos : (1 <= length (List.filter (settles sid) ls))%nat).
    { assert (Hf : In (Settle sid r fault) (List.filter (settles sid) ls)).
      { apply filter_In. split; [exact Hin|]. cbn. apply Nat.eqb_refl. }
      destruct (List.filter (settles sid) ls); [destruct Hf|cbn; lia]. }
    split; [lia|]. split; [apply (T2 r fault Hin); lia|].
    rewrite Hs'. f_equal. apply (Hdone ls w' s' Hrun Hs' F). lia. }
  intros r fault.
  assert (Ht := tick_once sid w1 s Hs1 eq_refl eq_refl). cbn zeta in Ht.
  cbn [release s] in Ht.
  set (wd := set_sessions (<[sid := disarmed s]> (sessions w1)) w1) in *.
  assert (Hd : sessions wd !! sid = Some (disarmed s)).
  { cbn. apply list_lookup_insert_eq. eapply lookup_lt_Some, Hs1. }
  set (w2 := suspend sid (release_closure sid wd)) in *.
  assert (Hs2 : sessions w2 !! sid = Some (stopped s)).
  { unfold w2. change (sessions (suspend sid ?x)) with (sessions x).
    rewrite (release_closure_live sid wd (disarmed s) Hd eq_refl). cbn.
    rewrite list_insert_insert_eq.
    apply list_lookup_insert_eq. eapply lookup_lt_Some, Hs1. }
  assert (Hr2 : reporting w2 = reporting w).
  { unfold w2. change (reporting (suspend sid ?x)) with (reporting x).
    rewrite (release_closure_live sid wd (disarmed s) Hd eq_refl).
    change (reporting w + 1 - 1 = reporting w). lia. }
  destruct (take_snoc sid (pending (release_closure sid wd))) as [rest Hp].
  destruct (resume_enabled sid r fault w2 _ rest Hs2 Hp) as [w3 H3].
  exists w2, w3. split; [exact Ht|]. split; [exact H3|].
  assert (S1 : step w (Report st 0) = Some w1) by reflexivity.
  assert (S2 : step w1 (Tick sid) = Some w2) by exact Ht.
  assert (S3 : step w2 (Settle sid r fault) = Some w3) by exact H3.
  pose proof (extends_step _ _ _ S1) as E1.
  pose proof (extends_step _ _ _ S2) as E2.
  pose proof (extends_step _ _ _ S3) as E3.
  pose proof (extends_trans _ _ _ E2 E3) as E23.
  assert (Em : emitted w w3 = emitted w w1 ++ emitted w1 w2 ++ emitted w2 w3).
  { rewrite (emitted_split _ _ _ E1 E23), (emitted_split _ _ _ E2 E3).
    reflexivity. }
  destruct (resume_sessions _ _ _ _ _ H3) as (Hss & Hrr & _).
  assert (Hs3 : sessions w3 !! sid = Some (stopped s)) by (rewrite Hss; exact Hs2).
  assert (R13 : run w1 [Tick sid; Settle sid r fault] = Some w3).
  { cbn [run]. rewrite S2, S3. reflexivity. }
  assert (Hp3 : suspended sid w3 = 0%nat).
  { pose proof (run_suspended sid _ w1 w3 R13) as Q. rewrite Hp1 in Q.
    destruct (run_budget sid _ w1 w3 s R13 Hs1 eq_refl) as (s' & _ & _ & B).
    cbn [List.filter settles length armed s interval] in Q, B.
    rewrite Nat.eqb_refl in Q. cbn [length] in Q. lia. }
  split.
  { rewrite Em, !count_app.
    rewrite (step_serializes sid _ _ _ S1), (step_serializes sid _ _ _ S2),
      (step_serializes sid _ _ _ S3), Nat.eqb_refl. reflexivity. }
  split.
  { rewrite Em, !count_app, (resume_transmits _ _ _ _ _ H3).
    destruct (tick_quiet _ _ _ Ht) as [-> _].
    unfold w1. rewrite emitted_report. destruct (0 =? 0); reflexivity. }
  split; [exact Hs3|]. split; [congruence|]. split.
  { apply tick_unarmed. intros s'. rewrite Hs3. intros H. injection H as <-.
    reflexivity. }
  intros ls w' H.
  destruct (run_budget sid ls w3 w' (stopped s) H Hs3 eq_refl)
    as (s' & Hs' & F & B).
  cbn [armed stopped interval] in B.
  pose proof (run_suspended sid ls w3 w' H) as Q. rewrite Hp3 in Q.
  destruct (sent_by_settles sid ls w3 w' H) as [T1 _].
  assert (Hrun : run w1 ([Tick sid; Settle sid r fault] ++ ls) = Some w').
  { cbn [app run]. rewrite S2, S3. exact H. }
  assert (Hst : s' = {| stats := st; frequency := 0;
                        release := false; interval := false |}).
  { apply (Hdone _ w' s' Hrun Hs'); [|lia].
    apply (fades_trans _ (stopped s)); [apply fades_stopped|exact F]. }
  split; [lia|]. split; [lia|]. split.
  { apply tick_unarmed. intros s0 H0. rewrite Hs' in H0. injection H0 as <-.
    rewrite Hst. reflexivity. }
  split; [|rewrite Hs', Hst; reflexivity].
  intros r' fault'. apply resume_disabled. lia.
Qed.

(** C4, as the code has it.  In the tick of a session that reports once
    the release closure runs first: the timer is cleared, the stop is
    logged, the counter is decremented and, if it reached zero, the channel
    is closed; only then [serialize] is called, and the events of the send
    follow it. *)
Theorem self_stop_precedes_attempt (w w2 w3 : world) (sid : nat) (s : session)
    (r : settled) (fault : option value) :
  sessions w !! sid = Some s -> frequency s = 0 -> release s = true ->
  tick sid w = Some w2 -> resume sid r fault w2 = Some w3 ->
  reporting w2 = reporting w - 1
  /\ sessions w2 !! sid = Some (stopped s)
  /\ exists post,
      emitted w w3
      = (ClearInterval sid
           :: Log ("Stop " ++ constructor_name (stats s) ++ " reporting")
           :: (if 1 <? reporting w then [] else closing (this w)))
          ++ Serialize sid :: post
      /\ forallb of_send post = true
      /\ count (is_clear sid) post = 0%nat.
Proof.
  intros Hs Hf Hr Ht H3.
  pose proof (extends_tick _ _ _ Ht) as E2.
  pose proof (extends_resume _ _ _ _ _ H3) as E3.
  pose proof (emitted_tick _ _ _ Ht) as (s0 & Hs0 & Hi & Em).
  assert (s0 = s) by congruence. subst s0.
  rewrite Hf, Hr in Em. cbn [Z.eqb andb] in Em.
  rewrite (tick_once _ _ _ Hs Hi Hf), Hr in Ht. cbn zeta in Ht.
  injection Ht as <-.
  set (wd := set_sessions (<[sid := disarmed s]> (sessions w)) w) in *.
  assert (Hd : sessions wd !! sid = Some (disarmed s)).
  { cbn. apply list_lookup_insert_eq. eapply lookup_lt_Some, Hs. }
  assert (Hrd : release (disarmed s) = true) by exact Hr.
  split.
  { change (reporting (suspend sid ?x)) with (reporting x).
    rewrite (release_closure_live sid wd (disarmed s) Hd Hrd). reflexivity. }
  split.
  { change (sessions (suspend sid ?x)) with (sessions x).
    rewrite (release_closure_live sid wd (disarmed s) Hd Hrd). cbn.
    rewrite list_insert_insert_eq.
    apply list_lookup_insert_eq. eapply lookup_lt_Some, Hs. }
  exists (emitted (suspend sid (release_closure sid wd)) w3).
  split.
  { rewrite (emitted_split _ _ _ E2 E3), Em, <- app_assoc. reflexivity. }
  pose proof (resume_emits _ _ _ _ _ H3) as Hp.
  split; [exact Hp|].
  apply (count_none _ of_send); [|exact Hp].
  intros []; cbn; congruence.
Qed.

(** The first half of the tick of a session that reports once and still
    holds its closure: the release, then the call of [serialize]. *)
Lemma tick_releases (sid : nat) (w w2 : world) (s : session) :
  consistent w ->
  sessions w !! sid = Some s -> frequency s = 0 -> release s = true ->
  tick sid w = Some w2 ->
  emitted w w2
  = (ClearInterval sid
       :: Log ("Stop " ++ constructor_name (stats s) ++ " reporting")
       :: (if 1 <? reporting w then [] else closing (this w)))
      ++ [Serialize sid]
  /\ reporting w2 = reporting w - 1
  /\ sessions w2 !! sid = Some (stopped s)
  /\ (reporting w2 = 0 -> channel_closed w2 = true).
Proof.
  intros Hw Hs Hf Hr Ht.
  pose proof (emitted_tick _ _ _ Ht) as (s0 & Hs0 & Hi & Em).
  assert (s0 = s) by congruence. subst s0.
  rewrite Hf, Hr in Em. cbn [Z.eqb andb] in Em.
  rewrite (tick_once _ _ _ Hs Hi Hf), Hr in Ht. cbn zeta in Ht.
  injection Ht as <-.
  set (wd := set_sessions (<[sid := disarmed s]> (sessions w)) w) in *.
  assert (Hd : sessions wd !! sid = Some (disarmed s)).
  { cbn. apply list_lookup_insert_eq. eapply lookup_lt_Some, Hs. }
  assert (Hrd : release (disarmed s) = true) by exact Hr.
  assert (Hwd : consistent wd).
  { apply (consistent_frame w); try reflexivity; [|exact Hw]. cbn.
    pose proof (active_insert _ _ _ (disarmed s) Hs) as E.
    unfold weight in E. cbn in E. lia. }
  pose proof (release_once sid wd (disarmed s) Hwd Hd Hrd) as R.
  cbn zeta in R. destruct R as (R1 & _ & _ & _ & _ & R6).
  split; [exact Em|]. split; [exact R1|]. split.
  - change (sessions (suspend sid ?x)) with (sessions x).
    rewrite (release_closure_live sid wd (disarmed s) Hd Hrd). cbn.
    rewrite list_insert_insert_eq.
    apply list_lookup_insert_eq. eapply lookup_lt_Some, Hs.
  - intros H0. apply (R6 H0).
Qed.

(** C6, as the code has it.  When [serialize] signals that the source is
    not ready the tick transmits nothing and logs no error, and handling
    the signal changes neither the object, the sessions nor the requests.
    For a session with a period the whole tick changes none of them.  The
    tick of a session that reports once has released the session before it
    called [serialize]: the timer was cleared, the stop logged, the counter
    decremented and, if that was the last session, the channel closed; the
    session is stopped when the signal comes. *)
Theorem not_ready_is_silent (w w2 w3 : world) (sid : nat) (s : session)
    (e : value) (fault : option value) :
  sessions w !! sid = Some s ->
  tick sid w = Some w2 -> truthy e = false ->
  resume sid (Rejected e) fault w2 = Some w3 ->
  count is_transmission (emitted w w3) = 0%nat
  /\ count is_error (emitted w w3) = 0%nat
  /\ (this w3 = this w2 /\ sessions w3 = sessions w2
      /\ requests w3 = requests w2 /\ trace w3 = trace w2)
  /\ (frequency s <> 0 ->
      this w3 = this w /\ sessions w3 = sessions w
      /\ requests w3 = requests w /\ emitted w w3 = [Serialize sid])
  /\ (frequency s = 0 -> reachable w ->
      release s = true
      /\ emitted w w3
         = (ClearInterval sid
              :: Log ("Stop " ++ constructor_name (stats s) ++ " reporting")
              :: (if 1 <? reporting w then [] else closing (this w)))
             ++ [Serialize sid]
      /\ reporting w3 = reporting w - 1
      /\ sessions w3 !! sid = Some (stopped s)
      /\ (reporting w3 = 0 -> channel_closed w3 = true)).
Proof.
  intros Hs Ht He H3.
  pose proof (extends_tick _ _ _ Ht) as E2.
  pose proof (extends_resume _ _ _ _ _ H3) as E3.
  destruct (tick_quiet _ _ _ Ht) as [Q1 Q2].
  apply resume_inv in H3 as (s2 & rest & _ & _ & H3).
  rewrite _send_rejected, He in H3. subst w3.
  assert (Em : emitted w2 (set_pending rest w2) = [])
    by (apply emitted_same; reflexivity).
  rewrite (emitted_split _ _ _ E2 E3), !count_app, Em, Q1, Q2.
  split; [reflexivity|]. split; [reflexivity|].
  split; [repeat split|].
  destruct (tick_inv _ _ _ Ht) as (s0 & Hs0 & Hi).
  assert (s0 = s) by congruence. subst s0.
  split.
  - intros Hf.
    rewrite (tick_periodic _ _ _ Hs Hi Hf) in Ht. injection Ht as <-.
    repeat split. rewrite app_nil_r. apply emitted_app. reflexivity.
  - intros Hf Hreach.
    assert (Hr : release s = true)
      by (apply (reachable_paired _ _ _ Hreach Hs), Hi).
    destruct (tick_releases sid w w2 s (reachable_consistent _ Hreach)
                Hs Hf Hr Ht) as (T1 & T2 & T3 & T4).
    split; [exact Hr|]. split; [rewrite app_nil_r; exact T1|].
    split; [exact T2|]. split; [exact T3|exact T4].
Qed.

(** ** Requests *)

Lemma abort_request_payload (c : nat) (r : request) :
  payload (abort_request c r) = payload r.
Proof.
  unfold abort_request. destruct (status r); try reflexivity.
  destruct (Nat.eqb (signal r) c); reflexivity.
Qed.

Lemma abort_request_done (c : nat) (r : request) :
  status r <> InFlight -> abort_request c r = r.
Proof. unfold abort_request. destruct (status r); congruence. Qed.

Lemma abort_request_hit (r : request) :
  status r = InFlight -> status (abort_request (signal r) r) = Aborted.
Proof.
  intros H. unfold abort_request. rewrite H, Nat.eqb_refl. reflexivity.
Qed.

Lemma tracked_release (i c : nat) (b : body) (sid : nat) (w : world) :
  tracked i c b w -> tracked i c b (release_closure sid w).
Proof.
  intros T. destruct (live_dec w sid) as [(s & Hs & Hr)|Hd].
  2: { rewrite (release_closure_dead _ _ Hd). exact T. }
  rewrite (release_closure_live _ _ _ Hs Hr). unfold tracked in *. cbn.
  destruct (1 <? reporting w); [exact T|].
  destruct (_fetch (this w)) as [c0|]; [|exact T].
  destruct T as (r & Hr' & Hsg & Hp & Hst).
  exists (abort_request c0 r). rewrite list_lookup_fmap, Hr'.
  split; [reflexivity|].
  rewrite abort_request_signal, abort_request_payload.
  split; [assumption|]. split; [assumption|].
  intros H. apply abort_request_status in H as (H & _ & _). auto.
Qed.

Lemma tracked_send (i c : nat) (b : body) (r : settled)
    (fault : option value) (w : world) :
  tracked i c b w -> tracked i c b (_send r fault w).2.
Proof.
  intros T. destruct r as [data|e]; [|rewrite _send_rejected; exact T].
  destruct (encode data) as [[m bd]|e] eqn:En;
    [|rewrite (_send_unencodable _ _ _ _ En); exact T].
  destruct (_ws (this w)) as [ws|] eqn:Hws.
  - rewrite (_send_socket _ _ _ _ _ _ Hws En). cbn zeta. unfold tracked.
    destruct (ws_send fault _ (ready ws)); cbn; destruct (closed ws); exact T.
  - rewrite (_send_http _ _ _ _ _ Hws En).
    destruct T as (rq & Hr & Hsg & Hp & Hst). unfold tracked. cbn.
    exists (match _fetch (this w) with
            | Some c0 => abort_request c0 rq
            | None => rq
            end).
    split.
    { apply lookup_app_l_Some.
      destruct (_fetch (this w)); [rewrite list_lookup_fmap, Hr|]; auto. }
    destruct (_fetch (this w)) as [c0|] eqn:Hf.
    + rewrite abort_request_signal, abort_request_payload.
      split; [assumption|]. split; [assumption|].
      intros H. apply abort_request_status in H as (H & Hne & _).
      specialize (Hst H). congruence.
    + split; [assumption|]. split; [assumption|].
      intros H. specialize (Hst H). discriminate.
Qed.

Lemma tracked_step (i c : nat) (b : body) (w w' : world) (l : label) :
  step w l = Some w' -> tracked i c b w -> tracked i c b w'.
Proof.
  intros H T. destruct l; cbn in H.
  - injection H as <-. exact T.
  - injection H as <-. unfold stats_onRelease.
    destruct (callbacks w !! o); [apply tracked_release, T|exact T].
  - injection H as <-. unfold stats_onError.
    destruct (callbacks w !! o) as [j|]; [|exact T].
    destruct (sessions w !! j); exact T.
  - injection H as <-. unfold stats_onLog.
    destruct (callbacks w !! o) as [j|]; [|exact T].
    destruct (sessions w !! j); exact T.
  - destruct (tick_inv _ _ _ H) as (s & Hs & Hi).
    destruct (Z.eq_dec (frequency s) 0) as [Hf|Hf].
    + rewrite (tick_once _ _ _ Hs Hi Hf) in H. injection H as <-. cbn zeta.
      destruct (release s); [|exact T].
      apply (tracked_release i c b sid
               (set_sessions (<[sid := disarmed s]> (sessions w)) w)), T.
    + rewrite (tick_periodic _ _ _ Hs Hi Hf) in H. injection H as <-. exact T.
  - apply resume_inv in H as (s & rest & _ & _ & ->).
    pose proof (tracked_send i c b r fault (set_pending rest w) T) as T'.
    destruct (_send r fault (set_pending rest w)) as [[[]|e] w1]; exact T'.
  - destruct (_ws (this w)); [|discriminate]. injection H as <-. exact T.
  - destruct (_ws (this w)); [|discriminate]. injection H as <-. exact T.
  - apply arrive_inv in H as (_ & _ & ->). exact T.
  - apply respond_inv in H as [_ H].
    apply answer_inv in H as (rq & Hrq & Hst & ->).
    destruct T as (r0 & Hr0 & Hsg & Hp & Hcur). unfold tracked. cbn.
    destruct (Nat.eq_dec i0 i) as [->|Hne].
    + assert (r0 = rq) by congruence. subst r0.
      exists (settle_request Delivered rq).
      rewrite list_lookup_insert_eq by (eapply lookup_lt_Some, Hrq).
      unfold settle_request. rewrite Hst. cbn. repeat split; auto; discriminate.
    + exists r0. rewrite list_lookup_insert_ne by assumption. auto.
  - apply answer_inv in H as (rq & Hrq & Hst & ->).
    destruct T as (r0 & Hr0 & Hsg & Hp & Hcur). unfold tracked. cbn.
    destruct (Nat.eq_dec i0 i) as [->|Hne].
    + assert (r0 = rq) by congruence. subst r0.
      exists (settle_request Failed rq).
      rewrite list_lookup_insert_eq by (eapply lookup_lt_Some, Hrq).
      unfold settle_request. rewrite Hst. cbn. repeat split; auto; discriminate.
    + exists r0. rewrite list_lookup_insert_ne by assumption. auto.
Qed.

Lemma tracked_run (i c : nat) (b : body) (ls : list label) (w w' : world) :
  run w ls = Some w' -> tracked i c b w -> tracked i c b w'.
Proof.
  revert w. induction ls as [|l ls IH]; intros w; cbn.
  - intros H. injection H as <-. auto.
  - destruct (step w l) as [w1|] eqn:E; [|discriminate].
    intros H T. apply (IH _ H). apply (tracked_step _ _ _ _ _ _ E T).
Qed.

Lemma done_release (i : nat) (r : request) (sid : nat) (w : world) :
  requests w !! i = Some r -> status r <> InFlight ->
  requests (release_closure sid w) !! i = Some r.
Proof.
  intros Hr Hst. destruct (live_dec w sid) as [(s & Hs & Hl)|Hd].
  2: { rewrite (release_closure_dead _ _ Hd). exact Hr. }
  rewrite (release_closure_live _ _ _ Hs Hl). cbn.
  destruct (1 <? reporting w); [exact Hr|].
  destruct (_fetch (this w)); [|exact Hr].
  rewrite list_lookup_fmap, Hr. cbn. rewrite abort_request_done; auto.
Qed.

Lemma done_step (i : nat) (r : request) (w w' : world) (l : label) :
  step w l = Some w' -> requests w !! i = Some r -> status r <> InFlight ->
  requests w' !! i = Some r.
Proof.
  intros H Hr Hst. destruct l; cbn in H.
  - injection H as <-. exact Hr.
  - injection H as <-. unfold stats_onRelease.
    destruct (callbacks w !! o); [apply done_release; assumption|exact Hr].
  - injection H as <-. unfold stats_onError.
    destruct (callbacks w !! o) as [j|]; [|exact Hr].
    destruct (sessions w !! j); exact Hr.
  - injection H as <-. unfold stats_onLog.
    destruct (callbacks w !! o) as [j|]; [|exact Hr].
    destruct (sessions w !! j); exact Hr.
  - destruct (tick_inv _ _ _ H) as (s & Hs & Hi).
    destruct (Z.eq_dec (frequency s) 0) as [Hf|Hf].
    + rewrite (tick_once _ _ _ Hs Hi Hf) in H. injection H as <-. cbn zeta.
      destruct (release s); [|exact Hr].
      apply (done_release i r sid
               (set_sessions (<[sid := disarmed s]> (sessions w)) w));
        assumption.
    + rewrite (tick_periodic _ _ _ Hs Hi Hf) in H. injection H as <-. exact Hr.
  - apply resume_inv in H as (s & rest & _ & _ & ->).
    assert (Hq : requests (_send r0 fault (set_pending rest w)).2 !! i = Some r).
    { destruct r0 as [data|e]; [|rewrite _send_rejected; exact Hr].
      destruct (encode data) as [[m bd]|e] eqn:En;
        [|rewrite (_send_unencodable _ _ _ _ En); exact Hr].
      destruct (_ws (this (set_pending rest w))) as [ws|] eqn:Hws.
      - rewrite (_send_socket _ _ _ _ _ _ Hws En). cbn zeta.
        destruct (ws_send fault _ (ready ws)); cbn; destruct (closed ws); exact Hr.
      - rewrite (_send_http _ _ _ _ _ Hws En). cbn.
        apply lookup_app_l_Some.
        destruct (_fetch (this w)); [|exact Hr].
        rewrite list_lookup_fmap, Hr. cbn. rewrite abort_request_done; auto. }
    destruct (_send r0 fault (set_pending rest w)) as [[[]|e] w1]; exact Hq.
  - destruct (_ws (this w)); [|discriminate]. injection H as <-. exact Hr.
  - destruct (_ws (this w)); [|discriminate]. injection H as <-. exact Hr.
  - apply arrive_inv in H as (_ & _ & ->). exact Hr.
  - apply respond_inv in H as [_ H].
    apply answer_inv in H as (rq & Hrq & Hq & ->). cbn.
    rewrite list_lookup_insert_ne; [exact Hr|]. intros ->. congruence.
  - apply answer_inv in H as (rq & Hrq & Hq & ->). cbn.
    rewrite list_lookup_insert_ne; [exact Hr|]. intros ->. congruence.
Qed.

Lemma done_run (i : nat) (r : request) (ls : list label) (w w' : world) :
  run w ls = Some w' -> requests w !! i = Some r -> status r <> InFlight ->
  requests w' !! i = Some r.
Proof.
  revert w. induction ls as [|l ls IH]; intros w; cbn.
  - intros H. injection H as <-. auto.
  - destruct (step w l) as [w1|] eqn:E; [|discriminate].
    intros H Hr Hst. apply (IH _ H); [|exact Hst].
    apply (done_step _ _ _ _ _ E Hr Hst).
Qed.

(** ** The HTTP channel *)

(** The kind of channel never changes. *)
Lemma http_step (w w' : world) (l : label) :
  step w l = Some w' -> _ws (this w) = None -> _ws (this w') = None.
Proof.
  intros H Hn. destruct l; cbn in H.
  - injection H as <-. exact Hn.
  - injection H as <-. unfold stats_onRelease.
    destruct (callbacks w !! o) as [sid|]; [|exact Hn].
    destruct (live_dec w sid) as [(s & Hs & Hr)|Hd].
    + rewrite (release_closure_live _ _ _ Hs Hr). cbn. rewrite Hn.
      destruct (1 <? reporting w); reflexivity.
    + rewrite (release_closure_dead _ _ Hd). exact Hn.
  - injection H as <-. unfold stats_onError.
    destruct (callbacks w !! o) as [j|]; [|exact Hn].
    destruct (sessions w !! j); exact Hn.
  - injection H as <-. unfold stats_onLog.
    destruct (callbacks w !! o) as [j|]; [|exact Hn].
    destruct (sessions w !! j); exact Hn.
  - destruct (tick_inv _ _ _ H) as (s & Hs & Hi).
    destruct (Z.eq_dec (frequency s) 0) as [Hf|Hf].
    + rewrite (tick_once _ _ _ Hs Hi Hf) in H. injection H as <-. cbn zeta.
      change (this (suspend sid ?x)) with (this x).
      destruct (release s) eqn:Hr; [|exact Hn].
      set (wd := set_sessions (<[sid := disarmed s]> (sessions w)) w).
      assert (Hd : sessions wd !! sid = Some (disarmed s)).
      { cbn. apply list_lookup_insert_eq. eapply lookup_lt_Some, Hs. }
      rewrite (release_closure_live sid wd (disarmed s) Hd Hr). cbn. rewrite Hn.
      destruct (1 <? reporting wd); reflexivity.
    + rewrite (tick_periodic _ _ _ Hs Hi Hf) in H. injection H as <-. exact Hn.
  - apply resume_inv in H as (s & rest & _ & _ & ->).
    assert (Hq : _ws (this (_send r fault (set_pending rest w)).2) = None).
    { destruct r as [data|e]; [|rewrite _send_rejected; exact Hn].
      destruct (encode data) as [[m bd]|e] eqn:En;
        [|rewrite (_send_unencodable _ _ _ _ En); exact Hn].
      rewrite (_send_http _ _ (set_pending rest w) _ _ Hn En). reflexivity. }
    destruct (_send r fault (set_pending rest w)) as [[[]|e] w1]; exact Hq.
  - rewrite Hn in H. discriminate.
  - rewrite Hn in H. discriminate.
  - apply arrive_inv in H as (_ & _ & ->). exact Hn.
  - apply respond_inv in H as [_ H].
    apply answer_inv in H as (rq & _ & _ & ->). exact Hn.
  - apply answer_inv in H as (rq & _ & _ & ->). exact Hn.
Qed.

Lemma http_run (ls : list label) (w w' : world) :
  run w ls = Some w' -> _ws (this w) = None -> _ws (this w') = None.
Proof.
  revert w. induction ls as [|l ls IH]; intros w; cbn.
  - intros H. injection H as <-. auto.
  - destruct (step w l) as [w1|] eqn:E; [|discriminate].
    intros H Hn. apply (IH _ H). apply (http_step _ _ _ E Hn).
Qed.

(** The world after a tick whose payload went out as a POST. *)
Lemma resume_http (sid : nat) (data : value) (fault : option value)
    (w w' : world) (m : string) (b : body) :
  _ws (this w) = None -> encode data = Normal (m, b) ->
  resume sid (Resolved data) fault w = Some w' ->
  _fetch (this w') = Some (controllers w)
  /\ requests w'
     = match _fetch (this w) with
       | Some c => map (abort_request c) (requests w)
       | None => requests w
       end ++ [post (controllers w) m b]
  /\ emitted w w'
     = match _fetch (this w) with Some c => [Abort c] | None => [] end
         ++ [Fetch (controllers w) (_url (this w)) m b]
  /\ arrived w' = arrived w.
Proof.
  intros Hn En H. apply resume_inv in H as (s & rest & _ & _ & ->).
  assert (Hn' : _ws (this (set_pending rest w)) = None) by exact Hn.
  pose proof (emitted_send_http data fault _ _ _ Hn' En) as Em.
  rewrite (_send_http _ _ _ _ _ Hn' En) in Em |- *.
  cbn [fst snd] in *.
  split; [reflexivity|]. split; [reflexivity|]. split; [exact Em|reflexivity].
Qed.

(** ** What has reached the server *)

Lemma release_arrived (sid : nat) (w : world) :
  arrived (release_closure sid w) = arrived w.
Proof.
  destruct (live_dec w sid) as [(s & Hs & Hr)|Hd].
  - rewrite (release_closure_live _ _ _ Hs Hr). reflexivity.
  - rewrite (release_closure_dead _ _ Hd). reflexivity.
Qed.

Lemma _send_arrived (r : settled) (fault : option value) (w : world) :
  arrived (_send r fault w).2 = arrived w.
Proof.
  destruct r as [data|e]; [|rewrite _send_rejected; reflexivity].
  destruct (encode data) as [[m b]|e] eqn:En;
    [|rewrite (_send_unencodable _ _ _ _ En); reflexivity].
  destruct (_ws (this w)) as [ws|] eqn:Hws.
  - rewrite (_send_socket _ _ _ _ _ _ Hws En). cbn zeta.
    destruct (ws_send fault _ (ready ws)); cbn; destruct (closed ws);
      reflexivity.
  - rewrite (_send_http _ _ _ _ _ Hws En). reflexivity.
Qed.

(** Nothing the program does recalls a body that has arrived: only the
    network adds to what the server has. *)
Lemma step_arrived (w w' : world) (l : label) :
  step w l = Some w' ->
  arrived w' = arrived w ++ match l with Arrive i => [i] | _ => [] end.
Proof.
  intros H. destruct l; cbn in H; rewrite ?app_nil_r.
  - injection H as <-. reflexivity.
  - injection H as <-. unfold stats_onRelease.
    destruct (callbacks w !! o); [apply release_arrived|reflexivity].
  - injection H as <-. unfold stats_onError.
    destruct (callbacks w !! o) as [j|]; [|reflexivity].
    destruct (sessions w !! j); reflexivity.
  - injection H as <-. unfold stats_onLog.
    destruct (callbacks w !! o) as [j|]; [|reflexivity].
    destruct (sessions w !! j); reflexivity.
  - destruct (tick_inv _ _ _ H) as (s & Hs & Hi).
    destruct (Z.eq_dec (frequency s) 0) as [Hf|Hf].
    + rewrite (tick_once _ _ _ Hs Hi Hf) in H. injection H as <-. cbn zeta.
      change (arrived (suspend sid ?x)) with (arrived x).
      destruct (release s); [rewrite release_arrived|]; reflexivity.
    + rewrite (tick_periodic _ _ _ Hs Hi Hf) in H. injection H as <-.
      reflexivity.
  - apply resume_inv in H as (s & rest & _ & _ & ->).
    pose proof (_send_arrived r fault (set_pending rest w)) as A.
    destruct (_send r fault (set_pending rest w)) as [[[]|e] w1]; exact A.
  - destruct (_ws (this w)); [|discriminate]. injection H as <-. reflexivity.
  - destruct (_ws (this w)); [|discriminate]. injection H as <-. reflexivity.
  - apply arrive_inv in H as (_ & _ & ->). reflexivity.
  - apply respond_inv in H as [_ H].
    apply answer_inv in H as (r & _ & _ & ->). reflexivity.
  - apply answer_inv in H as (r & _ & _ & ->). reflexivity.
Qed.

Lemma run_arrived (ls : list label) (w w' : world) (i : nat) :
  run w ls = Some w' -> i ∈ arrived w -> i ∈ arrived w'.
Proof.
  revert w. induction ls as [|l ls IH]; intros w; cbn [run].
  - intros H. injection H as <-. auto.
  - destruct (step w l) as [w1|] eqn:E; [|discriminate].
    intros H Hi. apply (IH w1 H). rewrite (step_arrived _ _ _ E).
    apply elem_of_app. left. exact Hi.
Qed.

Lemma received_elem (w : world) (i : nat) (r : request) :
  i ∈ arrived w -> requests w !! i = Some r -> payload r ∈ received w.
Proof.
  intros Hi Hr. unfold received. apply list_elem_of_omap.
  exists i. split; [exact Hi|]. rewrite Hr. reflexivity.
Qed.

(** An aborted request is never answered. *)
Lemma aborted_unanswered (i : nat) (b : body) (st : request_status)
    (w : world) :
  aborted i b w -> answer i st w = None.
Proof.
  intros (r & Hr & _ & Hst). unfold answer. rewrite Hr, Hst. reflexivity.
Qed.

(** C8, as the code has it.  On the HTTP channel, when a payload is sent
    while the request of an earlier send is still under way, the earlier
    request is aborted through its controller before the new POST is
    issued; it stays aborted in every later world and is never answered, so
    of the two only the later request can still complete.  The abort
    recalls nothing: what had reached the server is still there, and when
    the body of the earlier request had arrived the server holds the earlier
    payload for good. *)
Theorem later_send_aborts_earlier (w w1 w1' w2 : world) (sid1 sid2 : nat)
    (d1 d2 : value) (m1 m2 : string) (b1 b2 : body) (f1 f2 : option value)
    (ls : list label) :
  _ws (this w) = None ->
  encode d1 = Normal (m1, b1) -> encode d2 = Normal (m2, b2) ->
  resume sid1 (Resolved d1) f1 w = Some w1 ->
  run w1 ls = Some w1' ->
  (exists r, requests w1' !! length (requests w) = Some r
             /\ status r = InFlight) ->
  resume sid2 (Resolved d2) f2 w1' = Some w2 ->
  let i := length (requests w) in
  requests w1 !! i = Some (post (controllers w) m1 b1)
  /\ emitted w1' w2
     = [Abort (controllers w);
        Fetch (controllers w1') (_url (this w1')) m2 b2]
  /\ aborted i b1 w2
  /\ requests w2 !! length (requests w1') = Some (post (controllers w1') m2 b2)
  /\ arrived w2 = arrived w1'
  /\ forall ls' w',
       run w2 ls' = Some w' ->
       aborted i b1 w'
       /\ step w' (Respond i) = None /\ step w' (NetworkError i) = None
       /\ (i ∈ arrived w1' -> b1 ∈ received w').
Proof.
  intros Hn En1 En2 H1 Hrun (r & Hr & Hst) H2 i. subst i.
  destruct (resume_http _ _ _ _ _ _ _ Hn En1 H1) as (F1 & Q1 & _ & _).
  assert (L1 : requests w1 !! length (requests w)
               = Some (post (controllers w) m1 b1)).
  { rewrite Q1. apply list_lookup_middle.
    destruct (_fetch (this w)); [symmetry; apply length_map|reflexivity]. }
  assert (T1 : tracked (length (requests w)) (controllers w) b1 w1).
  { eexists. split; [exact L1|]. repeat split. intros _. exact F1. }
  pose proof (tracked_run _ _ _ _ _ _ Hrun T1) as (r' & Hr' & Hsg & Hp & Hcur).
  assert (r' = r) by congruence. subst r'.
  specialize (Hcur Hst).
  pose proof (http_run _ _ _ Hrun
                (http_step _ _ _
                   (H1 : step w (Settle sid1 (Resolved d1) f1) = Some w1) Hn))
    as Hn1.
  destruct (resume_http _ _ _ _ _ _ _ Hn1 En2 H2) as (F2 & Q2 & E2 & A2').
  rewrite Hcur in Q2, E2.
  assert (A2 : requests w2 !! length (requests w)
               = Some (abort_request (controllers w) r)).
  { rewrite Q2. apply lookup_app_l_Some. rewrite list_lookup_fmap, Hr. reflexivity. }
  assert (S2 : status (abort_request (controllers w) r) = Aborted).
  { rewrite <- Hsg. apply abort_request_hit, Hst. }
  split; [exact L1|]. split; [exact E2|]. split.
  { eexists. split; [exact A2|]. rewrite abort_request_payload. auto. }
  split.
  { rewrite Q2. apply list_lookup_middle. symmetry. apply length_map. }
  split; [exact A2'|].
  intros ls' w' Hrun'.
  assert (Hq : requests w' !! length (requests w)
               = Some (abort_request (controllers w) r)).
  { apply (done_run _ _ _ _ _ Hrun' A2). rewrite S2. discriminate. }
  assert (Hab : aborted (length (requests w)) b1 w').
  { eexists. split; [exact Hq|]. rewrite abort_request_payload. auto. }
  split; [exact Hab|]. split.
  { cbn. rewrite (aborted_unanswered _ _ _ _ Hab).
    destruct (bool_decide _); reflexivity. }
  split; [apply (aborted_unanswered _ _ _ _ Hab)|].
  intros Hi. rewrite <- Hp, <- (abort_request_payload (controllers w) r).
  apply (received_elem w' (length (requests w))); [|exact Hq].
  apply (run_arrived _ _ _ _ Hrun'). rewrite A2'. exact Hi.
Qed.

(** ** The socket channel *)

(** The world after a tick whose payload went to the socket. *)
Lemma resume_socket (sid : nat) (data : value) (fault : option value)
    (w w' : world) (ws : WebSocketReliable) (m : string) (b : body) :
  _ws (this w) = Some ws -> encode data = Normal (m, b) ->
  resume sid (Resolved data) fault w = Some w' ->
  exists s,
    sessions w !! sid = Some s
    /\ _ws (this w')
       = Some match ws_send fault b (ready ws) with
              | Normal ws' => ws'
              | Throw _ => ready ws
              end
    /\ emitted w w'
       = (if closed ws then [WsOpen (_url (this w))] else [])
           ++ WsSend b
           :: match ws_send fault b (ready ws) with
              | Normal _ => []
              | Throw e => [Error (constructor_name (stats s) ++ " error, "
                                     ++ Util_stringify e)]
              end.
Proof.
  intros Hws En H.
  destruct (emitted_resume _ _ _ _ _ H) as (s & rest & Hs & Hp & Em).
  apply resume_inv in H as (s' & rest' & Hs' & Hp' & ->).
  assert (s' = s) by congruence. assert (rest' = rest) by congruence. subst.
  exists s. split; [exact Hs|].
  assert (Hws' : _ws (this (set_pending rest w)) = Some ws) by exact Hws.
  rewrite (emitted_send_socket _ _ _ _ _ _ Hws' En) in Em.
  rewrite (_send_socket _ _ _ _ _ _ Hws' En) in Em |- *. cbn zeta in *.
  destruct (ws_send fault b (ready ws)) as [ws'|e];
    cbn [fst snd] in *.
  - split; [reflexivity|]. rewrite Em, app_nil_r.
    destruct (closed ws); reflexivity.
  - split; [reflexivity|]. rewrite Em, <- app_assoc. reflexivity.
Qed.

(** C9.  On the socket channel a send first opens the socket when it is
    closed, then empties the queue, then hands the payload to the socket:
    afterwards the socket is not closed, and the queue holds nothing but,
    at most, the payload of this send. *)
Theorem socket_send_fresh (w w' : world) (sid : nat) (data : value)
    (fault : option value) (ws : WebSocketReliable) (m : string) (b : body) :
  _ws (this w) = Some ws ->
  encode data = Normal (m, b) ->
  resume sid (Resolved data) fault w = Some w' ->
  exists ws' post,
    _ws (this w') = Some ws'
    /\ closed ws' = false
    /\ emitted w w'
       = (if closed ws then [WsOpen (_url (this w))] else [])
           ++ WsSend b :: post
    /\ (queueing ws' = [] \/ queueing ws' = [b])
    /\ (fault = None ->
        queueing ws' = (if closed ws || negb (opened ws) then [b] else [])
        /\ wire ws'
           = wire ws ++ (if closed ws || negb (opened ws) then [] else [b])).
Proof.
  intros Hws En H.
  destruct (resume_socket _ _ _ _ _ _ _ _ Hws En H) as (s & _ & Hw' & Em).
  eexists. eexists. split; [exact Hw'|]. split; [|split; [exact Em|]].
  - unfold ws_send, ready. destruct fault; [destruct (closed ws) eqn:C; cbn; auto|].
    destruct (closed ws) eqn:C; cbn; [reflexivity|].
    destruct (opened ws); cbn; exact C.
  - unfold ws_send, ready. split.
    + destruct fault; [destruct (closed ws); cbn; auto|].
      destruct (closed ws); cbn; [auto|]. destruct (opened ws); cbn; auto.
    + intros ->. destruct (closed ws); cbn; [rewrite app_nil_r; auto|].
      destruct (opened ws); cbn; rewrite ?app_nil_r; auto.
Qed.

(** ** Failures of the transmission *)

(** What happens to a request is never seen by the program: the promise of
    [fetch] is dropped, so a failed POST leaves the object, the sessions and
    the trace as they were. *)
Lemma network_error_unobserved (w w' : world) (i : nat) :
  step w (NetworkError i) = Some w' ->
  this w' = this w /\ sessions w' = sessions w /\ trace w' = trace w
  /\ exists r, requests w !! i = Some r /\ status r = InFlight
               /\ requests w' !! i = Some (settle_request Failed r).
Proof.
  intros H. apply answer_inv in H as (r & Hr & Hst & ->).
  repeat split. exists r. repeat split; try assumption.
  cbn. apply list_lookup_insert_eq. eapply lookup_lt_Some, Hr.
Qed.

(** Whatever [_send] throws inside a tick ends as one error line with the
    name of the source; the tick itself always completes. *)
Lemma thrown_is_logged (sid : nat) (r : settled) (fault : option value)
    (w : world) (s : session) (rest : list nat) (e : value) :
  sessions w !! sid = Some s -> take sid (pending w) = Some rest ->
  (_send r fault (set_pending rest w)).1 = Throw e ->
  exists w',
    resume sid r fault w = Some w'
    /\ exists t, emitted w w'
                 = t ++ [Error (constructor_name (stats s) ++ " error, "
                                  ++ Util_stringify e)]
                 /\ count is_error t = 0%nat.
Proof.
  intros Hs Hp He.
  destruct (resume_enabled sid r fault w s rest Hs Hp)
    as [w' H].
  exists w'. split; [exact H|].
  destruct (emitted_resume _ _ _ _ _ H) as (s' & rest' & Hs' & Hp' & ->).
  assert (s' = s) by congruence. assert (rest' = rest) by congruence. subst.
  rewrite He. eexists. split; [reflexivity|].
  destruct r as [data|x]; [|rewrite emitted_send_rejected; reflexivity].
  destruct (encode data) as [[m b]|x] eqn:En;
    [|rewrite (emitted_send_unencodable _ _ _ _ En); reflexivity].
  destruct (_ws (this (set_pending rest w))) as [ws|] eqn:Hws.
  - rewrite (emitted_send_socket _ _ _ _ _ _ Hws En).
    destruct (closed ws); reflexivity.
  - rewrite (_send_http _ _ _ _ _ Hws En) in He. discriminate.
Qed.

(** C10.  On a socket channel, when the only active session reports once,
    its tick first releases the session, which brings the counter to zero
    and closes the socket, and then sends, which opens the socket again:
    the counter is zero and the socket is not closed.  So a counter at zero
    does not imply a closed channel in the reachable worlds. *)
Theorem one_shot_leaves_socket_open :
  (forall (w : world) (st : IStats) (data : value) (fault : option value)
          (m : string) (b : body),
      reachable w -> kind (this w) = socket -> reporting w = 0 ->
      encode data = Normal (m, b) ->
      let sid := length (sessions w) in
      exists w1 w2 w3 ws2 ws3 post,
        step w (Report st 0) = Some w1
        /\ tick sid w1 = Some w2
        /\ resume sid (Resolved data) fault w2 = Some w3
        /\ reporting w1 = 1
        /\ reporting w2 = 0 /\ _ws (this w2) = Some ws2 /\ closed ws2 = true
        /\ reporting w3 = 0 /\ _ws (this w3) = Some ws3 /\ closed ws3 = false
        /\ channel_closed w3 = false
        /\ emitted w1 w3
           = [ClearInterval sid;
              Log ("Stop " ++ constructor_name st ++ " reporting");
              WsClose; Serialize sid;
              WsOpen (_url (this w)); WsSend b] ++ post)
  /\ ~ (forall w : world,
           reachable w -> reporting w = 0 -> channel_closed w = true).
Proof.
  assert (Main : forall (w : world) (st : IStats) (data : value)
                        (fault : option value) (m : string) (b : body),
             reachable w -> kind (this w) = socket -> reporting w = 0 ->
             encode data = Normal (m, b) ->
             let sid := length (sessions w) in
             exists w1 w2 w3 ws2 ws3 post,
               step w (Report st 0) = Some w1
               /\ tick sid w1 = Some w2
               /\ resume sid (Resolved data) fault w2 = Some w3
               /\ reporting w1 = 1
               /\ reporting w2 = 0 /\ _ws (this w2) = Some ws2
               /\ closed ws2 = true
               /\ reporting w3 = 0 /\ _ws (this w3) = Some ws3
               /\ closed ws3 = false
               /\ channel_closed w3 = false
               /\ emitted w1 w3
                  = [ClearInterval sid;
                     Log ("Stop " ++ constructor_name st ++ " reporting");
                     WsClose; Serialize sid;
                     WsOpen (_url (this w)); WsSend b] ++ post).
  { intros w st data fault m b Hreach Hk H0 En sid.
    pose proof (reachable_consistent _ Hreach) as [_ Ho _].
    unfold kind in Hk. destruct (_ws (this w)) as [ws0|] eqn:Hws; [|discriminate].
    assert (Hf : _fetch (this w) = None) by (apply Ho; eauto).
    set (s := {| stats := st; frequency := 0; release := true; interval := true |}).
    set (w1 := report st 0 w).
    assert (Hs1 : sessions w1 !! sid = Some s).
    { unfold w1, report. cbn. apply list_lookup_middle. reflexivity. }
    assert (Ht := tick_once sid w1 s Hs1 eq_refl eq_refl). cbn zeta in Ht.
    cbn [release s] in Ht.
    set (wd := set_sessions (<[sid := disarmed s]> (sessions w1)) w1) in *.
    assert (Hd : sessions wd !! sid = Some (disarmed s)).
    { cbn. apply list_lookup_insert_eq. eapply lookup_lt_Some, Hs1. }
    pose proof (release_closure_live sid wd (disarmed s) Hd eq_refl) as Hrel.
    assert (R1 : reporting wd = 1) by (change (reporting w + 1 = 1); lia).
    rewrite R1 in Hrel. cbn [Z.ltb Z.compare Pos.compare Pos.compare_cont] in Hrel.
    change (_ws (this wd)) with (_ws (this w)) in Hrel.
    change (_fetch (this wd)) with (_fetch (this w)) in Hrel.
    rewrite Hws in Hrel. cbn [fmap option_fmap option_map] in Hrel.
    set (w2 := suspend sid (release_closure sid wd)) in *.
    assert (Hs2 : sessions w2 !! sid = Some (stopped s)).
    { unfold w2. change (sessions (suspend sid ?x)) with (sessions x).
      rewrite Hrel. cbn. rewrite list_insert_insert_eq.
      apply list_lookup_insert_eq. eapply lookup_lt_Some, Hs1. }
    assert (Hw2 : _ws (this w2) = Some (ws_close ws0)).
    { unfold w2. change (this (suspend sid ?x)) with (this x).
      rewrite Hrel. reflexivity. }
    assert (Hr2 : reporting w2 = 0).
    { unfold w2. change (reporting (suspend sid ?x)) with (reporting x).
      rewrite Hrel. reflexivity. }
    assert (Hu2 : _url (this w2) = _url (this w)).
    { unfold w2. change (this (suspend sid ?x)) with (this x).
      rewrite Hrel. reflexivity. }
    destruct (take_snoc sid (pending (release_closure sid wd))) as [rest Hp].
    destruct (resume_enabled sid (Resolved data)
                fault w2 _ rest Hs2 Hp) as [w3 H3].
    destruct (resume_socket _ _ _ _ _ _ _ _ Hw2 En H3) as (s2 & _ & Hw3 & Em3).
    destruct (resume_sessions _ _ _ _ _ H3) as (_ & Hr3 & _).
    pose proof (emitted_tick _ _ _ Ht) as (s1 & Hs1' & _ & Em2).
    assert (s1 = s) by congruence. subst s1.
    cbn [frequency release s Z.eqb andb stats] in Em2.
    change (reporting w1) with (reporting w + 1) in Em2.
    rewrite H0 in Em2. cbn [Z.add Z.ltb Z.compare Pos.compare Pos.compare_cont] in Em2.
    unfold closing in Em2.
    change (_ws (this w1)) with (_ws (this w)) in Em2.
    change (_fetch (this w1)) with (_fetch (this w)) in Em2.
    rewrite Hws, Hf in Em2.
    pose proof (extends_tick _ _ _ Ht) as E2.
    pose proof (extends_resume _ _ _ _ _ H3) as E3.
    assert (C3 : closed match ws_send fault b (ready (ws_close ws0)) with
                        | Normal ws' => ws'
                        | Throw _ => ready (ws_close ws0)
                        end = false).
    { unfold ws_send, ready. destruct fault; reflexivity. }
    eexists w1, w2, w3, _, _, _.
    split; [reflexivity|]. split; [exact Ht|]. split; [exact H3|].
    split; [change (reporting w + 1 = 1); lia|].
    split; [exact Hr2|]. split; [exact Hw2|]. split; [reflexivity|].
    split; [congruence|]. split; [exact Hw3|]. split; [exact C3|].
    split.
    { unfold channel_closed. rewrite Hw3, C3. reflexivity. }
    rewrite (emitted_split _ _ _ E2 E3), Em2, Em3, Hu2. cbn. reflexivity. }
  split; [exact Main|].
  intros Hinv.
  set (t := {| _ws := Some WebSocketReliable_new; _fetch := None;
               _url := "wss://host/metrics"; _reporting := 0 |}).
  assert (Hb : reachable (boot t)).
  { apply (reachable_boot {| protocol := "wss:"; href := "wss://host/metrics" |}).
    reflexivity. }
  destruct (Main (boot t) {| obj := 0; constructor_name := "Stats" |}
              (text "x") None "text/plain" (body_string "x")
              Hb eq_refl eq_refl eq_refl)
    as (w1 & w2 & w3 & ws2 & ws3 & post & S1 & S2 & S3 & _ & _ & _ & _
        & R3 & _ & _ & C3 & _).
  assert (Hr3 : reachable w3).
  { apply (reachable_step w2
             (Settle (length (sessions (boot t))) (Resolved (text "x")) None) w3);
      [|exact S3].
    apply (reachable_step w1 (Tick (length (sessions (boot t)))) w2);
      [|exact S2].
    apply (reachable_step (boot t) _ w1 Hb S1). }
  rewrite (Hinv w3 Hr3 R3) in C3. discriminate.
Qed.

End Properties.

(** * Sample runs *)

Lemma constructor_by_scheme_witness :
  (exists t, constructor Sample.wss = Normal t /\ kind t = socket
             /\ _ws t = Some WebSocketReliable_new) /\
  (exists t, constructor Sample.https = Normal t /\ kind t = http /\ _ws t = None) /\
  constructor Sample.ftp = Throw (error "Protocol ftp: not supported").
Proof.
  split; [|split].
  - apply (proj1 (constructor_by_scheme Sample.wss)). reflexivity.
  - apply (proj1 (proj2 (constructor_by_scheme Sample.https))). reflexivity.
  - apply (proj2 (proj2 (constructor_by_scheme Sample.ftp))); reflexivity.
Defined.

(** Two sessions over a socket: the first release leaves the socket alone,
    the second closes it. *)
Lemma reporting_gates_channel_witness :
  let w := Sample.after Sample.over_socket
             [Report Sample.streamer 1; Report Sample.player 5] in
  reporting w = 2
  /\ (reporting (releases [0%nat] w) = reporting w - 1
      /\ count is_close (emitted w (releases [0%nat] w)) = 0%nat)
  /\ (reporting (releases [0%nat; 1%nat] w) = 0
      /\ count is_close (emitted w (releases [0%nat; 1%nat] w)) = 1%nat
      /\ channel_closed (releases [0%nat; 1%nat] w) = true).
Proof.
  intros w.
  assert (Hr : reachable (P := Sample.platform) w).
  { apply (reachable_run [Report Sample.streamer 1; Report Sample.player 5]
             (boot Sample.over_socket)).
    - vm_compute. reflexivity.
    - apply (reachable_boot Sample.wss). reflexivity. }
  destruct (reporting_gates_channel (P := Sample.platform) w Hr) as (_ & _ & H).
  split; [vm_compute; reflexivity|]. split.
  - destruct (H [0%nat]) as (_ & H2 & H3 & _). split.
    + apply H2.
      * apply NoDup_singleton.
      * apply Forall_singleton. eexists. split; vm_compute; reflexivity.
    + apply H3. vm_compute. reflexivity.
  - destruct (H [0%nat; 1%nat]) as (_ & _ & _ & H4).
    split; [vm_compute; reflexivity|].
    apply H4; vm_compute; reflexivity.
Defined.

Lemma release_signal_once_witness :
  let w := Sample.after Sample.over_socket [Report Sample.streamer 1] in
  let w1 := stats_onRelease 1 w in
  run (P := Sample.platform) w (repeat (OnRelease 1) 3) = Some w1
  /\ stats_onRelease 1 w1 = w1
  /\ reporting w1 = reporting w - 1
  /\ emitted w w1
     = [ClearInterval 0; Log "Stop StreamerStats reporting"; WsClose]
  /\ count (is_clear 0) (emitted w w1) = 1%nat
  /\ sessions w1 !! 0%nat
     = Some {| stats := Sample.streamer; frequency := 1;
               release := false; interval := false |}.
Proof.
  apply (release_signal_once (P := Sample.platform)
           (Sample.after Sample.over_socket [Report Sample.streamer 1])
           1 0 {| stats := Sample.streamer; frequency := 1;
                  release := true; interval := true |} 2);
    reflexivity.
Defined.

Lemma report_once_witness :
  let w := boot Sample.over_http in
  let w1 := report (P := Sample.platform) Sample.streamer 0 w in
  (forall ls w',
      run (P := Sample.platform) w1 ls = Some w' ->
      (count (is_serialize 0) (emitted w1 w') <= 1)%nat
      /\ (length (List.filter (settles 0) ls)
          <= count (is_serialize 0) (emitted w1 w'))%nat
      /\ (sent_by (P := Sample.platform) 0 w1 ls <= 1)%nat
      /\ (forallb (fun l => negb (is_settle l) || settles 0 l) ls = true ->
          (count is_transmission (emitted w1 w') <= 1)%nat))
  /\ exists w2 w3,
      tick 0 w1 = Some w2
      /\ resume (P := Sample.platform) 0 (Resolved (text "x")) None w2 = Some w3
      /\ count (is_serialize 0) (emitted w w3) = 1%nat
      /\ count is_transmission (emitted w w3) = 1%nat
      /\ sessions w3 !! 0%nat
         = Some {| stats := Sample.streamer; frequency := 0;
                   release := false; interval := false |}
      /\ reporting w3 = reporting w
      /\ tick 0 w3 = None
      /\ forall ls w',
           run (P := Sample.platform) w3 ls = Some w' ->
           count (is_serialize 0) (emitted w3 w') = 0%nat
           /\ sent_by (P := Sample.platform) 0 w3 ls = 0%nat
           /\ tick 0 w' = None
           /\ (forall r' fault',
                 resume (P := Sample.platform) 0 r' fault' w' = None)
           /\ sessions w' !! 0%nat
              = Some {| stats := Sample.streamer; frequency := 0;
                        release := false; interval := false |}.
Proof.
  intros w w1.
  destruct (report_once (P := Sample.platform) (boot Sample.over_http)
              Sample.streamer (reachable_boot Sample.https _ eq_refl))
    as [A B].
  split.
  - intros ls w' H. destruct (A ls w' H) as (A1 & A2 & A3 & A4 & _).
    split; [exact A1|]. split; [exact A2|]. split; [exact A3|].
    intros Hall. pose proof (A4 Hall) as E.
    change (count is_transmission (emitted w1 w')
            = sent_by (P := Sample.platform) 0 w1 ls) in E.
    rewrite E. exact A3.
  - exact (B (Resolved (text "x")) None).
Defined.

(** C4: the release does not wait for the attempt.  On a socket, while the
    only session reports once, the timer is cleared and the socket closed
    before [serialize] is called: it is false that every attempt event
    comes before the clearing of the timer. *)
Lemma self_stop_after_attempt_fails :
  let w := Sample.after Sample.over_socket [Report Sample.streamer 0] in
  exists w2 w3,
    tick 0 w = Some w2
    /\ resume (P := Sample.platform) 0 (Resolved (text "x")) None w2
       = Some w3
    /\ emitted w w3
       = [ClearInterval 0; Log "Stop StreamerStats reporting"; WsClose;
          Serialize 0; WsOpen "wss://host/metrics"; WsSend (body_string "x")]
    /\ all_before (is_attempt 0) (is_clear 0) (emitted w w3) = false.
Proof.
  eexists. eexists.
  split; [vm_compute; reflexivity|].
  split; [vm_compute; reflexivity|].
  split; vm_compute; reflexivity.
Qed.

Lemma self_stop_precedes_attempt_witness :
  let w := Sample.after Sample.over_http [Report Sample.streamer 0] in
  let w2 := Sample.after Sample.over_http [Report Sample.streamer 0; Tick 0] in
  let w3 := Sample.after Sample.over_http
              [Report Sample.streamer 0; Tick 0;
               Settle 0 (Resolved (text "x")) None] in
  reporting w2 = reporting w - 1
  /\ sessions w2 !! 0%nat
     = Some {| stats := Sample.streamer; frequency := 0;
               release := false; interval := false |}
  /\ exists post,
      emitted w w3
      = [ClearInterval 0; Log "Stop StreamerStats reporting"]
          ++ Serialize 0 :: post
      /\ forallb of_send post = true
      /\ count (is_clear 0) post = 0%nat.
Proof.
  intros w w2 w3.
  apply (self_stop_precedes_attempt (P := Sample.platform)
           w w2 w3 0 {| stats := Sample.streamer; frequency := 0;
                        release := true; interval := true |}
           (Resolved (text "x")) None); vm_compute; reflexivity.
Defined.

(** C6: a tick that meets a source that is not ready can still change the
    session and the counter, namely when the session reports once: here the
    counter goes from 1 to 0, the session is stopped, the stop is logged
    and the socket is closed. *)
Lemma not_ready_tick_changes_counter :
  let w := Sample.after Sample.over_socket [Report Sample.streamer 0] in
  exists w2 w3,
    tick 0 w = Some w2
    /\ truthy undefined = false
    /\ resume (P := Sample.platform) 0 (Rejected undefined) None w2
       = Some w3
    /\ reporting w = 1 /\ reporting w3 = 0
    /\ sessions w !! 0%nat
       = Some {| stats := Sample.streamer; frequency := 0;
                 release := true; interval := true |}
    /\ sessions w3 !! 0%nat
       = Some {| stats := Sample.streamer; frequency := 0;
                 release := false; interval := false |}
    /\ emitted w w3
       = [ClearInterval 0; Log "Stop StreamerStats reporting"; WsClose;
          Serialize 0].
Proof.
  eexists. eexists.
  split; [vm_compute; reflexivity|].
  split; [reflexivity|].
  split; [vm_compute; reflexivity|].
  repeat split; vm_compute; reflexivity.
Qed.

(** A session with a period over HTTP, and a session that reports once
    over a socket. *)
Lemma not_ready_is_silent_witness :
  (let w := Sample.after Sample.over_http [Report Sample.streamer 2] in
   let w3 := Sample.after Sample.over_http
               [Report Sample.streamer 2; Tick 0;
                Settle 0 (Rejected undefined) None] in
   count is_transmission (emitted w w3) = 0%nat
   /\ count is_error (emitted w w3) = 0%nat
   /\ this w3 = this w /\ sessions w3 = sessions w
   /\ requests w3 = requests w /\ emitted w w3 = [Serialize 0])
  /\ (let w := Sample.after Sample.over_socket [Report Sample.streamer 0] in
      let w3 := Sample.after Sample.over_socket
                  [Report Sample.streamer 0; Tick 0;
                   Settle 0 (Rejected undefined) None] in
      count is_transmission (emitted w w3) = 0%nat
      /\ count is_error (emitted w w3) = 0%nat
      /\ emitted w w3
         = [ClearInterval 0; Log "Stop StreamerStats reporting"; WsClose;
            Serialize 0]
      /\ reporting w3 = reporting w - 1
      /\ sessions w3 !! 0%nat
         = Some {| stats := Sample.streamer; frequency := 0;
                   release := false; interval := false |}
      /\ channel_closed w3 = true).
Proof.
  split.
  - intros w w3.
    destruct (not_ready_is_silent (P := Sample.platform)
                w (Sample.after Sample.over_http
                     [Report Sample.streamer 2; Tick 0]) w3 0
                {| stats := Sample.streamer; frequency := 2;
                   release := true; interval := true |}
                undefined None) as (A & B & _ & D & _);
      try (vm_compute; reflexivity).
    destruct D as (D1 & D2 & D3 & D4); [discriminate|]. auto 6.
  - intros w w3.
    destruct (not_ready_is_silent (P := Sample.platform)
                w (Sample.after Sample.over_socket
                     [Report Sample.streamer 0; Tick 0]) w3 0
                {| stats := Sample.streamer; frequency := 0;
                   release := true; interval := true |}
                undefined None) as (A & B & _ & _ & D);
      try (vm_compute; reflexivity).
    destruct D as (_ & D2 & D3 & D4 & D5); [reflexivity| |].
    { apply (reachable_run [Report Sample.streamer 0]
               (boot Sample.over_socket)).
      - vm_compute. reflexivity.
      - apply (reachable_boot Sample.wss). reflexivity. }
    split; [exact A|]. split; [exact B|]. split; [exact D2|].
    split; [exact D3|]. split; [exact D4|].
    apply D5. vm_compute. reflexivity.
Defined.

(** C7.  On the HTTP channel a payload is posted and the POST then fails
    in the network: the request is marked failed, but no error line is
    logged, although a failed transmission should end as an error line with
    the name of the source; nothing else of the world changes either. *)
Theorem http_failure_goes_unlogged :
  let w := Sample.after Sample.over_http
             [Report Sample.streamer 1; Tick 0;
              Settle 0 (Resolved (text "sample")) None] in
  exists w',
    step (P := Sample.platform) w (NetworkError 0) = Some w'
    /\ requests w' !! 0%nat
       = Some {| signal := 0; payload := body_string "sample";
                 content_type := "text/plain"; status := Failed |}
    /\ trace w' = trace w
    /\ trace w'
       = [SetInterval 0 1000;
          Log "Start StreamerStats reporting every 1 seconds";
          Serialize 0;
          Fetch 0 "https://host/metrics" "text/plain" (body_string "sample")]
    /\ count is_error (trace w') = 0%nat
    /\ sessions w' = sessions w /\ this w' = this w.
Proof.
  eexists. split; [vm_compute; reflexivity|].
  repeat split; vm_compute; reflexivity.
Qed.

(** C8: the abort does not keep the earlier payload from the server.  Two
    ticks are suspended; the first payload is posted and its body arrives
    while the request is still under way; the second send aborts that
    request and posts the second payload, which arrives too: the server has
    both. *)
Lemma first_payload_reaches_server :
  let w := Sample.after Sample.over_http
             [Report Sample.streamer 1; Tick 0; Tick 0] in
  exists w1 w1' w2 w3,
    resume (P := Sample.platform) 0 (Resolved (text "first")) None w = Some w1
    /\ step (P := Sample.platform) w1 (Arrive 0) = Some w1'
    /\ requests w1' !! 0%nat = Some (post 0 "text/plain" (body_string "first"))
    /\ resume (P := Sample.platform) 0 (Resolved (text "second")) None w1'
       = Some w2
    /\ emitted w1' w2
       = [Abort 0;
          Fetch 1 "https://host/metrics" "text/plain" (body_string "second")]
    /\ aborted 0 (body_string "first") w2
    /\ step (P := Sample.platform) w2 (Arrive 1) = Some w3
    /\ received w3 = [body_string "first"; body_string "second"].
Proof.
  eexists. eexists. eexists. eexists.
  split; [vm_compute; reflexivity|].
  split; [vm_compute; reflexivity|].
  split; [vm_compute; reflexivity|].
  split; [vm_compute; reflexivity|].
  split; [vm_compute; reflexivity|].
  split; [eexists; repeat split; vm_compute; reflexivity|].
  split; vm_compute; reflexivity.
Qed.

Lemma later_send_aborts_earlier_witness :
  let w := Sample.after Sample.over_http
             [Report Sample.streamer 1; Report Sample.player 1; Tick 0; Tick 1] in
  let w1 := Sample.after Sample.over_http
             [Report Sample.streamer 1; Report Sample.player 1; Tick 0; Tick 1;
              Settle 0 (Resolved (text "first")) None] in
  let w1' := Sample.after Sample.over_http
             [Report Sample.streamer 1; Report Sample.player 1; Tick 0; Tick 1;
              Settle 0 (Resolved (text "first")) None; Arrive 0] in
  let w2 := Sample.after Sample.over_http
             [Report Sample.streamer 1; Report Sample.player 1; Tick 0; Tick 1;
              Settle 0 (Resolved (text "first")) None; Arrive 0;
              Settle 1 (Resolved (text "second")) None] in
  requests w1 !! 0%nat = Some (post 0 "text/plain" (body_string "first"))
  /\ emitted w1' w2
     = [Abort 0; Fetch 1 "https://host/metrics" "text/plain" (body_string "second")]
  /\ aborted 0 (body_string "first") w2
  /\ requests w2 !! 1%nat = Some (post 1 "text/plain" (body_string "second"))
  /\ arrived w2 = [0%nat]
  /\ forall ls' w',
      run (P := Sample.platform) w2 ls' = Some w' ->
      aborted 0 (body_string "first") w'
      /\ step (P := Sample.platform) w' (Respond 0) = None
      /\ step (P := Sample.platform) w' (NetworkError 0) = None
      /\ body_string "first" ∈ received w'.
Proof.
  intros w w1 w1' w2.
  assert (H1 : resume (P := Sample.platform) 0 (Resolved (text "first")) None w
               = Some w1) by (vm_compute; reflexivity).
  assert (Hrun : run (P := Sample.platform) w1 [Arrive 0] = Some w1')
    by (vm_compute; reflexivity).
  assert (Hfl : exists r, requests w1' !! length (requests w) = Some r
                          /\ status r = InFlight)
    by (eexists; split; vm_compute; reflexivity).
  assert (H2 : resume (P := Sample.platform) 1 (Resolved (text "second")) None
                 w1' = Some w2) by (vm_compute; reflexivity).
  destruct (later_send_aborts_earlier (P := Sample.platform)
              w w1 w1' w2 0 1 (text "first") (text "second")
              "text/plain" "text/plain"
              (body_string "first") (body_string "second")
              None None [Arrive 0] eq_refl eq_refl eq_refl H1 Hrun Hfl H2)
    as (A & B & C & D & E & F).
  split; [exact A|]. split; [exact B|]. split; [exact C|]. split; [exact D|].
  split; [exact E|].
  intros ls' w' H. destruct (F ls' w' H) as (F1 & F2 & F3 & F4).
  split; [exact F1|]. split; [exact F2|]. split; [exact F3|].
  apply F4. vm_compute. apply list_elem_of_here.
Defined.

(** A payload was queued, the connection was lost, and the next tick
    sends: the socket is opened again and only the new payload is queued. *)
Lemma socket_send_fresh_witness :
  let w := Sample.after Sample.over_socket
             [Report Sample.streamer 1; Tick 0;
              Settle 0 (Resolved (text "stale")) None; SocketDown; Tick 0] in
  let w' := Sample.after Sample.over_socket
             [Report Sample.streamer 1; Tick 0;
              Settle 0 (Resolved (text "stale")) None; SocketDown; Tick 0;
              Settle 0 (Resolved (text "fresh")) None] in
  _ws (this w)
  = Some {| closed := true; opened := false;
            queueing := [body_string "stale"]; wire := [] |}
  /\ exists ws' post,
      _ws (this w') = Some ws'
      /\ closed ws' = false
      /\ emitted w w'
         = WsOpen "wss://host/metrics" :: WsSend (body_string "fresh") :: post
      /\ queueing ws' = [body_string "fresh"]
      /\ wire ws' = [].
Proof.
  intros w w'. split; [vm_compute; reflexivity|].
  destruct (socket_send_fresh (P := Sample.platform) w w' 0
              (text "fresh") None
              {| closed := true; opened := false;
                 queueing := [body_string "stale"]; wire := [] |}
              "text/plain" (body_string "fresh"))
    as (ws' & post & A & B & C & _ & E);
    try (vm_compute; reflexivity).
  destruct (E eq_refl) as [E1 E2].
  exists ws', post. repeat split; assumption.
Defined.

Lemma one_shot_leaves_socket_open_witness :
  let w := boot Sample.over_socket in
  exists w1 w2 w3 ws2 ws3 post,
    step (P := Sample.platform) w (Report Sample.streamer 0) = Some w1
    /\ tick 0 w1 = Some w2
    /\ resume (P := Sample.platform) 0 (Resolved (text "x")) None w2
       = Some w3
    /\ reporting w1 = 1
    /\ reporting w2 = 0 /\ _ws (this w2) = Some ws2 /\ closed ws2 = true
    /\ reporting w3 = 0 /\ _ws (this w3) = Some ws3 /\ closed ws3 = false
    /\ channel_closed w3 = false
    /\ emitted w1 w3
       = [ClearInterval 0; Log "Stop StreamerStats reporting";
          WsClose; Serialize 0;
          WsOpen "wss://host/metrics"; WsSend (body_string "x")] ++ post.
Proof.
  apply (proj1 (one_shot_leaves_socket_open (P := Sample.platform))
           (boot Sample.over_socket) Sample.streamer (text "x") None
           "text/plain" (body_string "x")).
  - apply (reachable_boot Sample.wss). reflexivity.
  - reflexivity.
  - reflexivity.
  - reflexivity.
Defined.

(** * Further properties *)

Section Further.

Context {P : Platform}.

(** ** Failures of [serialize] *)

(** X1.  When the promise of [serialize] is rejected, the tick logs one
    error line with the name of the source and the stringified reason if
    the reason is truthy, and logs nothing if it is falsy ([undefined],
    [null], [false], [0], the empty string); in both cases nothing is
    transmitted and the object, the sessions and the requests stay as they
    were. *)
Theorem serialize_failure_logged (w w' : world) (sid : nat) (s : session)
    (e : value) (fault : option value) :
  sessions w !! sid = Some s ->
  resume sid (Rejected e) fault w = Some w' ->
  emitted w w'
  = (if truthy e
     then [Error (constructor_name (stats s) ++ " error, " ++ Util_stringify e)]
     else [])
  /\ count is_transmission (emitted w w') = 0%nat
  /\ this w' = this w /\ sessions w' = sessions w /\ requests w' = requests w.
Proof.
  intros Hs H.
  pose proof (resume_transmits _ _ _ _ _ H) as Ht.
  apply resume_inv in H as (s' & rest & Hs' & _ & ->).
  assert (s' = s) by congruence. subst s'.
  rewrite _send_rejected in Ht |- *.
  split; [|split; [exact Ht|]].
  - destruct (truthy e); cbn.
    + apply emitted_app. reflexivity.
    + apply emitted_same. reflexivity.
  - destruct (truthy e); repeat split.
Qed.

(** X2.  When the socket primitive throws during a send, the tick logs
    one error line with the name of the source after the calls on the
    socket; the sessions and the counter stay as they were, and the socket
    is left open with an empty queue. *)
Theorem socket_fault_logged (w w' : world) (sid : nat) (s : session)
    (data e : value) (ws : WebSocketReliable) (m : string) (b : body) :
  sessions w !! sid = Some s -> _ws (this w) = Some ws ->
  encode data = Normal (m, b) ->
  resume sid (Resolved data) (Some e) w = Some w' ->
  emitted w w'
  = (if closed ws then [WsOpen (_url (this w))] else [])
      ++ [WsSend b;
          Error (constructor_name (stats s) ++ " error, " ++ Util_stringify e)]
  /\ sessions w' = sessions w /\ reporting w' = reporting w
  /\ exists ws', _ws (this w') = Some ws' /\ closed ws' = false
                 /\ queueing ws' = [] /\ wire ws' = wire ws.
Proof.
  intros Hs Hws En H.
  destruct (resume_socket _ _ _ _ _ _ _ _ Hws En H) as (s' & Hs' & Hw' & Em).
  assert (s' = s) by congruence. subst s'.
  destruct (resume_sessions _ _ _ _ _ H) as (Hss & Hr & _).
  cbn [ws_send] in Hw', Em.
  split; [exact Em|]. split; [exact Hss|]. split; [exact Hr|].
  exists (ready ws). split; [exact Hw'|].
  unfold ready. destruct (closed ws) eqn:C; cbn; auto.
Qed.

(** ** After the release *)

Lemma unarmed_step (sid : nat) (w w' : world) (l : label) (s : session) :
  sessions w !! sid = Some s -> interval s = false ->
  step w l = Some w' ->
  count (is_serialize sid) (emitted w w') = 0%nat
  /\ exists s', sessions w' !! sid = Some s' /\ fades s s'.
Proof.
  intros Hs Hi H. split; [|eapply step_fades; eassumption].
  rewrite (step_serializes sid _ _ _ H).
  destruct l; try reflexivity.
  destruct (Nat.eqb_spec sid0 sid) as [->|]; [|reflexivity].
  cbn in H. destruct (tick_inv _ _ _ H) as (s0 & Hs0 & Hi0). congruence.
Qed.

Lemma unarmed_run (sid : nat) (ls : list label) (w w' : world) (s : session) :
  sessions w !! sid = Some s -> interval s = false ->
  run w ls = Some w' ->
  count (is_serialize sid) (emitted w w') = 0%nat
  /\ exists s', sessions w' !! sid = Some s' /\ fades s s'.
Proof.
  revert w s. induction ls as [|l ls IH]; intros w s Hs Hi; cbn.
  - intros H. injection H as <-. rewrite emitted_refl.
    split; [reflexivity|]. exists s. split; [exact Hs|apply fades_refl].
  - destruct (step w l) as [w1|] eqn:E; [|discriminate]. intros H.
    destruct (unarmed_step sid _ _ _ _ Hs Hi E) as (C1 & s1 & Hs1 & F1).
    assert (Hi1 : interval s1 = false).
    { destruct F1 as (_ & _ & _ & F). destruct (interval s1); [|reflexivity].
      rewrite (F eq_refl) in Hi. discriminate. }
    destruct (IH w1 s1 Hs1 Hi1 H) as (C2 & s2 & Hs2 & F2).
    split.
    + rewrite (emitted_split w w1 w' (extends_step _ _ _ E) (extends_run _ _ _ H)).
      rewrite count_app, C1, C2. reflexivity.
    + exists s2. split; [exact Hs2|]. eapply fades_trans; eassumption.
Qed.

(** X3.  Once the release closure of a session has run, the session never
    calls [serialize] again, whatever its frequency and whatever happens
    later: its timer cannot fire and its closure stays consumed. *)
Theorem released_never_serializes (w w' : world) (sid : nat) (s : session)
    (ls : list label) :
  sessions w !! sid = Some s -> release s = true ->
  run (release_closure sid w) ls = Some w' ->
  count (is_serialize sid) (emitted (release_closure sid w) w') = 0%nat
  /\ tick sid w' = None
  /\ exists s', sessions w' !! sid = Some s'
                /\ release s' = false /\ interval s' = false.
Proof.
  intros Hs Hr H.
  assert (Hs1 : sessions (release_closure sid w) !! sid = Some (stopped s)).
  { rewrite (release_closure_live _ _ _ Hs Hr). cbn.
    apply list_lookup_insert_eq. eapply lookup_lt_Some, Hs. }
  destruct (unarmed_run sid ls _ _ _ Hs1 eq_refl H)
    as (C & s' & Hs' & (_ & _ & F3 & F4)).
  assert (R' : release s' = false)
    by (destruct (release s'); [discriminate (F3 eq_refl)|reflexivity]).
  assert (I' : interval s' = false)
    by (destruct (interval s'); [discriminate (F4 eq_refl)|reflexivity]).
  split; [exact C|]. split.
  - apply tick_unarmed. intros s0 H0. congruence.
  - exists s'. auto.
Qed.

(** X4.  The release does not cancel a tick that is suspended at
    [serialize]: whichever closure ran, the continuation still runs when
    the promise resolves; it transmits the payload when the payload can be
    encoded, and logs what [JSON.stringify] threw when it cannot.  The
    counter stays as the release left it. *)
Theorem suspended_tick_survives_release (w : world) (sid sid' : nat)
    (s : session) (rest : list nat) (data : value) (fault : option value) :
  sessions w !! sid = Some s -> take sid (pending w) = Some rest ->
  exists w',
    resume sid (Resolved data) fault (release_closure sid' w) = Some w'
    /\ match encode data with
       | Normal _ =>
           count is_transmission (emitted (release_closure sid' w) w') = 1%nat
       | Throw e =>
           emitted (release_closure sid' w) w'
           = [Error (constructor_name (stats s) ++ " error, "
                       ++ Util_stringify e)]
       end
    /\ reporting w' = reporting (release_closure sid' w).
Proof.
  intros Hs Hp.
  destruct (release_fades sid sid' w s Hs) as (s1 & Hs1 & (Hst & _)).
  assert (Hp1 : take sid (pending (release_closure sid' w)) = Some rest)
    by (rewrite release_pending; exact Hp).
  destruct (resume_enabled sid (Resolved data) fault _ s1 rest Hs1 Hp1) as [w' H].
  exists w'. split; [exact H|]. split.
  - pose proof (resume_transmits _ _ _ _ _ H) as T. unfold transmits in T.
    destruct (encode data) as [[m b]|e] eqn:En; [exact T|].
    pose proof (resume_inv _ _ _ _ _ H) as (s' & rest' & Hs' & _ & ->).
    assert (s' = s1) by congruence. subst s'.
    rewrite (_send_unencodable _ _ _ _ En), Hst.
    apply emitted_app. reflexivity.
  - apply (resume_sessions _ _ _ _ _ H).
Qed.

(** ** Sessions with a period *)

(** X5.  The timer of a session with a period can fire any number of
    times: each firing calls [serialize] once without waiting for the
    earlier promises, and changes neither the object nor the sessions. *)
Theorem periodic_ticks_repeat (w : world) (sid : nat) (s : session) (n : nat) :
  sessions w !! sid = Some s -> interval s = true -> frequency s <> 0 ->
  exists w',
    run w (repeat (Tick sid) n) = Some w'
    /\ emitted w w' = repeat (Serialize sid) n
    /\ this w' = this w /\ sessions w' = sessions w
    /\ requests w' = requests w
    /\ pending w' = pending w ++ repeat sid n.
Proof.
  intros Hs Hi Hf. revert w Hs. induction n as [|n IH]; intros w Hs.
  - exists w. cbn. rewrite emitted_refl, app_nil_r. repeat split.
  - destruct (IH (suspend sid w) Hs) as (w' & Hrun & Em & Ht & Hss & Hq & Hp).
    exists w'. cbn [repeat run step].
    rewrite (tick_periodic _ _ _ Hs Hi Hf). split; [exact Hrun|].
    split.
    { assert (E1 : extends w (suspend sid w))
        by (apply (extends_intro _ _ [Serialize sid]); reflexivity).
      rewrite (emitted_split w (suspend sid w) w' E1 (extends_run _ _ _ Hrun)).
      rewrite Em.
      assert (E0 : emitted w (suspend sid w) = [Serialize sid])
        by (apply emitted_app; reflexivity).
      rewrite E0. reflexivity. }
    split; [exact Ht|]. split; [exact Hss|]. split; [exact Hq|].
    rewrite Hp. cbn. rewrite <- app_assoc. reflexivity.
Qed.

(** ** Reporting a source *)

Lemma report_installs (st : IStats) (freq : Z) (w : world) :
  let w1 := report st freq w in
  callbacks w1 !! obj st = Some (length (sessions w))
  /\ sessions w1 !! length (sessions w)
     = Some {| stats := st; frequency := freq;
               release := true; interval := true |}
  /\ (forall i s, sessions w !! i = Some s -> sessions w1 !! i = Some s)
  /\ reporting w1 = reporting w + 1
  /\ length (sessions w1) = S (length (sessions w)).
Proof.
  unfold report. cbn. split; [apply lookup_insert_eq|].
  split; [apply list_lookup_middle; reflexivity|].
  split; [intros i s Hs; apply lookup_app_l_Some, Hs|].
  split; [reflexivity|]. rewrite length_app. cbn. lia.
Qed.

(** X6.  [report] wires the error and the log callback of the source to
    the error sink of the reporter: an error of the source is logged as
    its name, [" error, "] and the message, a log line of the source as its
    name, [", "] and the line, both through [onError]; neither changes the
    object or the sessions.  A source that was never reported reaches
    nothing. *)
Theorem source_callbacks_forward (w : world) (st : IStats) (freq : Z)
    (msg : string) :
  let w1 := report st freq w in
  (emitted w1 (stats_onError (obj st) msg w1)
   = [Error (constructor_name st ++ " error, " ++ msg)]
   /\ this (stats_onError (obj st) msg w1) = this w1
   /\ sessions (stats_onError (obj st) msg w1) = sessions w1)
  /\ (emitted w1 (stats_onLog (obj st) msg w1)
      = [Error (constructor_name st ++ ", " ++ msg)]
      /\ this (stats_onLog (obj st) msg w1) = this w1
      /\ sessions (stats_onLog (obj st) msg w1) = sessions w1)
  /\ (forall o, callbacks w !! o = None ->
        stats_onError o msg w = w /\ stats_onLog o msg w = w
        /\ stats_onRelease o w = w).
Proof.
  intros w1.
  destruct (report_installs st freq w) as (Hc & Hs & _). fold w1 in Hc, Hs.
  unfold stats_onError, stats_onLog, stats_onRelease. rewrite Hc, Hs.
  split; [|split].
  - split; [apply emitted_app; reflexivity|]. split; reflexivity.
  - split; [apply emitted_app; reflexivity|]. split; reflexivity.
  - intros o ->. repeat split.
Qed.

(** X7.  When the same source object is reported twice, its release
    signal belongs to the second report only: however often the source
    calls it, the counter drops once, the first session keeps its closure
    and its timer, and the channel is not closed. *)
Theorem second_report_orphans_first (w : world) (st : IStats) (f1 f2 : Z)
    (n : nat) :
  0 <= reporting w ->
  let sid1 := length (sessions w) in
  let w2 := report st f2 (report st f1 w) in
  exists w',
    run w2 (repeat (OnRelease (obj st)) (S n)) = Some w'
    /\ reporting w2 = reporting w + 2
    /\ reporting w' = reporting w + 1
    /\ sessions w' !! sid1
       = Some {| stats := st; frequency := f1;
                 release := true; interval := true |}
    /\ sessions w' !! S sid1
       = Some {| stats := st; frequency := f2;
                 release := false; interval := false |}
    /\ count is_close (emitted w2 w') = 0%nat.
Proof.
  intros H0 sid1 w2. subst w2.
  set (wa := report st f1 w).
  destruct (report_installs st f1 w) as (_ & Ha & _ & Hra & Hla).
  fold wa sid1 in Ha, Hra, Hla.
  destruct (report_installs st f2 wa) as (Hc & Hb & Hkeep & Hrb & _).
  set (w2 := report st f2 wa) in *. rewrite Hla in Hc, Hb.
  set (s2 := {| stats := st; frequency := f2; release := true; interval := true |}) in *.
  pose proof (release_closure_live (S sid1) w2 s2 Hb eq_refl) as Hlive.
  assert (Hgt : (1 <? reporting w2) = true).
  { apply Z.ltb_lt. lia. }
  rewrite Hgt in Hlive.
  set (w' := release_closure (S sid1) w2) in *.
  assert (Hs2' : sessions w' !! S sid1 = Some (stopped s2)).
  { rewrite Hlive. cbn. apply list_lookup_insert_eq. eapply lookup_lt_Some, Hb. }
  assert (Hcb' : callbacks w' !! obj st = Some (S sid1)) by (rewrite Hlive; exact Hc).
  assert (Hfix : stats_onRelease (obj st) w' = w').
  { unfold stats_onRelease. rewrite Hcb'. apply release_closure_consumed.
    intros s0 Hs0. rewrite Hs2' in Hs0. injection Hs0 as <-. reflexivity. }
  exists w'. split.
  { cbn [repeat run step]. unfold stats_onRelease at 1. rewrite Hc. fold w'.
    apply run_repeat_fixed. cbn. rewrite Hfix. reflexivity. }
  split; [lia|]. split; [rewrite Hlive; change (reporting w2 - 1 = reporting w + 1); lia|].
  split.
  { rewrite Hlive. cbn. rewrite list_lookup_insert_ne by lia.
    apply Hkeep, Ha. }
  split; [exact Hs2'|].
  assert (Em : emitted w2 w'
               = [ClearInterval (S sid1);
                  Log ("Stop " ++ constructor_name st ++ " reporting")])
    by (apply emitted_app; rewrite Hlive; reflexivity).
  rewrite Em. reflexivity.
Qed.

(** ** The wire encoding *)

(** X8.  On the HTTP channel a payload is encoded before anything is
    done to the connection.  When [JSON.stringify] throws, the tick logs
    the exception with the name of the source and touches neither the
    controller nor the requests: the request that was under way stays
    under way.  Otherwise the request that is posted is the last one, goes
    to the URL of the object, and its header tells the server how to read
    the body: [application/octet-stream] exactly for a binary body, which
    is the [ArrayBuffer] itself; [text/plain] only for a payload that was a
    string, sent as it is; and [application/json] only for what
    [JSON.stringify] returned, which is no body at all when it returned
    [undefined]. *)
Theorem posted_content_type (w w' : world) (sid : nat) (s : session)
    (data : value) (fault : option value) :
  _ws (this w) = None ->
  sessions w !! sid = Some s ->
  resume sid (Resolved data) fault w = Some w' ->
  match encode data with
  | Throw e =>
      emitted w w'
      = [Error (constructor_name (stats s) ++ " error, " ++ Util_stringify e)]
      /\ this w' = this w /\ requests w' = requests w
      /\ JSON_stringify data = Throw e
  | Normal _ =>
      exists r,
        last (requests w') = Some r /\ status r = InFlight
        /\ Some (Fetch (signal r) (_url (this w)) (content_type r) (payload r))
           = last (emitted w w')
        /\ count is_error (emitted w w') = 0%nat
        /\ (is_buffer (payload r) = true
            <-> content_type r = "application/octet-stream")
        /\ (forall bytes, payload r = body_buffer bytes ->
                          data = array_buffer bytes)
        /\ (content_type r = "text/plain" ->
            exists str, data = text str /\ payload r = body_string str)
        /\ (content_type r = "application/json" ->
            JSON_stringify data
            = Normal match payload r with
                     | body_string str => Some str
                     | _ => None
                     end)
  end.
Proof.
  intros Hn Hs H.
  destruct (encode data) as [[m b]|e] eqn:En.
  - destruct (resume_http _ _ _ _ _ _ _ Hn En H) as (_ & Q & Em & _).
    exists (post (controllers w) m b).
    split; [rewrite Q; apply last_snoc|]. split; [reflexivity|].
    split; [rewrite Em; symmetry; apply last_snoc|].
    split.
    { rewrite Em. destruct (_fetch (this w)); reflexivity. }
    cbn [post payload content_type].
    unfold encode in En.
    destruct data; try (injection En as <- <-);
      try (destruct (JSON_stringify _) as [[str|]|x] eqn:J;
           [injection En as <- <-|injection En as <- <-|discriminate]);
      cbn; (split; [split; intros; discriminate || reflexivity|]);
      (split; [intros ? Hb; inversion Hb; reflexivity|]);
      (split; [intros; discriminate || eauto|]);
      intros; discriminate || reflexivity.
  - pose proof (resume_inv _ _ _ _ _ H) as (s' & rest & Hs' & _ & ->).
    assert (s' = s) by congruence. subst s'.
    rewrite (_send_unencodable _ _ _ _ En).
    split; [apply emitted_app; reflexivity|]. split; [reflexivity|].
    split; [reflexivity|].
    unfold encode in En.
    destruct data; try discriminate;
      destruct (JSON_stringify _) as [[str|]|x]; try discriminate;
      injection En as <-; reflexivity.
Qed.

(** ** What each callback can emit *)

Lemma release_may_emit (sid : nat) (w : world) (l : label) :
  (exists o, l = OnRelease o) \/ (exists i, l = Tick i) ->
  forallb (may_emit (this w) l) (emitted w (release_closure sid w)) = true.
Proof.
  intros Hl.
  destruct (live_dec w sid) as [(s & Hs & Hr)|Hd].
  2: { rewrite (release_closure_dead _ _ Hd), emitted_refl. reflexivity. }
  rewrite (emitted_release_live _ _ _ Hs Hr).
  assert (Hc : forallb (may_emit (this w) l) (closing (this w)) = true).
  { unfold closing, may_emit, has_socket, holds.
    destruct Hl as [[o ->]|[i ->]];
      destruct (_ws (this w)), (_fetch (this w)); cbn;
      rewrite ?Nat.eqb_refl; reflexivity. }
  destruct Hl as [[o ->]|[i ->]]; cbn;
    (destruct (1 <? reporting w); [reflexivity|exact Hc]).
Qed.

Lemma step_may_emit (w w' : world) (l : label) :
  step w l = Some w' ->
  forallb (may_emit (this w) l) (emitted w w') = true.
Proof.
  intros H. destruct l; cbn in H.
  - injection H as <-. rewrite emitted_report. destruct (freq =? 0); reflexivity.
  - injection H as <-. unfold stats_onRelease.
    destruct (callbacks w !! o); [|rewrite emitted_refl; reflexivity].
    apply release_may_emit. eauto.
  - injection H as <-. unfold stats_onError.
    destruct (callbacks w !! o) as [i|]; [|rewrite emitted_refl; reflexivity].
    destruct (sessions w !! i); [|rewrite emitted_refl; reflexivity].
    rewrite emitted_emit. reflexivity.
  - injection H as <-. unfold stats_onLog.
    destruct (callbacks w !! o) as [i|]; [|rewrite emitted_refl; reflexivity].
    destruct (sessions w !! i); [|rewrite emitted_refl; reflexivity].
    rewrite emitted_emit. reflexivity.
  - destruct (emitted_tick _ _ _ H) as (s & Hs & Hi & ->).
    rewrite forallb_app. apply andb_true_intro. split.
    + destruct ((frequency s =? 0) && release s); [|reflexivity].
      cbn [forallb may_emit andb].
      destruct (1 <? reporting w); [reflexivity|].
      unfold closing, may_emit, has_socket, holds.
      destruct (_ws (this w)), (_fetch (this w)); cbn;
        rewrite ?Nat.eqb_refl; reflexivity.
    + cbn. rewrite Nat.eqb_refl. reflexivity.
  - destruct (emitted_resume _ _ _ _ _ H) as (s & rest & _ & _ & ->).
    rewrite forallb_app. apply andb_true_intro. split.
    + destruct r as [data|e]; [|rewrite emitted_send_rejected; reflexivity].
      destruct (encode data) as [[m b]|e] eqn:En;
        [|rewrite (emitted_send_unencodable _ _ _ _ En); reflexivity].
      change (this w) with (this (set_pending rest w)).
      destruct (_ws (this (set_pending rest w))) as [ws|] eqn:Hws.
      * rewrite (emitted_send_socket _ _ _ _ _ _ Hws En).
        unfold may_emit, has_socket. rewrite Hws.
        destruct (closed ws); cbn; rewrite ?String.eqb_refl; reflexivity.
      * rewrite (emitted_send_http _ _ _ _ _ Hws En).
        unfold may_emit, has_socket, holds. rewrite Hws.
        destruct (_fetch (this (set_pending rest w))); cbn;
          rewrite ?String.eqb_refl, ?Nat.eqb_refl; reflexivity.
    + destruct (_send r fault (set_pending rest w)).1; reflexivity.
  - destruct (_ws (this w)); [|discriminate]. injection H as <-.
    rewrite emitted_same; reflexivity.
  - destruct (_ws (this w)); [|discriminate]. injection H as <-.
    rewrite emitted_same; reflexivity.
  - apply arrive_inv in H as (_ & _ & ->). rewrite emitted_same; reflexivity.
  - apply respond_inv in H as [_ H].
    apply answer_inv in H as (r & _ & _ & ->). rewrite emitted_same; reflexivity.
  - apply answer_inv in H as (r & _ & _ & ->). rewrite emitted_same; reflexivity.
Qed.

(** The URL and the kind of channel are fixed at construction. *)
Lemma step_identity (w w' : world) (l : label) :
  step w l = Some w' ->
  _url (this w') = _url (this w)
  /\ has_socket (this w') = has_socket (this w).
Proof.
  intros H. unfold has_socket. destruct l; cbn in H.
  - injection H as <-. split; reflexivity.
  - injection H as <-. unfold stats_onRelease.
    destruct (callbacks w !! o) as [sid|]; [|split; reflexivity].
    destruct (live_dec w sid) as [(s & Hs & Hr)|Hd].
    + rewrite (release_closure_live _ _ _ Hs Hr). cbn.
      destruct (1 <? reporting w), (_ws (this w)); split; reflexivity.
    + rewrite (release_closure_dead _ _ Hd). split; reflexivity.
  - injection H as <-. unfold stats_onError.
    destruct (callbacks w !! o) as [j|]; [|split; reflexivity].
    destruct (sessions w !! j); split; reflexivity.
  - injection H as <-. unfold stats_onLog.
    destruct (callbacks w !! o) as [j|]; [|split; reflexivity].
    destruct (sessions w !! j); split; reflexivity.
  - destruct (tick_inv _ _ _ H) as (s & Hs & Hi).
    destruct (Z.eq_dec (frequency s) 0) as [Hf|Hf].
    + rewrite (tick_once _ _ _ Hs Hi Hf) in H. injection H as <-. cbn zeta.
      change (this (suspend sid ?x)) with (this x).
      destruct (release s) eqn:Hr; [|split; reflexivity].
      set (wd := set_sessions (<[sid := disarmed s]> (sessions w)) w).
      assert (Hd : sessions wd !! sid = Some (disarmed s)).
      { cbn. apply list_lookup_insert_eq. eapply lookup_lt_Some, Hs. }
      rewrite (release_closure_live sid wd (disarmed s) Hd Hr). cbn.
      destruct (1 <? reporting wd), (_ws (this w)); split; reflexivity.
    + rewrite (tick_periodic _ _ _ Hs Hi Hf) in H. injection H as <-.
      split; reflexivity.
  - apply resume_inv in H as (s & rest & _ & _ & ->).
    assert (Hq : _url (this (_send r fault (set_pending rest w)).2) = _url (this w)
                 /\ match _ws (this (_send r fault (set_pending rest w)).2) with
                    | Some _ => true | None => false end
                    = match _ws (this w) with Some _ => true | None => false end).
    { destruct r as [data|e]; [|rewrite _send_rejected; split; reflexivity].
      destruct (encode data) as [[m b]|e] eqn:En;
        [|rewrite (_send_unencodable _ _ _ _ En); split; reflexivity].
      destruct (_ws (this w)) as [ws|] eqn:Hws.
      - rewrite (_send_socket _ _ (set_pending rest w) ws _ _ Hws En). cbn zeta.
        destruct (ws_send fault _ (ready ws)); cbn; destruct (closed ws);
          split; reflexivity.
      - rewrite (_send_http _ _ (set_pending rest w) _ _ Hws En).
        split; reflexivity. }
    destruct (_send r fault (set_pending rest w)) as [[[]|e] w1]; exact Hq.
  - destruct (_ws (this w)) eqn:E; [|discriminate]. injection H as <-.
    cbn. split; reflexivity.
  - destruct (_ws (this w)) eqn:E; [|discriminate]. injection H as <-.
    cbn. split; reflexivity.
  - apply arrive_inv in H as (_ & _ & ->). split; reflexivity.
  - apply respond_inv in H as [_ H].
    apply answer_inv in H as (rq & _ & _ & ->). split; reflexivity.
  - apply answer_inv in H as (rq & _ & _ & ->). split; reflexivity.
Qed.

Lemma forallb_weaken (p q : event -> bool) (t : list event) :
  (forall e, p e = true -> q e = true) ->
  forallb p t = true -> forallb q t = true.
Proof.
  intros H Hp. apply forallb_forall. intros e He.
  apply H. eapply forallb_forall in Hp; eassumption.
Qed.

Lemma run_emits (q : event -> bool) (u : string) (b : bool) :
  (forall t l e,
      _url t = u -> has_socket t = b ->
      (has_socket t = true -> _fetch t = None) ->
      may_emit t l e = true -> q e = true) ->
  forall ls w w',
    consistent w -> _url (this w) = u -> has_socket (this w) = b ->
    run w ls = Some w' ->
    forallb q (emitted w w') = true
    /\ _url (this w') = u /\ has_socket (this w') = b.
Proof.
  intros Hq. induction ls as [|l ls IH]; intros w w' Hw Hu Hb; cbn.
  - intros H. injection H as <-. rewrite emitted_refl. auto.
  - destruct (step w l) as [w1|] eqn:E; [|discriminate]. intros H.
    destruct (step_identity _ _ _ E) as [Hu1 Hb1].
    assert (Hw1 : consistent w1) by apply (consistent_step _ _ _ E Hw).
    destruct (IH w1 w' Hw1) as (F & Hu' & Hb'); try congruence.
    split; [|auto].
    rewrite (emitted_split w w1 w' (extends_step _ _ _ E) (extends_run _ _ _ H)).
    rewrite forallb_app, F, andb_true_r.
    apply (forallb_weaken (may_emit (this w) l)); [|apply step_may_emit, E].
    intros e. apply Hq; auto.
    intros Hs. apply (one_channel _ Hw). unfold has_socket in Hs.
    destruct (_ws (this w)); [eauto|discriminate].
Qed.

Lemma emitted_boot (t : Telemetry) (w : world) : emitted (boot t) w = trace w.
Proof. reflexivity. Qed.

Lemma constructor_inv (url : URL) (t : Telemetry) :
  constructor url = Normal t ->
  _url t = href url /\ _fetch t = None /\ _reporting t = 0.
Proof.
  unfold constructor. intros H.
  destruct (String.prefix "ws" (protocol url));
    [|destruct (negb (String.prefix "http" (protocol url)))];
    inversion H; subst; auto.
Qed.

(** X9.  Nothing but the continuation of a tick reaches the network: as
    long as no promise of [serialize] settles, whatever is reported,
    released or fired, no socket is opened, nothing is sent over it and
    nothing is posted. *)
Theorem only_settled_tick_transmits (ls : list label) (w w' : world) :
  forallb (fun l => negb (is_settle l)) ls = true ->
  run w ls = Some w' ->
  count is_outbound (emitted w w') = 0%nat.
Proof.
  revert w. induction ls as [|l ls IH]; intros w Hls; cbn.
  - intros H. injection H as <-. rewrite emitted_refl. reflexivity.
  - cbn in Hls. apply andb_prop in Hls as [Hl Hls].
    destruct (step w l) as [w1|] eqn:E; [|discriminate]. intros H.
    rewrite (emitted_split w w1 w' (extends_step _ _ _ E) (extends_run _ _ _ H)).
    rewrite count_app, (IH w1 Hls H), Nat.add_0_r.
    apply (count_none _ (may_emit (this w) l)); [|apply step_may_emit, E].
    intros e. destruct e, l; cbn; try discriminate; reflexivity.
Qed.

(** X10.  The URL of a [Telemetry] is the one it was constructed with, for
    good: after any run the getter [url] still gives it, and every socket
    that was opened and every request that was posted went to it. *)
Theorem every_call_goes_to_the_url (url : URL) (t : Telemetry)
    (ls : list label) (w : world) :
  constructor url = Normal t ->
  run (boot t) ls = Some w ->
  _url (this w) = href url
  /\ forallb (to_url (href url)) (trace w) = true.
Proof.
  intros Hc H. destruct (constructor_inv _ _ Hc) as (Hu & _ & _).
  destruct (run_emits (to_url (href url)) (href url) (has_socket t))
    with (ls := ls) (w := boot t) (w' := w) as (F & Hu' & _);
    try assumption; try reflexivity.
  - intros t0 l e Hu0 _ _. destruct e, l; cbn; try discriminate; try reflexivity;
      rewrite Hu0; intros Hm; apply andb_prop in Hm as [_ Hm]; exact Hm.
  - apply (consistent_boot url), Hc.
  - split; [exact Hu'|exact F].
Qed.

(** X11.  A [Telemetry] keeps to the channel it was constructed with: over
    a socket it never aborts a controller and never posts, over HTTP it
    never opens, uses or closes a socket. *)
Theorem channel_kind_is_kept (url : URL) (t : Telemetry)
    (ls : list label) (w : world) :
  constructor url = Normal t ->
  run (boot t) ls = Some w ->
  kind (this w) = kind t
  /\ forallb (of_kind (kind t)) (trace w) = true.
Proof.
  intros Hc H. destruct (constructor_inv _ _ Hc) as (Hu & _ & _).
  destruct (run_emits (of_kind (kind t)) (href url) (has_socket t))
    with (ls := ls) (w := boot t) (w' := w) as (F & _ & Hb');
    try assumption; try reflexivity.
  - intros t0 l e _ Hs0 Hf0. unfold may_emit. unfold kind, has_socket, holds in *.
    destruct (_ws t); destruct (_ws t0); try discriminate;
      try (rewrite (Hf0 eq_refl));
      destruct e, l; cbn; try discriminate; try reflexivity.
  - apply (consistent_boot url), Hc.
  - split; [|exact F]. cbn in Hb'. unfold kind, has_socket in *.
    destruct (_ws (this w)), (_ws t); try discriminate; reflexivity.
Qed.

(** ** Requests under way *)

Lemma settle_request_signal (st : request_status) (r : request) :
  signal (settle_request st r) = signal r.
Proof. unfold settle_request. destruct (status r); reflexivity. Qed.

Lemma numbered_frame (w w' : world) :
  requests w' = requests w -> controllers w' = controllers w ->
  _fetch (this w') = _fetch (this w) -> numbered w -> numbered w'.
Proof.
  intros Hq Hc Hf [N1 N2 N3]. split.
  - rewrite Hc, Hq. exact N1.
  - rewrite Hq. exact N2.
  - rewrite Hf, Hc. exact N3.
Qed.

Lemma numbered_release (sid : nat) (w : world) :
  numbered w -> numbered (release_closure sid w).
Proof.
  intros N. destruct (live_dec w sid) as [(s & Hs & Hr)|Hd].
  2: { rewrite (release_closure_dead _ _ Hd). exact N. }
  rewrite (release_closure_live _ _ _ Hs Hr).
  destruct (1 <? reporting w); [apply (numbered_frame w); auto|].
  destruct (_fetch (this w)) as [c|] eqn:Hf.
  - destruct N as [N1 N2 N3]. split; cbn.
    + rewrite length_map. exact N1.
    + intros i r. rewrite list_lookup_fmap.
      destruct (requests w !! i) as [r0|] eqn:E; [|discriminate].
      intros H. injection H as <-. rewrite abort_request_signal. auto.
    + rewrite Hf in N3. exact N3.
  - apply (numbered_frame w); auto.
Qed.

Lemma numbered_send (r : settled) (fault : option value) (w : world) :
  numbered w -> numbered (_send r fault w).2.
Proof.
  intros N. destruct r as [data|e]; [|rewrite _send_rejected; exact N].
  destruct (encode data) as [[m b]|e] eqn:En;
    [|rewrite (_send_unencodable _ _ _ _ En); exact N].
  destruct (_ws (this w)) as [ws|] eqn:Hws.
  - rewrite (_send_socket _ _ _ _ _ _ Hws En). cbn zeta.
    destruct (ws_send fault _ (ready ws)); cbn; destruct (closed ws);
      apply (numbered_frame w); auto.
  - rewrite (_send_http _ _ _ _ _ Hws En). cbn.
    destruct N as [N1 N2 N3]. split; cbn.
    + rewrite length_app. cbn.
      destruct (_fetch (this w)); rewrite ?length_map; lia.
    + intros i r0 Hi.
      assert (Hlen : length match _fetch (this w) with
                            | Some c => map (abort_request c) (requests w)
                            | None => requests w
                            end = length (requests w))
        by (destruct (_fetch (this w)); rewrite ?length_map; reflexivity).
      apply lookup_app_Some in Hi as [Hi|[Hge Hi]].
      * destruct (_fetch (this w)) as [c|]; [|auto].
        rewrite list_lookup_fmap in Hi.
        destruct (requests w !! i) as [r1|] eqn:E; [|discriminate].
        injection Hi as <-. rewrite abort_request_signal. auto.
      * rewrite Hlen in Hi, Hge.
        destruct (i - length (requests w))%nat as [|k] eqn:Ek; [|discriminate].
        injection Hi as <-. cbn. lia.
    + intros c H. injection H as <-. reflexivity.
Qed.

Lemma numbered_step (w w' : world) (l : label) :
  step w l = Some w' -> numbered w -> numbered w'.
Proof.
  intros H N. destruct l; cbn in H.
  - injection H as <-. apply (numbered_frame w); auto.
  - injection H as <-. unfold stats_onRelease.
    destruct (callbacks w !! o); [apply numbered_release, N|exact N].
  - injection H as <-. unfold stats_onError.
    destruct (callbacks w !! o) as [j|]; [|exact N].
    destruct (sessions w !! j); [apply (numbered_frame w); auto|exact N].
  - injection H as <-. unfold stats_onLog.
    destruct (callbacks w !! o) as [j|]; [|exact N].
    destruct (sessions w !! j); [apply (numbered_frame w); auto|exact N].
  - destruct (tick_inv _ _ _ H) as (s & Hs & Hi).
    destruct (Z.eq_dec (frequency s) 0) as [Hf|Hf].
    + rewrite (tick_once _ _ _ Hs Hi Hf) in H. injection H as <-. cbn zeta.
      apply (numbered_frame
               (if release s
                then release_closure sid
                       (set_sessions (<[sid := disarmed s]> (sessions w)) w)
                else set_sessions (<[sid := disarmed s]> (sessions w)) w));
        try reflexivity.
      destruct (release s); [apply numbered_release|];
        apply (numbered_frame w); auto.
    + rewrite (tick_periodic _ _ _ Hs Hi Hf) in H. injection H as <-.
      apply (numbered_frame w); auto.
  - apply resume_inv in H as (s & rest & _ & _ & ->).
    assert (Np : numbered (set_pending rest w)) by (apply (numbered_frame w); auto).
    apply (numbered_send r fault) in Np.
    destruct (_send r fault (set_pending rest w)) as [[[]|e] w1]; cbn in Np;
      [exact Np|apply (numbered_frame w1); auto].
  - destruct (_ws (this w)); [|discriminate]. injection H as <-.
    apply (numbered_frame w); auto.
  - destruct (_ws (this w)); [|discriminate]. injection H as <-.
    apply (numbered_frame w); auto.
  - apply arrive_inv in H as (_ & _ & ->). apply (numbered_frame w); auto.
  - apply respond_inv in H as [_ H].
    apply answer_inv in H as (rq & Hrq & _ & ->). destruct N as [N1 N2 N3].
    split; cbn; [rewrite length_insert; exact N1| |exact N3].
    intros j r Hj. apply list_lookup_insert_Some in Hj as [(-> & <- & _)|(_ & Hj)];
      [rewrite settle_request_signal|]; auto.
  - apply answer_inv in H as (rq & Hrq & _ & ->). destruct N as [N1 N2 N3].
    split; cbn; [rewrite length_insert; exact N1| |exact N3].
    intros j r Hj. apply list_lookup_insert_Some in Hj as [(-> & <- & _)|(_ & Hj)];
      [rewrite settle_request_signal|]; auto.
Qed.

Lemma numbered_reachable (w : world) : reachable w -> numbered w.
Proof.
  induction 1 as [url t H|w l w' _ IH H].
  - destruct (constructor_inv _ _ H) as (_ & Hf & _).
    split; cbn; [reflexivity| |].
    + intros i r Hi. inversion Hi.
    + rewrite Hf. discriminate.
  - apply (numbered_step _ _ _ H IH).
Qed.

Lemma only_last_counts (l : list request) :
  (forall i r, l !! i = Some r -> in_flight r = true -> S i = length l) ->
  (length (List.filter in_flight l) <= 1)%nat.
Proof.
  induction l as [|x l IH]; intros H; [cbn; lia|].
  cbn [List.filter]. destruct (in_flight x) eqn:Ex.
  - specialize (H 0%nat x eq_refl Ex). cbn in H.
    destruct l; [cbn; lia|discriminate].
  - apply IH. intros i r Hi Hr. specialize (H (S i) r Hi Hr). cbn in H. lia.
Qed.

(** X12.  In every world the program can be in at most one HTTP request
    is under way, and it is the one posted last, made with the controller
    held in [_fetch]: every earlier request has completed, failed or been
    aborted. *)
Theorem one_request_in_flight (w : world) :
  reachable w ->
  (length (List.filter in_flight (requests w)) <= 1)%nat
  /\ forall i r, requests w !! i = Some r -> status r = InFlight ->
                 S i = length (requests w)
                 /\ _fetch (this w) = Some i.
Proof.
  intros Hr.
  pose proof (reachable_consistent _ Hr) as [_ _ Hi].
  pose proof (numbered_reachable _ Hr) as [N1 N2 N3].
  assert (Hlast : forall i r, requests w !! i = Some r -> status r = InFlight ->
                              S i = length (requests w)
                              /\ _fetch (this w) = Some i).
  { intros i r Hl Hst.
    assert (Hin : r ∈ requests w) by (apply list_elem_of_lookup; eauto).
    specialize (Hi r Hin Hst). rewrite (N2 i r Hl) in Hi.
    split; [rewrite <- N1; apply N3, Hi|exact Hi]. }
  split; [|exact Hlast].
  apply only_last_counts. intros i r Hl Hf. apply (Hlast i r Hl).
  unfold in_flight in Hf. destruct (status r); try discriminate. reflexivity.
Qed.

End Further.

(** * Further sample runs *)

Lemma serialize_failure_logged_witness :
  let w := Sample.after Sample.over_http [Report Sample.streamer 1; Tick 0] in
  let w' := Sample.after Sample.over_http
              [Report Sample.streamer 1; Tick 0;
               Settle 0 (Rejected (error "boom")) None] in
  emitted w w' = [Error "StreamerStats error, boom"]
  /\ count is_transmission (emitted w w') = 0%nat
  /\ this w' = this w /\ sessions w' = sessions w /\ requests w' = requests w.
Proof.
  intros w w'.
  apply (serialize_failure_logged (P := Sample.platform) w w' 0
           {| stats := Sample.streamer; frequency := 1;
              release := true; interval := true |}
           (error "boom") None); vm_compute; reflexivity.
Defined.

Lemma socket_fault_logged_witness :
  let w := Sample.after Sample.over_socket [Report Sample.streamer 1; Tick 0] in
  let w' := Sample.after Sample.over_socket
              [Report Sample.streamer 1; Tick 0;
               Settle 0 (Resolved (text "x")) (Some (error "down"))] in
  emitted w w'
  = [WsOpen "wss://host/metrics"; WsSend (body_string "x");
     Error "StreamerStats error, down"]
  /\ sessions w' = sessions w /\ reporting w' = reporting w
  /\ exists ws', _ws (this w') = Some ws' /\ closed ws' = false
                 /\ queueing ws' = [] /\ wire ws' = [].
Proof.
  intros w w'.
  apply (socket_fault_logged (P := Sample.platform) w w' 0
           {| stats := Sample.streamer; frequency := 1;
              release := true; interval := true |}
           (text "x") (error "down") WebSocketReliable_new
           "text/plain" (body_string "x"));
    vm_compute; reflexivity.
Defined.

Lemma released_never_serializes_witness :
  let w := Sample.after Sample.over_socket [Report Sample.streamer 1] in
  let w' := Sample.after Sample.over_socket
              [Report Sample.streamer 1; OnRelease 1;
               Report Sample.player 1; Tick 1] in
  count (is_serialize 0) (emitted (release_closure 0 w) w') = 0%nat
  /\ tick 0 w' = None
  /\ exists s', sessions w' !! 0%nat = Some s'
                /\ release s' = false /\ interval s' = false.
Proof.
  intros w w'.
  apply (released_never_serializes (P := Sample.platform) w w' 0
           {| stats := Sample.streamer; frequency := 1;
              release := true; interval := true |}
           [Report Sample.player 1; Tick 1]); vm_compute; reflexivity.
Defined.

(** A payload that is sent, and a circular object that cannot be
    encoded. *)
Lemma suspended_tick_survives_release_witness :
  let w := Sample.after Sample.over_socket [Report Sample.streamer 1; Tick 0] in
  (exists w',
     resume (P := Sample.platform) 0 (Resolved (text "x")) None
       (release_closure 0 w) = Some w'
     /\ count is_transmission (emitted (release_closure 0 w) w') = 1%nat
     /\ reporting w' = reporting (release_closure 0 w))
  /\ (exists w',
        resume (P := Sample.platform) 0 (Resolved (object 0)) None
          (release_closure 0 w) = Some w'
        /\ emitted (release_closure 0 w) w'
           = [Error "StreamerStats error, Converting circular structure to JSON"]
        /\ reporting w' = reporting (release_closure 0 w)).
Proof.
  intros w. split.
  - apply (suspended_tick_survives_release (P := Sample.platform) w 0 0
             {| stats := Sample.streamer; frequency := 1;
                release := true; interval := true |}
             [] (text "x") None); vm_compute; reflexivity.
  - apply (suspended_tick_survives_release (P := Sample.platform) w 0 0
             {| stats := Sample.streamer; frequency := 1;
                release := true; interval := true |}
             [] (object 0) None); vm_compute; reflexivity.
Defined.

Lemma periodic_ticks_repeat_witness :
  let w := Sample.after Sample.over_http [Report Sample.streamer 3] in
  exists w',
    run (P := Sample.platform) w [Tick 0; Tick 0; Tick 0] = Some w'
    /\ emitted w w' = [Serialize 0; Serialize 0; Serialize 0]
    /\ this w' = this w /\ sessions w' = sessions w
    /\ requests w' = requests w
    /\ pending w' = pending w ++ [0; 0; 0]%nat.
Proof.
  intros w.
  apply (periodic_ticks_repeat (P := Sample.platform) w 0
           {| stats := Sample.streamer; frequency := 3;
              release := true; interval := true |} 3);
    [vm_compute; reflexivity|reflexivity|discriminate].
Defined.

Lemma source_callbacks_forward_witness :
  let w := boot Sample.over_http in
  let w1 := report (P := Sample.platform) Sample.streamer 1 w in
  emitted w1 (stats_onError 1 "lost" w1) = [Error "StreamerStats error, lost"]
  /\ emitted w1 (stats_onLog 1 "ready" w1) = [Error "StreamerStats, ready"]
  /\ stats_onError 5 "lost" w = w /\ stats_onLog 5 "ready" w = w
  /\ stats_onRelease 5 w = w.
Proof.
  intros w w1.
  destruct (source_callbacks_forward (P := Sample.platform)
              (boot Sample.over_http) Sample.streamer 1 "lost")
    as ((A & _) & _ & C).
  destruct (source_callbacks_forward (P := Sample.platform)
              (boot Sample.over_http) Sample.streamer 1 "ready")
    as (_ & (B & _) & D).
  destruct (C 5%nat eq_refl) as (C1 & _ & C3).
  destruct (D 5%nat eq_refl) as (_ & D2 & _).
  repeat split; assumption.
Defined.

Lemma second_report_orphans_first_witness :
  let w := boot Sample.over_socket in
  let w2 := report (P := Sample.platform) Sample.streamer 2
              (report (P := Sample.platform) Sample.streamer 1 w) in
  exists w',
    run (P := Sample.platform) w2 (repeat (OnRelease 1) 3) = Some w'
    /\ reporting w2 = 2
    /\ reporting w' = 1
    /\ sessions w' !! 0%nat
       = Some {| stats := Sample.streamer; frequency := 1;
                 release := true; interval := true |}
    /\ sessions w' !! 1%nat
       = Some {| stats := Sample.streamer; frequency := 2;
                 release := false; interval := false |}
    /\ count is_close (emitted w2 w') = 0%nat.
Proof.
  apply (second_report_orphans_first (P := Sample.platform)
           (boot Sample.over_socket) Sample.streamer 1 2 2).
  vm_compute. discriminate.
Defined.

(** A binary payload, a value without JSON form, and a circular object
    sent while the binary request is under way. *)
Lemma posted_content_type_witness :
  let w := Sample.after Sample.over_http
             [Report Sample.streamer 1; Tick 0; Tick 0] in
  let w1 := Sample.after Sample.over_http
              [Report Sample.streamer 1; Tick 0; Tick 0;
               Settle 0 (Resolved (array_buffer [Byte.x2a])) None] in
  let w2 := Sample.after Sample.over_http
              [Report Sample.streamer 1; Tick 0; Tick 0;
               Settle 0 (Resolved (array_buffer [Byte.x2a])) None;
               Settle 0 (Resolved (object 0)) None] in
  let w3 := Sample.after Sample.over_http
              [Report Sample.streamer 1; Tick 0; Tick 0;
               Settle 0 (Resolved undefined) None] in
  (exists r,
     last (requests w1) = Some r /\ status r = InFlight
     /\ last (emitted w w1)
        = Some (Fetch 0 "https://host/metrics" "application/octet-stream"
                  (body_buffer [Byte.x2a]))
     /\ signal r = 0%nat /\ content_type r = "application/octet-stream"
     /\ payload r = body_buffer [Byte.x2a])
  /\ (emitted w1 w2
      = [Error "StreamerStats error, Converting circular structure to JSON"]
      /\ this w2 = this w1 /\ requests w2 = requests w1)
  /\ (exists r,
        last (requests w3) = Some r
        /\ content_type r = "application/json"
        /\ payload r = body_undefined).
Proof.
  intros w w1 w2 w3.
  set (s := {| stats := Sample.streamer; frequency := 1;
               release := true; interval := true |}).
  assert (H1 : resume (P := Sample.platform) 0
                 (Resolved (array_buffer [Byte.x2a])) None w = Some w1)
    by (vm_compute; reflexivity).
  assert (H2 : resume (P := Sample.platform) 0 (Resolved (object 0)) None w1
               = Some w2) by (vm_compute; reflexivity).
  assert (H3 : resume (P := Sample.platform) 0 (Resolved undefined) None w
               = Some w3) by (vm_compute; reflexivity).
  pose proof (posted_content_type (P := Sample.platform) w w1 0 s
                (array_buffer [Byte.x2a]) None eq_refl eq_refl H1) as A.
  pose proof (posted_content_type (P := Sample.platform) w1 w2 0 s
                (object 0) None eq_refl eq_refl H2) as B.
  pose proof (posted_content_type (P := Sample.platform) w w3 0 s
                undefined None eq_refl eq_refl H3) as C.
  cbn [encode Sample.platform JSON_stringify Sample.json] in A, B, C.
  split; [|split].
  - destruct A as (r & A1 & A2 & A3 & _). exists r.
    split; [exact A1|]. split; [exact A2|].
    assert (Hr : Some r = Some (post 0 "application/octet-stream"
                                  (body_buffer [Byte.x2a])))
      by (rewrite <- A1; vm_compute; reflexivity).
    injection Hr as ->. rewrite <- A3. repeat split.
  - destruct B as (B1 & B2 & B3 & _). auto.
  - destruct C as (r & C1 & _). exists r. split; [exact C1|].
    assert (Hr : Some r = Some (post 0 "application/json" body_undefined))
      by (rewrite <- C1; vm_compute; reflexivity).
    injection Hr as ->. split; reflexivity.
Defined.

Lemma only_settled_tick_transmits_witness :
  let w := boot Sample.over_socket in
  let w' := Sample.after Sample.over_socket
              [Report Sample.streamer 0; Tick 0; OnRelease 1] in
  count is_outbound (emitted w w') = 0%nat.
Proof.
  intros w w'.
  apply (only_settled_tick_transmits (P := Sample.platform)
           [Report Sample.streamer 0; Tick 0; OnRelease 1] w w');
    vm_compute; reflexivity.
Defined.

Lemma every_call_goes_to_the_url_witness :
  let w := Sample.after Sample.over_http
             [Report Sample.streamer 1; Tick 0;
              Settle 0 (Resolved (text "x")) None; OnRelease 1] in
  _url (this w) = "https://host/metrics"
  /\ forallb (to_url "https://host/metrics") (trace w) = true.
Proof.
  intros w.
  apply (every_call_goes_to_the_url (P := Sample.platform) Sample.https
           Sample.over_http
           [Report Sample.streamer 1; Tick 0;
            Settle 0 (Resolved (text "x")) None; OnRelease 1] w);
    vm_compute; reflexivity.
Defined.

Lemma channel_kind_is_kept_witness :
  let w := Sample.after Sample.over_socket
             [Report Sample.streamer 1; Tick 0;
              Settle 0 (Resolved (text "x")) None; OnRelease 1] in
  kind (this w) = socket
  /\ forallb (of_kind socket) (trace w) = true.
Proof.
  intros w.
  apply (channel_kind_is_kept (P := Sample.platform) Sample.wss
           Sample.over_socket
           [Report Sample.streamer 1; Tick 0;
            Settle 0 (Resolved (text "x")) None; OnRelease 1] w);
    vm_compute; reflexivity.
Defined.

Lemma one_request_in_flight_witness :
  let w := Sample.after Sample.over_http
             [Report Sample.streamer 1; Tick 0; Tick 0;
              Settle 0 (Resolved (text "a")) None;
              Settle 0 (Resolved (text "b")) None] in
  length (requests w) = 2%nat
  /\ (length (List.filter in_flight (requests w)) <= 1)%nat
  /\ forall i r, requests w !! i = Some r -> status r = InFlight ->
                 S i = length (requests w)
                 /\ _fetch (this w) = Some i.
Proof.
  intros w. split; [vm_compute; reflexivity|].
  apply (one_request_in_flight (P := Sample.platform) w).
  apply (reachable_run
           [Report Sample.streamer 1; Tick 0; Tick 0;
            Settle 0 (Resolved (text "a")) None;
            Settle 0 (Resolved (text "b")) None]
           (boot Sample.over_http)).
  - vm_compute. reflexivity.
  - apply (reachable_boot Sample.https). reflexivity.
Defined.
